(** * Conf_Track: the merge engine of tools/update_conferences.py

    A shallow embedding of the canonicalizer, the key builder, the catalog
    index, the merge policy, the resolution engine and the ordering stage of
    [tools/update_conferences.py], with the properties of the catalog
    specification stated and proved (or refuted) over it.

    Conventions of the embedding.
    - A Python [str] is a [string]; an [ascii] is read as the code point of
      the same number, so the strings of the model are the Python strings
      over U+0000..U+00FF.  Every character class below ([isspace], [\w],
      [\d], [lower]) is the restriction of Python's Unicode class to that
      range.
    - A JSON value is a [value]; a record of the catalog is a Python [dict],
      here a [gmap string value].
    - The index is a [gmap string nat].
    - [re] is embedded as a small backtracking matcher with Python's
      priorities (leftmost alternative first, greedy or lazy repetition). *)

From Stdlib Require Import ZArith QArith Ascii String List Sorting.Permutation.
From stdpp Require Import gmap strings list fin_maps sorting pretty.

Local Open Scope string_scope.
Local Open Scope list_scope.

(** ** Characters *)

Module Chars.

Definition code (c : ascii) : N := N_of_ascii c.

Definition in_range (lo hi : N) (c : ascii) : bool :=
  ((lo <=? code c) && (code c <=? hi))%N.

Definition is_code (n : N) (c : ascii) : bool := (code c =? n)%N.

(** [str.isspace] and the class [\s]: TAB..CR, FS..US, SPACE, NEL, NBSP. *)
Definition isspace (c : ascii) : bool :=
  in_range 9 13 c || in_range 28 32 c || is_code 133 c || is_code 160 c.

(** The class [\d]: the decimal digits. *)
Definition isdigit (c : ascii) : bool := in_range 48 57 c.

(** [str.isalnum] on U+0000..U+00FF: digits, letters, the ordinal
    indicators, MICRO SIGN, the superscript digits and the vulgar fractions. *)
Definition isalnum (c : ascii) : bool :=
  in_range 48 57 c || in_range 65 90 c || in_range 97 122 c
  || is_code 170 c || is_code 178 c || is_code 179 c || is_code 181 c
  || is_code 185 c || is_code 186 c || in_range 188 190 c
  || in_range 192 214 c || in_range 216 246 c || in_range 248 255 c.

(** The class [\w]. *)
Definition isword (c : ascii) : bool := isalnum c || is_code 95 c.

(** [str.lower] on one character: A-Z and the Latin-1 capitals. *)
Definition lower (c : ascii) : ascii :=
  if in_range 65 90 c || (in_range 192 222 c && negb (is_code 215 c))
  then ascii_of_N (code c + 32)
  else c.

Definition eqb_nocase (a b : ascii) : bool := Ascii.eqb (lower a) (lower b).

End Chars.

(** ** Strings *)

Module Str.

Fixpoint lower (s : string) : string :=
  match s with
  | EmptyString => EmptyString
  | String c s' => String (Chars.lower c) (lower s')
  end.

Fixpoint lstrip (s : string) : string :=
  match s with
  | EmptyString => EmptyString
  | String c s' => if Chars.isspace c then lstrip s' else s
  end.

(** [rstrip]: a whitespace character is dropped when nothing but whitespace
    follows it. *)
Fixpoint rstrip (s : string) : string :=
  match s with
  | EmptyString => EmptyString
  | String c s' =>
      match rstrip s' with
      | EmptyString => if Chars.isspace c then EmptyString else String c EmptyString
      | t => String c t
      end
  end.

(** [s.strip()] *)
Definition strip (s : string) : string := rstrip (lstrip s).

Definition is_empty (s : string) : bool :=
  match s with EmptyString => true | _ => false end.

(** Truth value of a [str]: non-empty. *)
Definition truthy (s : string) : bool := negb (is_empty s).

Fixpoint take (n : nat) (s : string) : string :=
  match n, s with
  | S n', String c s' => String c (take n' s')
  | _, _ => EmptyString
  end.

Fixpoint join (sep : string) (l : list string) : string :=
  match l with
  | [] => EmptyString
  | [s] => s
  | s :: l' => s +:+ sep +:+ join sep l'
  end.

End Str.

(** ** Regular expressions: the fragment of [re] the program uses *)

Module Re.

Inductive regex : Type :=
| Eps
| Chr (p : ascii -> bool)           (* one character of a class *)
| Cat (r1 r2 : regex)
| Alt (r1 r2 : regex)               (* r1|r2, r1 tried first *)
| Star (r : regex)                  (* r*  greedy *)
| Lazy (r : regex)                  (* r*? *)
| Grp (name : ascii) (r : regex)    (* capturing group *)
| WordB                             (* \b *)
| Bos                               (* ^ *)
| Eos.                              (* $ without MULTILINE *)

(** A position in the subject: the characters before it (nearest first), the
    characters from it on, and the groups captured so far (latest first). *)
Record mstate : Type := MState {
  before : list ascii;
  rest : string;
  groups : list (ascii * string)
}.

Definition start (s : string) : mstate := MState [] s [].

Definition consumed (st st' : mstate) : nat :=
  String.length (rest st) - String.length (rest st').

Definition word_before (st : mstate) : bool :=
  match before st with c :: _ => Chars.isword c | [] => false end.

Definition word_after (st : mstate) : bool :=
  match rest st with String c _ => Chars.isword c | EmptyString => false end.

Definition at_end (st : mstate) : bool :=
  match rest st with
  | EmptyString => true
  | String c EmptyString => Chars.is_code 10 c
  | _ => false
  end.

(** The iterations of a greedy repetition whose body matches as [step]
    says: one more iteration first, then none.  An iteration that consumes
    nothing is not repeated; [n] bounds the iterations by the characters
    left. *)
Fixpoint star_loop (step : mstate -> list mstate) (n : nat) (st : mstate)
  : list mstate :=
  match n with
  | O => [st]
  | S n' =>
      flat_map (fun st' => if (0 <? consumed st st')%nat
                           then star_loop step n' st' else [])
               (step st) ++ [st]
  end.

(** The same for a lazy repetition: no iteration first. *)
Fixpoint lazy_loop (step : mstate -> list mstate) (n : nat) (st : mstate)
  : list mstate :=
  match n with
  | O => [st]
  | S n' =>
      st :: flat_map (fun st' => if (0 <? consumed st st')%nat
                                 then lazy_loop step n' st' else [])
                     (step st)
  end.

(** All the ways [r] matches at [st], in the order a backtracking matcher
    tries them. *)
Fixpoint run (r : regex) (st : mstate) : list mstate :=
  match r with
  | Eps => [st]
  | Chr p =>
      match rest st with
      | String c s' =>
          if p c then [MState (c :: before st) s' (groups st)] else []
      | EmptyString => []
      end
  | Cat r1 r2 => flat_map (run r2) (run r1 st)
  | Alt r1 r2 => run r1 st ++ run r2 st
  | Star r' => star_loop (run r') (String.length (rest st)) st
  | Lazy r' => lazy_loop (run r') (String.length (rest st)) st
  | Grp g r' =>
      map (fun st' => MState (before st') (rest st')
                        ((g, Str.take (consumed st st') (rest st)) :: groups st'))
          (run r' st)
  | WordB => if xorb (word_before st) (word_after st) then [st] else []
  | Bos => match before st with [] => [st] | _ => [] end
  | Eos => if at_end st then [st] else []
  end.

(** The match the matcher settles on at [st]: the first one. *)
Definition match_at (r : regex) (st : mstate) : option mstate :=
  head (run r st).

(** [re.match(r, s)] *)
Definition re_match (r : regex) (s : string) : option mstate :=
  match_at r (start s).

(** [m.group(g)] *)
Fixpoint lookup_group (g : ascii) (l : list (ascii * string)) : option string :=
  match l with
  | [] => None
  | (g', s) :: l' => if Ascii.eqb g g' then Some s else lookup_group g l'
  end.

Definition group (g : ascii) (m : mstate) : string :=
  default EmptyString (lookup_group g (groups m)).

Definition advance (st : mstate) : option mstate :=
  match rest st with
  | String c s' => Some (MState (c :: before st) s' (groups st))
  | EmptyString => None
  end.

(** [re.search(r, s)]: the match at the leftmost position that has one. *)
Fixpoint search_from (n : nat) (r : regex) (st : mstate) : option mstate :=
  match match_at r st with
  | Some m => Some m
  | None =>
      match n, advance st with
      | S n', Some st' => search_from n' r st'
      | _, _ => None
      end
  end.

Definition re_search (r : regex) (s : string) : option mstate :=
  search_from (String.length s) r (start s).

(** [re.sub(r, repl, s)]: from left to right, the match at a position is
    replaced by [repl] and the scan goes on behind it; where nothing matches,
    and behind an empty match, one character is copied.  [n] counts the
    characters left, so [O] is the end of the subject, where only an empty
    match is left to replace. *)
Fixpoint sub_from (n : nat) (r : regex) (repl : string) (st : mstate) : string :=
  match n with
  | O =>
      match match_at r st with
      | Some _ => repl +:+ rest st
      | None => rest st
      end
  | S n' =>
      match match_at r st with
      | Some m =>
          if (0 <? consumed st m)%nat
          then repl +:+ sub_from n' r repl (MState (before m) (rest m) [])
          else
            repl +:+
            match rest st with
            | String c s' => String c (sub_from n' r repl (MState (c :: before st) s' []))
            | EmptyString => EmptyString
            end
      | None =>
          match rest st with
          | String c s' => String c (sub_from n' r repl (MState (c :: before st) s' []))
          | EmptyString => EmptyString
          end
      end
  end.

Definition re_sub (r : regex) (repl : string) (s : string) : string :=
  sub_from (String.length s) r repl (start s).

(** Pattern syntax. *)
Definition chr (c : ascii) : regex := Chr (Ascii.eqb c).
Definition chr_i (c : ascii) : regex := Chr (Chars.eqb_nocase c).
Definition plus (r : regex) : regex := Cat r (Star r).
Definition opt (r : regex) : regex := Alt r Eps.
Definition any : regex := Chr (fun c => negb (Chars.is_code 10 c)).   (* . *)
Definition ws : regex := Chr Chars.isspace.                            (* \s *)
Definition digit : regex := Chr Chars.isdigit.                         (* \d *)
Definition word : regex := Chr Chars.isword.                           (* \w *)

Fixpoint lit (s : string) : regex :=
  match s with
  | EmptyString => Eps
  | String c EmptyString => chr c
  | String c s' => Cat (chr c) (lit s')
  end.

(** A literal under [re.IGNORECASE]. *)
Fixpoint lit_i (s : string) : regex :=
  match s with
  | EmptyString => Eps
  | String c EmptyString => chr_i c
  | String c s' => Cat (chr_i c) (lit_i s')
  end.

Fixpoint seq (l : list regex) : regex :=
  match l with
  | [] => Eps
  | [r] => r
  | r :: l' => Cat r (seq l')
  end.

Fixpoint alts (l : list regex) : regex :=
  match l with
  | [] => Eps
  | [r] => r
  | r :: l' => Alt r (alts l')
  end.

End Re.

Import Re.

(** ** Values *)

#[local] Set Warnings "-register-all".

(** A JSON value as the program sees it.  A number, a boolean or an object is
    carried by the text [str()] gives for it (for these, [repr()] gives the
    same text). *)
Inductive value : Type :=
| VNone
| VStr (s : string)
| VList (xs : list value)
| VOther (shown : string).

Module Py.

Definition hex_digit (n : N) : ascii :=
  ascii_of_N (if (n <? 10)%N then 48 + n else 87 + n).

(** [str.isprintable] on one character of U+0000..U+00FF. *)
Definition isprintable (c : ascii) : bool :=
  Chars.in_range 32 126 c || Chars.in_range 161 172 c || Chars.in_range 174 255 c.

Fixpoint contains_char (c : ascii) (s : string) : bool :=
  match s with
  | EmptyString => false
  | String d s' => Ascii.eqb c d || contains_char c s'
  end.

Fixpoint escape (q : ascii) (s : string) : string :=
  match s with
  | EmptyString => EmptyString
  | String c s' =>
      (if Ascii.eqb c "\" then "\\"
       else if Ascii.eqb c q then String "\" (String q EmptyString)
       else if Chars.is_code 9 c then "\t"
       else if Chars.is_code 10 c then "\n"
       else if Chars.is_code 13 c then "\r"
       else if isprintable c then String c EmptyString
       else String "\" (String "x" (String (hex_digit (Chars.code c / 16))
                 (String (hex_digit (Chars.code c mod 16)) EmptyString))))
      +:+ escape q s'
  end.

Definition dquote : ascii := ascii_of_N 34.

(** [repr(s)] of a [str]: double quotes only when [s] has a single quote and
    no double quote. *)
Definition repr_str (s : string) : string :=
  let q : ascii := if contains_char "'" s && negb (contains_char dquote s)
                   then dquote else "'"%char in
  String q (escape q s) +:+ String q EmptyString.

(** [repr(v)] *)
Fixpoint repr (v : value) : string :=
  match v with
  | VNone => "None"
  | VStr s => repr_str s
  | VList xs => "[" +:+ Str.join ", " (map repr xs) +:+ "]"
  | VOther shown => shown
  end.

(** [str(v)] *)
Definition str (v : value) : string :=
  match v with
  | VStr s => s
  | _ => repr v
  end.

End Py.

(** ** Utilities *)

(** [_safe_str] *)
Definition _safe_str (x : value) : string :=
  match x with
  | VNone => ""
  | _ => Str.strip (Py.str x)
  end.

(** [_norm_space]: [re.sub(r"\s+", " ", _safe_str(s)).strip()] *)
Definition _norm_space (s : value) : string :=
  Str.strip (re_sub (plus ws) " " (_safe_str s)).

(** The dashes U+2010..U+2014 and U+2212 of [_norm_key_exact]: none of them
    is a character of the model. *)
Definition is_unicode_dash (c : ascii) : bool := false.

(** The class of [[^a-z0-9\- ]]. *)
Definition not_key_char (c : ascii) : bool :=
  negb (Chars.in_range 97 122 c || Chars.in_range 48 57 c
        || Ascii.eqb c "-" || Ascii.eqb c " ").

(** [_norm_key_exact] *)
Definition _norm_key_exact (name : value) : string :=
  let s := Str.lower (_safe_str name) in
  let s := Str.strip (re_sub (plus ws) " " s) in
  let s := re_sub (Chr is_unicode_dash) "-" s in
  let s := re_sub (plus (Chr not_key_char)) "" s in
  Str.strip s.

(** [_YEAR_RE]: [\b(19|20)\d{2}\b] *)
Definition _YEAR_RE : regex :=
  seq [WordB; Alt (lit "19") (lit "20"); digit; digit; WordB].

(** [_CYCLE_RE], case-insensitive: an optional non-capturing group (an
    optional dash of the class hyphen, en dash, em dash, then [\s*]), then
    [cycle], [\s*], one of [\d+], [spring], [fall], and [\b].  Of the three
    dashes only the hyphen is a character of the model. *)
Definition _CYCLE_RE : regex :=
  seq [opt (Cat (opt (Chr (fun c => Ascii.eqb c "-" || is_unicode_dash c))) (Star ws));
       lit_i "cycle"; Star ws;
       alts [plus digit; lit_i "spring"; lit_i "fall"]; WordB].

(** [_norm_key_series] *)
Definition _norm_key_series (name : value) : string :=
  let s := _safe_str name in
  let s := re_sub _YEAR_RE "" s in
  let s := re_sub _CYCLE_RE "" s in
  let s := Str.lower (_safe_str (VStr s)) in
  let s := Str.strip (re_sub (plus ws) " " s) in
  let s := re_sub (Chr is_unicode_dash) "-" s in
  let s := re_sub (plus (Chr not_key_char)) "" s in
  Str.strip s.

(** [_ensure_list] *)
Definition _ensure_list (x : value) : list value :=
  match x with
  | VNone => []
  | VList xs => xs
  | _ => [x]
  end.

(** [_dedupe_list]: the loop, with [seen] and [out] as accumulators. *)
Fixpoint _dedupe_loop (xs : list string) (seen : gset string) (out : list string)
  : list string :=
  match xs with
  | [] => out
  | x :: xs' =>
      let x := _safe_str (VStr x) in
      if Str.is_empty x then _dedupe_loop xs' seen out
      else if decide (x ∈ seen) then _dedupe_loop xs' seen out
      else _dedupe_loop xs' ({[x]} ∪ seen) (out ++ [x])
  end.

Definition _dedupe_list (xs : list string) : list string :=
  _dedupe_loop xs ∅ [].

(** ** Dates: the part of [datetime.strptime] and [strftime] the program uses *)

Module Date.

Record date : Type := MkDate { year : nat; month : nat; day : nat }.

(** The month names of the C locale as [_strptime.LocaleTime] holds them:
    lower-cased, with an empty name at index 0. *)
Definition a_month : list string :=
  [""; "jan"; "feb"; "mar"; "apr"; "may"; "jun";
   "jul"; "aug"; "sep"; "oct"; "nov"; "dec"].

Definition f_month : list string :=
  [""; "january"; "february"; "march"; "april"; "may"; "june";
   "july"; "august"; "september"; "october"; "november"; "december"].

(** [sorted(names, key=len, reverse=True)]: a stable insertion by length. *)
Fixpoint insert_by_len (x : string) (l : list string) : list string :=
  match l with
  | [] => [x]
  | y :: l' => if (String.length y <? String.length x)%nat
               then x :: l else y :: insert_by_len x l'
  end.

Definition sort_by_len (l : list string) : list string :=
  foldr insert_by_len [] l.

(** [TimeRE.__seqToRE]: the names, longest first, as one alternation; the
    empty name is an alternative too. *)
Definition seqToRE (names : list string) (g : ascii) : regex :=
  Grp g (alts (map lit_i (sort_by_len names))).

Definition range (lo hi : N) : regex := Chr (Chars.in_range lo hi).

(** The directives of [TimeRE] the five formats and the ordering stage use. *)
Definition directive (c : ascii) : option regex :=
  if Ascii.eqb c "d" then
    (* 3[0-1]|[1-2]\d|0[1-9]|[1-9]| [1-9] *)
    Some (Grp "d" (alts [Cat (chr "3") (range 48 49); Cat (range 49 50) digit;
                         Cat (chr "0") (range 49 57); range 49 57;
                         Cat (chr " ") (range 49 57)]))
  else if Ascii.eqb c "m" then
    (* 1[0-2]|0[1-9]|[1-9] *)
    Some (Grp "m" (alts [Cat (chr "1") (range 48 50); Cat (chr "0") (range 49 57);
                         range 49 57]))
  else if Ascii.eqb c "Y" then
    Some (Grp "Y" (seq [digit; digit; digit; digit]))
  else if Ascii.eqb c "b" then Some (seqToRE a_month "b")
  else if Ascii.eqb c "B" then Some (seqToRE f_month "B")
  else None.

(** [TimeRE.pattern]: a run of whitespace of the format is [\s+], a
    directive is its group, any other character is itself (the pattern is
    compiled with IGNORECASE).  [None]: a stray [%] or a directive that is
    not listed above. *)
Fixpoint pattern (in_ws : bool) (fmt : string) : option (list regex) :=
  match fmt with
  | EmptyString => Some []
  | String c fmt' =>
      if Chars.isspace c then
        if in_ws then pattern true fmt'
        else option_map (cons (plus ws)) (pattern true fmt')
      else if Ascii.eqb c "%" then
        match fmt' with
        | String d fmt'' =>
            match directive d, pattern false fmt'' with
            | Some r, Some l => Some (r :: l)
            | _, _ => None
            end
        | EmptyString => None
        end
      else option_map (cons (chr_i c)) (pattern false fmt')
  end.

(** [int(s)] of an optional blank and decimal digits. *)
Fixpoint int_acc (acc : nat) (s : string) : nat :=
  match s with
  | EmptyString => acc
  | String c s' =>
      if Chars.isdigit c
      then int_acc (10 * acc + N.to_nat (Chars.code c - 48)) s'
      else int_acc acc s'
  end.

Definition int (s : string) : nat := int_acc 0 s.

Fixpoint index_of (x : string) (l : list string) : option nat :=
  match l with
  | [] => None
  | y :: l' => if String.eqb x y then Some O else option_map S (index_of x l')
  end.

Definition is_leap (y : nat) : bool :=
  ((y mod 4 =? 0) && (negb (y mod 100 =? 0) || (y mod 400 =? 0)))%nat.

Definition days_in_month (y m : nat) : nat :=
  match m with
  | 1 | 3 | 5 | 7 | 8 | 10 | 12 => 31
  | 4 | 6 | 9 | 11 => 30
  | 2 => if is_leap y then 29 else 28
  | _ => 0
  end.

(** What the constructor [datetime.date] accepts. *)
Definition valid (d : date) : bool :=
  ((1 <=? year d) && (year d <? 10 * 1000) && (1 <=? month d) && (month d <=? 12)
   && (1 <=? day d) && (day d <=? days_in_month (year d) (month d)))%nat.

Definition field (g : ascii) (dflt : nat) (m : mstate) : nat :=
  match lookup_group g (groups m) with
  | Some s => int s
  | None => dflt
  end.

Definition month_field (m : mstate) : nat :=
  match lookup_group "B" (groups m), lookup_group "b" (groups m) with
  | Some s, _ => default 0%nat (index_of (Str.lower s) f_month)
  | None, Some s => default 0%nat (index_of (Str.lower s) a_month)
  | None, None => field "m" 1 m
  end.

(** [datetime.strptime(s, fmt)] for a format of the directives above;
    [None] is ValueError: no match at the start of [s], unconverted data
    after the match, or a date that does not exist. *)
Definition strptime (s : string) (fmt : string) : option date :=
  match pattern false fmt with
  | None => None
  | Some rs =>
      match re_match (seq rs) s with
      | None => None
      | Some m =>
          if negb (Str.is_empty (rest m)) then None
          else
            let d := MkDate (field "Y" 1900 m) (month_field m) (field "d" 1 m) in
            if valid d then Some d else None
      end
  end.

Definition digit_char (n : nat) : ascii := ascii_of_N (48 + N.of_nat (n mod 10)).

Definition two_digits (n : nat) : string :=
  String (digit_char (n / 10)) (String (digit_char n) EmptyString).

Definition four_digits (n : nat) : string :=
  String (digit_char (n / 1000)) (String (digit_char (n / 100))
    (String (digit_char (n / 10)) (String (digit_char n) EmptyString))).

Definition month_abbr : list string :=
  [""; "Jan"; "Feb"; "Mar"; "Apr"; "May"; "Jun";
   "Jul"; "Aug"; "Sep"; "Oct"; "Nov"; "Dec"].

Fixpoint drop_zeros (s : string) : string :=
  match s with
  | String c (String _ _ as s') => if Ascii.eqb c "0" then drop_zeros s' else s
  | _ => s
  end.

(** [dt.strftime("%b %d %Y")] in the C locale.  The year is printed as the C
    library prints it, glibc without leading zeros: "Jan 05 2026", and
    "May 31 1" for the year 1. *)
Definition strftime_b_d_Y (d : date) : string :=
  nth (month d) month_abbr "" +:+ " " +:+ two_digits (day d) +:+ " "
  +:+ drop_zeros (four_digits (year d)).

End Date.

(** ** Canonicalizer *)

(** The five formats of [_clean_deadline_human], in the order they are tried. *)
Definition deadline_formats : list string :=
  ["%b %d %Y"; "%B %d %Y"; "%b %d, %Y"; "%B %d, %Y"; "%Y-%m-%d"].

(** [</?strike>], IGNORECASE *)
Definition strike_marker : regex :=
  seq [chr "<"; opt (chr "/"); lit_i "strike>"].

(** [\(.*?\)]: a parenthetical note, (AoE), (UTC), (EDT), ... *)
Definition paren_note : regex :=
  seq [chr "("; Lazy any; chr ")"].

(** [in\s+\d+\s+days], IGNORECASE *)
Definition in_days : regex :=
  seq [lit_i "in"; plus ws; plus digit; plus ws; lit_i "days"].

(** [;?\s*\d{1,2}:\d{2}\s*(AM|PM)], IGNORECASE *)
Definition clock_time : regex :=
  seq [opt (chr ";"); Star ws; digit; opt digit; chr ":"; digit; digit; Star ws;
       Alt (lit_i "AM") (lit_i "PM")].

(** The noise [_clean_deadline_human] removes, in the order of its [re.sub]
    calls, and [_norm_space] at the end. *)
Definition strip_noise (s : string) : string :=
  let s := re_sub strike_marker "" s in
  let s := re_sub paren_note "" s in
  let s := re_sub in_days "" s in
  let s := re_sub clock_time "" s in
  let s := re_sub (chr ";") "" s in
  _norm_space (VStr s).

(** The loop over the formats: the first one that parses decides. *)
Fixpoint try_formats (s : string) (fmts : list string) : string :=
  match fmts with
  | [] => s
  | fmt :: fmts' =>
      match Date.strptime s fmt with
      | Some dt => Date.strftime_b_d_Y dt
      | None => try_formats s fmts'
      end
  end.

(** [_clean_deadline_human] *)
Definition _clean_deadline_human (val : value) : string :=
  match val with
  | VStr v =>
      if Str.is_empty (Str.strip v) then ""
      else try_formats (strip_noise v) deadline_formats
  | _ => ""
  end.

(** [^CCF\s+\w+], IGNORECASE *)
Definition ccf_prefix : regex :=
  seq [Bos; lit_i "CCF"; plus ws; plus word].

(** [^CCF\s+\w+\s*\((.+)\)$], IGNORECASE *)
Definition ccf_label : regex :=
  Cat ccf_prefix (seq [Star ws; chr "("; Grp "1" (plus any); chr ")"; Eos]).

(** [\(([^()]+)\)\s*$] *)
Definition trailing_paren : regex :=
  seq [chr "(";
       Grp "1" (plus (Chr (fun c => negb (Ascii.eqb c "(" || Ascii.eqb c ")"))));
       chr ")"; Star ws; Eos].

Definition wireless_labels : list string :=
  ["wireless & communication"; "wireless and communication"].

Definition networking_labels : list string :=
  ["networking & systems"; "networking and systems"; "networks and systems"].

Definition mem (x : string) (l : list string) : bool :=
  existsb (String.eqb x) l.

(** [canonicalize_subject] *)
Definition canonicalize_subject (label : value) : string :=
  let s := _norm_space label in
  (* (1) keep only the parenthesis content of "CCF ... (...)" *)
  let s := match re_match ccf_label s with
           | Some m => _norm_space (VStr (group "1" m))
           | None => s
           end in
  let s := match re_search trailing_paren s, re_match ccf_prefix s with
           | Some m2, Some _ => _norm_space (VStr (group "1" m2))
           | _, _ => s
           end in
  (* (2) rename the wireless label *)
  let s := if mem (Str.lower s) wireless_labels then "Wireless/Communication" else s in
  (* (3) merge the networking labels *)
  let s := if mem (Str.lower s) networking_labels then "Network System" else s in
  let s := if String.eqb (Str.lower s) "network system" then "Network System" else s in
  s.

(** ** Records *)

Abbreviation entry := (gmap string value).

#[global] Instance value_inhabited : Inhabited value := populate VNone.

(** [d.get(k, dflt)] *)
Definition get (d : entry) (k : string) (dflt : value) : value :=
  default dflt (d !! k).

(** The [str] a field holds; the fields read through it are set to a [str]
    by [normalize_entry_fields] before they are read. *)
Definition str_of (v : value) : string :=
  match v with VStr s => s | _ => "" end.

(** [normalize_entry_subjects]: the record with its ["sub"] replaced. *)
Definition normalize_entry_subjects (e : entry) : entry :=
  let raw := get e "sub" (VStr "") in
  let subs :=
    match raw with
    | VList xs => map canonicalize_subject xs
    | VStr r => if Str.truthy (Str.strip r) then [canonicalize_subject raw] else []
    | _ => []
    end in
  let subs := _dedupe_list (filter (fun s => Str.truthy s = true) subs) in
  let subs := match subs with [] => ["Uncategorized"] | _ => subs end in
  <["sub" := VList (map VStr subs)]> e.

(** [out[k] = _clean_deadline_human(out[k])] *)
Definition clean_at (k : string) (out : entry) : entry :=
  <[k := VStr (_clean_deadline_human (out !!! k))]> out.

(** [normalize_entry_fields]: a new dict of the nine keys of the schema. *)
Definition normalize_entry_fields (e : entry) : entry :=
  let out : entry :=
    list_to_map
      [("name", VStr (_norm_space (get e "name" (VStr ""))));
       ("sub", get e "sub" (VStr ""));
       ("Location", VStr (_norm_space (get e "Location" (VStr ""))));
       ("Start Date", VStr (_norm_space (get e "Start Date" (VStr ""))));
       ("End Date", VStr (_norm_space (get e "End Date" (VStr ""))));
       ("Abstract Deadline", VStr (_norm_space (get e "Abstract Deadline" (VStr ""))));
       ("Submission Deadline", VStr (_norm_space (get e "Submission Deadline" (VStr ""))));
       ("Notification", VStr (_norm_space (get e "Notification" (VStr ""))));
       ("link", VStr (_norm_space (get e "link" (VStr ""))))] in
  (* the common date formats of the sources become "Mon DD YYYY" *)
  let out := clean_at "Start Date" out in
  let out := clean_at "End Date" out in
  let out := clean_at "Abstract Deadline" out in
  let out := clean_at "Submission Deadline" out in
  let out := clean_at "Notification" out in
  normalize_entry_subjects out.

(** ** Merge policy *)

Definition updatable : list string :=
  ["Location"; "Start Date"; "End Date"; "Abstract Deadline"; "Submission Deadline";
   "Notification"].

(** One turn of the loop over [updatable]. *)
Definition refresh (new : entry) (old : entry) (k : string) : entry :=
  let nv := str_of (get new k (VStr "")) in
  if Str.truthy nv then
    if negb (Str.truthy (str_of (get old k (VStr ""))))
       || negb (String.eqb (str_of (get old k (VStr ""))) nv)
    then <[k := VStr nv]> old else old
  else old.

(** [merge_entries] *)
Definition merge_entries (old new : entry) : entry :=
  let old := normalize_entry_fields old in
  let new := normalize_entry_fields new in
  (* name: prefer longer *)
  let old :=
    if Str.truthy (str_of (new !!! "name"))
       && (String.length (str_of (old !!! "name")) <? String.length (str_of (new !!! "name")))%nat
    then <["name" := new !!! "name"]> old else old in
  (* link: update if old empty *)
  let old :=
    if negb (Str.truthy (str_of (old !!! "link"))) && Str.truthy (str_of (new !!! "link"))
    then <["link" := new !!! "link"]> old else old in
  (* fields that are refreshed if new provides data *)
  let old := foldl (refresh new) old updatable in
  (* subjects: union *)
  let subs := _dedupe_list (map canonicalize_subject
                (_ensure_list (get old "sub" VNone) ++ _ensure_list (get new "sub" VNone))) in
  let subs := match subs with [] => ["Uncategorized"] | _ => subs end in
  <["sub" := VList (map VStr subs)]> old.

(** ** Key builder *)

(** [build_match_keys]: (link_key, exact_name_key, series_key) *)
Definition build_match_keys (e : entry) : string * string * string :=
  let link := _safe_str (get e "link" (VStr "")) in
  let link_key := if Str.truthy link then Str.strip (Str.lower link) else "" in
  let exact := _norm_key_exact (get e "name" (VStr "")) in
  let series := _norm_key_series (get e "name" (VStr "")) in
  (link_key, exact, series).

(** ** Catalog index and resolution engine *)

(** [idx.setdefault(k, i)] *)
Definition setdefault (idx : gmap string nat) (k : string) (i : nat) : gmap string nat :=
  match idx !! k with
  | Some _ => idx
  | None => <[k := i]> idx
  end.

(** The three guarded [setdefault] calls both [build_index] and
    [merge_update] make for a record at position [i]. *)
Definition register (idx : gmap string nat) (keys : string * string * string) (i : nat)
  : gmap string nat :=
  let '(link_key, exact, series) := keys in
  let idx := if Str.truthy link_key then setdefault idx ("L:" +:+ link_key) i else idx in
  let idx := if Str.truthy exact then setdefault idx ("N:" +:+ exact) i else idx in
  let idx := if Str.truthy series then setdefault idx ("S:" +:+ series) i else idx in
  idx.

(** [build_index]: the loop over [enumerate(existing)] from position [i]. *)
Fixpoint build_index_from (i : nat) (existing : list entry) (idx : gmap string nat)
  : gmap string nat :=
  match existing with
  | [] => idx
  | e :: es => build_index_from (S i) es (register idx (build_match_keys e) i)
  end.

Definition build_index (existing : list entry) : gmap string nat :=
  build_index_from 0 existing ∅.

(** The [if]/[elif] chain of [merge_update] that sets [hit]. *)
Definition find_hit (idx : gmap string nat) (keys : string * string * string)
  : option nat :=
  let '(link_key, exact, series) := keys in
  if Str.truthy link_key && bool_decide (is_Some (idx !! ("L:" +:+ link_key)))
  then idx !! ("L:" +:+ link_key)
  else if Str.truthy exact && bool_decide (is_Some (idx !! ("N:" +:+ exact)))
  then idx !! ("N:" +:+ exact)
  else if Str.truthy series && bool_decide (is_Some (idx !! ("S:" +:+ series)))
  then idx !! ("S:" +:+ series)
  else None.

(** The state of the loop of [merge_update]: the catalog and the index. *)
Abbreviation catalog := (list (gmap string value) * gmap string nat)%type.

(** One turn of the loop of [merge_update].  [None]: the IndexError of
    [existing[hit]] for a position outside the catalog. *)
Definition merge_one (st : catalog) (ne : entry) : option catalog :=
  let '(existing, idx) := st in
  let ne2 := normalize_entry_fields ne in
  match find_hit idx (build_match_keys ne2) with
  | None =>
      let existing := existing ++ [ne2] in
      let new_i := (length existing - 1)%nat in
      (* update index with new entry keys *)
      Some (existing, register idx (build_match_keys ne2) new_i)
  | Some hit =>
      match existing !! hit with
      | Some e => Some (<[hit := merge_entries e ne2]> existing, idx)
      | None => None
      end
  end.

Fixpoint merge_loop (st : catalog) (new_entries : list entry) : option catalog :=
  match new_entries with
  | [] => Some st
  | ne :: nes =>
      match merge_one st ne with
      | Some st' => merge_loop st' nes
      | None => None
      end
  end.

(** [merge_update] *)
Definition merge_update (existing new_entries : list entry) : option (list entry) :=
  let existing := map normalize_entry_fields existing in
  let idx := build_index existing in
  option_map fst (merge_loop (existing, idx) new_entries).

(** ** Ordering stage *)

(** [sorted(l, key=key)] with the keys compared by [lt]: stable, so it is the
    list a stable insertion from the right builds. *)
Fixpoint insert_by {A K : Type} (lt : K -> K -> bool) (key : A -> K) (x : A) (l : list A)
  : list A :=
  match l with
  | [] => [x]
  | y :: l' => if lt (key y) (key x) then y :: insert_by lt key x l' else x :: l
  end.

Definition sorted {A K : Type} (lt : K -> K -> bool) (key : A -> K) (l : list A) : list A :=
  foldr (insert_by lt key) [] l.

(** [s.replace("Z", "+00:00")] *)
Fixpoint replace_Z (s : string) : string :=
  match s with
  | EmptyString => EmptyString
  | String c s' => if Ascii.eqb c "Z" then "+00:00" +:+ replace_Z s' else String c (replace_Z s')
  end.

(** The key of [sort_output]: a flag, a timestamp and a name.  A timestamp is
    a Python float; the finite floats are rationals and compare as such. *)
Abbreviation sort_key := (nat * Q * string)%type.

(** [a < b] on the key tuples: the first component that differs decides. *)
Definition key_lt (a b : sort_key) : bool :=
  let '(f1, t1, n1) := a in
  let '(f2, t2, n2) := b in
  if negb (f1 =? f2)%nat then (f1 <? f2)%nat
  else if negb (Qeq_bool t1 t2) then negb (Qle_bool t2 t1)
  else String.ltb n1 n2.

Section Ordering.

(** [datetime.fromisoformat(s).timestamp()], [None] when it raises.  The
    strings [fromisoformat] accepts differ between Python versions. *)
Variable fromisoformat_timestamp : string -> option Q.

(** [dt.timestamp()] of the naive midnight of a date, [None] when it
    raises.  It depends on the time zone of the process. *)
Variable naive_timestamp : Date.date -> option Q.

(** [_ts] of [sort_output] *)
Definition _ts (s : string) : option Q :=
  let s := _safe_str (VStr s) in
  if Str.is_empty s then None
  else
    (* ISO first *)
    match fromisoformat_timestamp (replace_Z s) with
    | Some t => Some t
    | None =>
        (* human "Mon DD YYYY" *)
        match Date.strptime s "%b %d %Y" with
        | Some dt => naive_timestamp dt
        | None => None
        end
    end.

(** [_key] of [sort_output] *)
Definition _key (e : entry) : sort_key :=
  match _ts (_safe_str (get e "Submission Deadline" VNone)) with
  | None => (1%nat, inject_Z (9 * 10 ^ 18), Str.lower (_safe_str (get e "name" VNone)))
  | Some ts => (0%nat, ts, Str.lower (_safe_str (get e "name" VNone)))
  end.

(** [sort_output] *)
Definition sort_output (entries : list entry) : list entry :=
  sorted key_lt _key entries.

End Ordering.

(** Two instances of the parameters of the ordering stage, for a process
    whose time zone is UTC. *)
Module Utc.

(** Days from 1970-01-01 to a date of the proleptic Gregorian calendar. *)
Definition days_from_civil (d : Date.date) : Z :=
  let y := (Z.of_nat (Date.year d) - (if (Date.month d <=? 2)%nat then 1 else 0))%Z in
  let m := Z.of_nat (Date.month d) in
  let era := (y / 400)%Z in
  let yoe := (y - era * 400)%Z in
  let doy := ((153 * (if (m >? 2)%Z then m - 3 else m + 9) + 2) / 5
              + Z.of_nat (Date.day d) - 1)%Z in
  let doe := (yoe * 365 + yoe / 4 - yoe / 100 + doy)%Z in
  (era * 146097 + doe - 719468)%Z.

Definition naive_timestamp (d : Date.date) : option Q :=
  Some (inject_Z (days_from_civil d * 86400)).

(** The timestamps of the strings [_deadline_to_iso] writes,
    [YYYY-MM-DDTHH:MM:SS+HH:MM] with either sign; any other string is
    rejected. *)
Definition iso_pattern : regex :=
  seq [Grp "Y" (seq [digit; digit; digit; digit]); chr "-";
       Grp "m" (seq [digit; digit]); chr "-"; Grp "d" (seq [digit; digit]);
       chr "T"; Grp "H" (seq [digit; digit]); chr ":"; Grp "M" (seq [digit; digit]);
       chr ":"; Grp "S" (seq [digit; digit]);
       Grp "s" (Alt (chr "+") (chr "-")); Grp "h" (seq [digit; digit]); chr ":";
       Grp "i" (seq [digit; digit])].

Definition fromisoformat_timestamp (s : string) : option Q :=
  match re_match iso_pattern s with
  | None => None
  | Some m =>
      let d := Date.MkDate (Date.field "Y" 0 m) (Date.field "m" 0 m) (Date.field "d" 0 m) in
      let hh := Date.field "H" 0 m in
      let mm := Date.field "M" 0 m in
      let ss := Date.field "S" 0 m in
      let oh := Date.field "h" 0 m in
      let om := Date.field "i" 0 m in
      if Str.is_empty (rest m) && Date.valid d
         && (hh <? 24)%nat && (mm <? 60)%nat && (ss <? 60)%nat
         && (oh <? 24)%nat && (om <? 60)%nat
      then
        let off := (Z.of_nat (oh * 3600 + om * 60)
                    * (if String.eqb (group "s" m) "-" then -1 else 1))%Z in
        Some (inject_Z (days_from_civil d * 86400
                        + Z.of_nat (hh * 3600 + mm * 60 + ss) - off))
      else None
  end.

End Utc.

(** ** The sources: deadlines and date ranges of ccf-deadlines *)

Module Upper.

(** [str.upper] on one character of U+0000..U+00FF.  The upper case of
    U+00DF is two characters; the upper cases of U+00B5 and U+00FF lie
    outside the range, [None] stands for them. *)
Definition char (c : ascii) : option string :=
  if Chars.in_range 97 122 c then Some (String (ascii_of_N (Chars.code c - 32)) EmptyString)
  else if Chars.is_code 223 c then Some "SS"
  else if Chars.is_code 181 c || Chars.is_code 255 c then None
  else if Chars.in_range 224 254 c && negb (Chars.is_code 247 c)
       then Some (String (ascii_of_N (Chars.code c - 32)) EmptyString)
  else Some (String c EmptyString).

(** [s.upper()], [None] when it has a character outside the range. *)
Fixpoint upper (s : string) : option string :=
  match s with
  | EmptyString => Some EmptyString
  | String c s' =>
      match char c, upper s' with
      | Some u, Some us => Some (u +:+ us)
      | _, _ => None
      end
  end.

(** [s.upper() == t] for a [t] of the range. *)
Definition upper_is (s t : string) : bool :=
  match upper s with
  | Some u => String.eqb u t
  | None => false
  end.

End Upper.

(** [^UTC([+-])(\d{1,2})$] *)
Definition utc_offset : regex :=
  seq [Bos; lit "UTC"; Grp "1" (Alt (chr "+") (chr "-"));
       Grp "2" (Cat digit (opt digit)); Eos].

(** [_tz_to_offset]: the hours of the offset of the time zone it returns,
    0 for [timezone.utc]; [None] is the ValueError of [timezone] for an
    offset that is not strictly between -24 and 24 hours. *)
Definition _tz_to_offset (tz_str : value) : option Z :=
  let s := _safe_str tz_str in
  if negb (Str.truthy s) then Some 0%Z
  else if String.eqb (Str.lower s) "aoe" then Some (-12)%Z
  else if Upper.upper_is s "UTC" then Some 0%Z
  else
    match match Upper.upper s with
          | Some u => re_match utc_offset u
          | None => None
          end with
    | Some m =>
        let sign := if String.eqb (group "1" m) "+" then 1%Z else (-1)%Z in
        let hours := Z.of_nat (Date.int (group "2" m)) in
        if (Z.abs (sign * hours) <? 24)%Z then Some (sign * hours)%Z else None
    | None => Some 0%Z
    end.

Module DateTime.

Record datetime : Type :=
  MkDateTime { date_of : Date.date; hour : nat; minute : nat; second : nat }.

(** The directives of [TimeRE] of the format of [_deadline_to_iso]. *)
Definition directive (c : ascii) : option regex :=
  if Ascii.eqb c "H" then
    (* 2[0-3]|[0-1]\d|\d *)
    Some (Grp "H" (alts [Cat (chr "2") (Date.range 48 51); Cat (Date.range 48 49) digit;
                         digit]))
  else if Ascii.eqb c "M" then
    (* [0-5]\d|\d *)
    Some (Grp "M" (alts [Cat (Date.range 48 53) digit; digit]))
  else if Ascii.eqb c "S" then
    (* 6[0-1]|[0-5]\d|\d *)
    Some (Grp "S" (alts [Cat (chr "6") (Date.range 48 49); Cat (Date.range 48 53) digit;
                         digit]))
  else Date.directive c.

(** [TimeRE.pattern], as [Date.pattern], with the directives above. *)
Fixpoint pattern (in_ws : bool) (fmt : string) : option (list regex) :=
  match fmt with
  | EmptyString => Some []
  | String c fmt' =>
      if Chars.isspace c then
        if in_ws then pattern true fmt'
        else option_map (cons (plus ws)) (pattern true fmt')
      else if Ascii.eqb c "%" then
        match fmt' with
        | String d fmt'' =>
            match directive d, pattern false fmt'' with
            | Some r, Some l => Some (r :: l)
            | _, _ => None
            end
        | EmptyString => None
        end
      else option_map (cons (chr_i c)) (pattern false fmt')
  end.

(** What the constructor [datetime] accepts. *)
Definition valid (dt : datetime) : bool :=
  (Date.valid (date_of dt) && (hour dt <? 24) && (minute dt <? 60) && (second dt <? 60))%nat.

(** [datetime.strptime(s, fmt)] with the time of the day; [None] is
    ValueError. *)
Definition strptime (s : string) (fmt : string) : option datetime :=
  match pattern false fmt with
  | None => None
  | Some rs =>
      match re_match (seq rs) s with
      | None => None
      | Some m =>
          if negb (Str.is_empty (rest m)) then None
          else
            let dt := MkDateTime
                        (Date.MkDate (Date.field "Y" 1900 m) (Date.month_field m)
                                     (Date.field "d" 1 m))
                        (Date.field "H" 0 m) (Date.field "M" 0 m) (Date.field "S" 0 m) in
            if valid dt then Some dt else None
      end
  end.

(** [dt.replace(tzinfo=tz).isoformat()] for a time zone of a whole number
    [offset] of hours. *)
Definition isoformat (dt : datetime) (offset : Z) : string :=
  Date.four_digits (Date.year (date_of dt)) +:+ "-"
  +:+ Date.two_digits (Date.month (date_of dt)) +:+ "-"
  +:+ Date.two_digits (Date.day (date_of dt)) +:+ "T"
  +:+ Date.two_digits (hour dt) +:+ ":" +:+ Date.two_digits (minute dt) +:+ ":"
  +:+ Date.two_digits (second dt)
  +:+ (if (offset <? 0)%Z then "-" else "+")
  +:+ Date.two_digits (Z.to_nat (Z.abs offset)) +:+ ":00".

End DateTime.

(** [_deadline_to_iso]: [None] is the ValueError of [_tz_to_offset], which
    is raised outside the [try]. *)
Definition _deadline_to_iso (deadline tz_str : value) : option string :=
  let ds := _safe_str deadline in
  if negb (Str.truthy ds) || Upper.upper_is ds "TBD" then Some ""
  else
    match _tz_to_offset tz_str with
    | None => None
    | Some tz =>
        match DateTime.strptime ds "%Y-%m-%d %H:%M:%S" with
        | Some dt => Some (DateTime.isoformat dt tz)
        | None => Some ds   (* fallback: keep raw *)
        end
    end.

(** [_MONTH_MAP], in the order of the dict. *)
Definition _MONTH_MAP : list (string * string) :=
  [("Jan", "January"); ("Feb", "February"); ("Mar", "March"); ("Apr", "April");
   ("May", "May"); ("Jun", "June"); ("Jul", "July"); ("Aug", "August");
   ("Sep", "September"); ("Sept", "September"); ("Oct", "October");
   ("Nov", "November"); ("Dec", "December")].

(** [[A-Za-z]] *)
Definition letter : regex :=
  Chr (fun c => Chars.in_range 65 90 c || Chars.in_range 97 122 c).

(** [s.split("-", 1)] of a string with a hyphen: the text before the first
    hyphen and the text behind it. *)
Fixpoint split_hyphen (s : string) : string * string :=
  match s with
  | EmptyString => (EmptyString, EmptyString)
  | String c s' =>
      if Ascii.eqb c "-" then (EmptyString, s')
      else let '(l, r) := split_hyphen s' in (String c l, r)
  end.

(** [_parse_ccf_date_range]; [year] is an [int], written in decimal where
    it is put into a pattern or a string. *)
Definition _parse_ccf_date_range (date_str : value) (year : Z) : string * string :=
  let s := _safe_str date_str in
  if negb (Str.truthy s) then ("", "")
  else
    (* remove trailing year *)
    let s := re_sub (seq [chr ","; Star ws; lit (pretty year); WordB]) "" s in
    let s := Str.strip (re_sub (seq [WordB; lit (pretty year); WordB]) "" s) in
    (* normalize month abbreviations *)
    let s := foldl (fun s '(abbr, full) => re_sub (seq [WordB; lit abbr; WordB]) full s)
                   s _MONTH_MAP in
    if negb (Py.contains_char "-" s) then
      match Date.strptime (s +:+ ", " +:+ pretty year) "%B %d, %Y" with
      | Some dt => let d := Date.strftime_b_d_Y dt in (d, d)
      | None => ("", "")
      end
    else
      let '(left_part, right_part) := split_hyphen s in
      let left_part := Str.strip left_part in
      let right_part := Str.strip right_part in
      let has_month_in_right :=
        bool_decide (is_Some (re_search (seq [WordB; plus letter; WordB]) right_part)) in
      let right_part :=
        if negb has_month_in_right then
          match re_match (seq [Bos; Grp "1" (plus letter); plus ws; digit; opt digit; Eos])
                         left_part with
          | Some m => group "1" m +:+ " " +:+ right_part
          | None => right_part
          end
        else right_part in
      match Date.strptime (left_part +:+ ", " +:+ pretty year) "%B %d, %Y",
            Date.strptime (right_part +:+ ", " +:+ pretty year) "%B %d, %Y" with
      | Some dt_start, Some dt_end =>
          (Date.strftime_b_d_Y dt_start, Date.strftime_b_d_Y dt_end)
      | _, _ => ("", "")
      end.

(** ** The sources: the subject of an EasyChair call *)

(** [needle in hay] *)
Fixpoint starts_with (needle hay : string) : bool :=
  match needle, hay with
  | EmptyString, _ => true
  | String c n', String d h' => Ascii.eqb c d && starts_with n' h'
  | String _ _, EmptyString => false
  end.

Fixpoint contains (needle hay : string) : bool :=
  starts_with needle hay
  || match hay with
     | EmptyString => false
     | String _ h' => contains needle h'
     end.

(** The elements of the set [interest_terms] of [fetch_easychair_table]. *)
Definition interest_terms : list string :=
  ["5g"; "6g"; "communication"; "wireless"; "signal"; "network"; "security"; "privacy"].

(** The loop that chooses [matched]: the first term, in the order the set
    is iterated in, that occurs in [hay]; [""] when none does. *)
Fixpoint first_term (terms : list string) (hay : string) : string :=
  match terms with
  | [] => ""
  | term :: terms' => if contains term hay then term else first_term terms' hay
  end.

(** The subject [fetch_easychair_table] gives a call with the topics
    [topics_joined] and the name [name]; [None] when the call is skipped.
    [terms] is [interest_terms] in the order the set is iterated in, which
    the hashes of the strings fix anew in every run. *)
Definition easychair_subject (terms : list string) (topics_joined name : string)
  : option string :=
  let hay := Str.lower (topics_joined +:+ " " +:+ name) in
  let matched := first_term terms hay in
  if negb (Str.truthy matched) then None
  else if mem matched ["security"; "privacy"] then Some "Security & Privacy"
  else if mem matched ["network"] then Some "Network System"
  else Some "Wireless/Communication".

(** ** The run: steps 5 to 7 of [main] *)

(** The incoming records are normalized and merged into the catalog; the
    merged catalog is normalized again and sorted. *)
Definition main_merge
    (fromisoformat_timestamp : string -> option Q)
    (naive_timestamp : Date.date -> option Q)
    (existing new_entries : list entry) : option (list entry) :=
  let normalized_new := map normalize_entry_fields new_entries in
  match merge_update existing normalized_new with
  | Some merged =>
      let merged := map normalize_entry_fields merged in
      Some (sort_output fromisoformat_timestamp naive_timestamp merged)
  | None => None
  end.

(** * Properties *)

Set Warnings "-clear-no-such-hyp".

(** ** The library model against CPython

    The matcher, the character classes and [strptime] on sample texts; the
    expected results are those of CPython 3.11 ([re], [str], [datetime]). *)

(** [_YEAR_RE.sub]: a year between word boundaries. *)
Example year_pattern_samples :
  map (re_sub _YEAR_RE "#")
    ["FooConf 2026"; "A2026 x"; "(1999)"; "x 1999-2000 y"; "20266"; "2026_1"]
  =
    ["FooConf #"; "A2026 x"; "(#)"; "x #-# y"; "20266"; "2026_1"].
Proof. vm_compute. reflexivity. Qed.

(** [_CYCLE_RE.sub]: the optional dash and blanks belong to the match. *)
Example cycle_pattern_samples :
  map (re_sub _CYCLE_RE "#")
    ["FooConf Cycle 2 2026"; "x-cycle3"; "a - cycle spring!"; "cyclefall"; "Cycle 12a";
     "Bicycle 7"; "cycle  SPRING-2"]
  =
    ["FooConf# 2026"; "x#"; "a #!"; "#"; "Cycle 12a"; "Bi#"; "#-2"].
Proof. vm_compute. reflexivity. Qed.

(** A parenthetical note: the lazy repetition stops at the first closing parenthesis. *)
Example lazy_pattern_samples :
  map (re_sub paren_note "#")
    ["a(b)c(d"; "((a)b)"; "()"; "(a)(b)"; "x (AoE) y)"]
  =
    ["a#c(d"; "#b)"; "#"; "##"; "x # y)"].
Proof. vm_compute. reflexivity. Qed.

(** The phrase [in N days], in any case. *)
Example in_days_samples :
  map (re_sub in_days "#")
    ["in 5 days"; "IN  12   DAYS left"; "in 5 in 5 days days"; "within 3 days";
     "in five days"; "in 5days"]
  =
    ["#"; "# left"; "in 5 # days"; "with#"; "in five days"; "in 5days"].
Proof. vm_compute. reflexivity. Qed.

(** A trailing clock time with its optional semicolon. *)
Example clock_time_samples :
  map (re_sub clock_time "#")
    ["Jan 5 2026; 11:59 PM"; "Jan 5 2026;11:59pm"; "5:5 PM"; "123:45 am"; "12:345 AM";
     "23:59 AoE"; "at 9:00 am;"]
  =
    ["Jan 5 2026#"; "Jan 5 2026#"; "5:5 PM"; "1#"; "12:345 AM"; "23:59 AoE"; "at#;"].
Proof. vm_compute. reflexivity. Qed.

(** [re.sub] with a pattern that matches the empty string (the program has
    none): every position is replaced once. *)
Example empty_match_samples :
  (re_sub (Star (chr "x")) "-" "abxd", re_sub (opt (chr "a")) "-" "baac",
   re_sub WordB "-" "ab cd")
  = ("-a-b--d-", "-b---c-", "-ab- -cd-").
Proof. vm_compute. reflexivity. Qed.

(** [re.match] of the label pattern: the greedy group runs to the last parenthesis. *)
Example ccf_label_samples :
  map (fun s => option_map (group "1") (re_match ccf_label s))
    ["CCF NW (Network System)"; "ccf  nw(Network (x) System)"; "CCF A (CCF B ((C)))";
     "CCF (x)"; "CCFA (x)"; "CCF A_1 (x) "; "CCF A ()"; "CCF A (x)y"]
  =
    [Some "Network System"; Some "Network (x) System"; Some "CCF B ((C))"; None; None;
     None; None; None].
Proof. vm_compute. reflexivity. Qed.

(** [re.search] of the trailing parenthetical. *)
Example trailing_paren_samples :
  map (fun s => option_map (group "1") (re_search trailing_paren s))
    ["x (a) "; "x (a)b"; "x ((a))"; "(a) (b)"; "CCF B ((C))"; "a (b"]
  =
    [Some "a"; None; None; Some "b"; None; None].
Proof. vm_compute. reflexivity. Qed.

(** [datetime.strptime] with the format [%b %d %Y]. *)
Example strptime_samples_1 :
  map (fun s => Date.strptime s "%b %d %Y")
    ["Jan 5 2026"; "jan 05 2026"; "JANUARY 5 2026"; "January 5, 2026"; "Sept 3 2026";
     "Feb 29 2024"; "Feb 29 2023"; "2026-1-5"; "2026-13-01"; "0000-01-01";
     "Mar 1 20260"; "Mar 1  2026"; "Jun 31 2026"]
  =
    [Some (Date.MkDate 2026 1 5); Some (Date.MkDate 2026 1 5); None; None; None;
     Some (Date.MkDate 2024 2 29); None; None; None; None; None;
     Some (Date.MkDate 2026 3 1); None].
Proof. vm_compute. reflexivity. Qed.

(** [datetime.strptime] with the format [%B %d, %Y]. *)
Example strptime_samples_2 :
  map (fun s => Date.strptime s "%B %d, %Y")
    ["Jan 5 2026"; "jan 05 2026"; "JANUARY 5 2026"; "January 5, 2026"; "Sept 3 2026";
     "Feb 29 2024"; "Feb 29 2023"; "2026-1-5"; "2026-13-01"; "0000-01-01";
     "Mar 1 20260"; "Mar 1  2026"; "Jun 31 2026"]
  =
    [None; None; None; Some (Date.MkDate 2026 1 5); None; None; None; None; None; None;
     None; None; None].
Proof. vm_compute. reflexivity. Qed.

(** [datetime.strptime] with the format [%Y-%m-%d]. *)
Example strptime_samples_3 :
  map (fun s => Date.strptime s "%Y-%m-%d")
    ["Jan 5 2026"; "jan 05 2026"; "JANUARY 5 2026"; "January 5, 2026"; "Sept 3 2026";
     "Feb 29 2024"; "Feb 29 2023"; "2026-1-5"; "2026-13-01"; "0000-01-01";
     "Mar 1 20260"; "Mar 1  2026"; "Jun 31 2026"]
  =
    [None; None; None; None; None; None; None; Some (Date.MkDate 2026 1 5); None; None;
     None; None; None].
Proof. vm_compute. reflexivity. Qed.

Definition schema : list string :=
  ["name"; "sub"; "Location"; "Start Date"; "End Date"; "Abstract Deadline";
   "Submission Deadline"; "Notification"; "link"].

Definition date_fields : list string :=
  ["Start Date"; "End Date"; "Abstract Deadline"; "Submission Deadline"; "Notification"].

Definition text_fields : list string :=
  ["name"; "Location"; "Start Date"; "End Date"; "Abstract Deadline";
   "Submission Deadline"; "Notification"; "link"].

(** What [normalize_entry_fields] makes of the value [v] of the field [k]. *)
Definition norm_value (k : string) (v : value) : string :=
  if mem k date_fields then _clean_deadline_human (VStr (_norm_space v))
  else _norm_space v.

Lemma clean_at_lookup_ne k k' (out : entry) : k ≠ k' → clean_at k out !! k' = out !! k'.
Proof. intros Hne. unfold clean_at. by rewrite lookup_insert_ne. Qed.

Lemma clean_at_lookup_eq k (out : entry) :
  clean_at k out !! k = Some (VStr (_clean_deadline_human (default VNone (out !! k)))).
Proof. unfold clean_at. by rewrite lookup_insert_eq, lookup_total_alt. Qed.

Lemma normalize_entry_subjects_lookup_ne k (e : entry) :
  k ≠ "sub" → normalize_entry_subjects e !! k = e !! k.
Proof. intros Hne. unfold normalize_entry_subjects. by rewrite lookup_insert_ne. Qed.

Ltac split_elem H :=
  repeat (apply elem_of_cons in H as [-> | H]); [.. | by apply elem_of_nil in H].

Ltac norm_lookup :=
  repeat first
    [ rewrite clean_at_lookup_eq
    | rewrite clean_at_lookup_ne by done
    | rewrite lookup_insert_eq
    | rewrite lookup_insert_ne by done ].

Lemma normalize_lookup_text (e : entry) k :
  k ∈ text_fields →
  normalize_entry_fields e !! k = Some (VStr (norm_value k (get e k (VStr "")))).
Proof.
  intros Hk. unfold normalize_entry_fields.
  cbn [list_to_map foldr uncurry fst snd].
  split_elem Hk; (rewrite normalize_entry_subjects_lookup_ne by done);
    norm_lookup; reflexivity.
Qed.

Lemma normalize_dom (e : entry) :
  dom (normalize_entry_fields e) = list_to_set schema.
Proof.
  unfold normalize_entry_fields, normalize_entry_subjects, clean_at.
  rewrite !dom_insert_L, dom_list_to_map_L. cbn [fmap list_fmap fst schema list_to_set].
  set_solver.
Qed.

Lemma normalize_lookup_sub (e : entry) :
  ∃ subs, normalize_entry_fields e !! "sub" = Some (VList (map VStr subs)).
Proof.
  unfold normalize_entry_fields, normalize_entry_subjects.
  eexists. by rewrite lookup_insert_eq.
Qed.

(** ** The merge policy, field by field *)

Lemma refresh_lookup_ne (new old : entry) k k' :
  k ≠ k' → refresh new old k !! k' = old !! k'.
Proof.
  intros Hne. unfold refresh.
  destruct (Str.truthy _); [|done].
  destruct (_ || _); [|done]. by rewrite lookup_insert_ne.
Qed.

Lemma refresh_lookup_same (new old old' : entry) k :
  old !! k = old' !! k → refresh new old k !! k = refresh new old' k !! k.
Proof.
  intros Heq. unfold refresh, get. rewrite Heq.
  destruct (Str.truthy _); [|done].
  destruct (_ || _); [|done]. by rewrite !lookup_insert_eq.
Qed.

Lemma refresh_dom (new old : entry) k :
  k ∈ dom old → dom (refresh new old k) = dom old.
Proof.
  intros Hk. unfold refresh.
  destruct (Str.truthy _); [|done].
  destruct (_ || _); [|done]. rewrite dom_insert_L. set_solver.
Qed.

Lemma foldl_refresh_lookup_notin (new : entry) ks (old : entry) k :
  k ∉ ks → foldl (refresh new) old ks !! k = old !! k.
Proof.
  revert old. induction ks as [|k' ks IH]; intros old Hk; [done|].
  apply not_elem_of_cons in Hk as [Hne Hk]. cbn [foldl].
  rewrite IH by done. by apply refresh_lookup_ne.
Qed.

Lemma foldl_refresh_lookup_in (new : entry) ks (old : entry) k :
  NoDup ks → k ∈ ks → foldl (refresh new) old ks !! k = refresh new old k !! k.
Proof.
  revert old. induction ks as [|k' ks IH]; intros old Hnd Hk.
  - by apply elem_of_nil in Hk.
  - apply NoDup_cons in Hnd as [Hk' Hnd]. cbn [foldl].
    apply elem_of_cons in Hk as [-> | Hk].
    + by rewrite foldl_refresh_lookup_notin.
    + rewrite IH by done. apply refresh_lookup_same, refresh_lookup_ne.
      intros ->. contradiction.
Qed.

Lemma foldl_refresh_dom (new : entry) ks (old : entry) :
  (∀ k, k ∈ ks → k ∈ dom old) → dom (foldl (refresh new) old ks) = dom old.
Proof.
  revert old. induction ks as [|k ks IH]; intros old Hks; [done|].
  cbn [foldl]. rewrite IH.
  - apply refresh_dom, Hks. set_solver.
  - intros k' Hk'. rewrite refresh_dom by (apply Hks; set_solver).
    apply Hks. set_solver.
Qed.

(** The string [refresh] leaves at [k]: the new one when it is not empty. *)
Lemma refresh_lookup_eq (new old : entry) k ov nv :
  old !! k = Some (VStr ov) → new !! k = Some (VStr nv) →
  refresh new old k !! k = Some (VStr (if Str.truthy nv then nv else ov)).
Proof.
  intros Ho Hn. unfold refresh, get. rewrite Ho, Hn. cbn [default from_option id str_of].
  destruct (Str.truthy nv) eqn:Hnv; [|done].
  destruct (negb (Str.truthy ov) || negb (String.eqb ov nv)) eqn:Hc.
  - by rewrite lookup_insert_eq.
  - apply orb_false_iff in Hc as [_ Hc]. apply negb_false_iff, String.eqb_eq in Hc.
    by rewrite <- Hc.
Qed.

Lemma updatable_NoDup : NoDup updatable.
Proof. unfold updatable. repeat (apply NoDup_cons; split; [set_solver|]). apply NoDup_nil_2. Qed.

Lemma updatable_text k : k ∈ updatable → k ∈ text_fields.
Proof. unfold updatable, text_fields. set_solver. Qed.

Lemma lookup_if_insert_ne (b : bool) k k' v (m : entry) :
  k ≠ k' → (if b then <[k := v]> m else m) !! k' = m !! k'.
Proof. intros Hne. destruct b; [by rewrite lookup_insert_ne | done]. Qed.

Lemma dom_if_insert (b : bool) k v (m : entry) :
  k ∈ dom m → dom (if b then <[k := v]> m else m) = dom m.
Proof. intros Hk. destruct b; [|done]. rewrite dom_insert_L. set_solver. Qed.

(** Every updatable field of the merged record: the re-normalized new value
    when that is not empty, the re-normalized old value otherwise. *)
Lemma merge_entries_updatable (old new : entry) k :
  k ∈ updatable →
  merge_entries old new !! k =
    Some (VStr (let nv := norm_value k (get new k (VStr "")) in
                if Str.truthy nv then nv else norm_value k (get old k (VStr "")))).
Proof.
  intros Hk. unfold merge_entries.
  assert (k ≠ "sub" ∧ k ≠ "name" ∧ k ≠ "link") as (Hs & Hn & Hl).
  { unfold updatable in Hk. split_elem Hk; done. }
  rewrite lookup_insert_ne by done.
  rewrite foldl_refresh_lookup_in by (done || apply updatable_NoDup).
  apply refresh_lookup_eq.
  - rewrite !lookup_if_insert_ne by done.
    by apply normalize_lookup_text, updatable_text.
  - by apply normalize_lookup_text, updatable_text.
Qed.

Lemma text_name : "name" ∈ text_fields.
Proof. unfold text_fields. set_solver. Qed.

Lemma text_link : "link" ∈ text_fields.
Proof. unfold text_fields. set_solver. Qed.

Lemma merge_entries_name (old new : entry) :
  merge_entries old new !! "name" =
    Some (VStr (let nn := _norm_space (get new "name" (VStr "")) in
                let on := _norm_space (get old "name" (VStr "")) in
                if Str.truthy nn && (String.length on <? String.length nn)%nat
                then nn else on)).
Proof.
  unfold merge_entries.
  rewrite lookup_insert_ne by done.
  rewrite foldl_refresh_lookup_notin by (unfold updatable; set_solver).
  rewrite lookup_if_insert_ne by done.
  rewrite !lookup_total_alt, !(normalize_lookup_text _ "name") by apply text_name.
  cbn [default from_option id str_of]. 
  change (norm_value "name") with _norm_space. cbv zeta.
  destruct (_ && _); [by rewrite lookup_insert_eq|].
  by rewrite (normalize_lookup_text _ "name") by apply text_name.
Qed.

Lemma schema_in_dom (e : entry) k : k ∈ schema → k ∈ dom (normalize_entry_fields e).
Proof. intros Hk. rewrite normalize_dom. by apply elem_of_list_to_set. Qed.

Lemma dom_name_link (e : entry) (b1 b2 : bool) v1 v2 :
  dom (if b2 then <["link" := v2]> (if b1 then <["name" := v1]> (normalize_entry_fields e)
                                    else normalize_entry_fields e)
       else if b1 then <["name" := v1]> (normalize_entry_fields e)
            else normalize_entry_fields e) = list_to_set schema.
Proof.
  destruct b1, b2; rewrite ?dom_insert_L, normalize_dom; unfold schema; set_solver.
Qed.

Lemma merge_entries_dom (old new : entry) :
  dom (merge_entries old new) = list_to_set schema.
Proof.
  unfold merge_entries.
  rewrite dom_insert_L, foldl_refresh_dom, dom_name_link.
  - unfold schema. set_solver.
  - intros k Hk. rewrite dom_name_link. apply elem_of_list_to_set.
    unfold schema, updatable in *. set_solver.
Qed.

(** ** The resolution engine *)

Arguments normalize_entry_fields : simpl never.
Arguments merge_entries : simpl never.
Arguments build_match_keys : simpl never.
Arguments find_hit : simpl never.
Arguments register : simpl never.

(** Every position the index holds is a position of the catalog. *)
Definition index_ok (st : catalog) : Prop :=
  ∀ k i, st.2 !! k = Some i → (i < length st.1)%nat.

Lemma setdefault_lookup (idx : gmap string nat) k i k' j :
  setdefault idx k i !! k' = Some j → idx !! k' = Some j ∨ j = i.
Proof.
  unfold setdefault. destruct (idx !! k) eqn:Hk; [by left|].
  destruct (decide (k = k')) as [-> | Hne].
  - rewrite lookup_insert_eq. intros [= ->]. by right.
  - rewrite lookup_insert_ne by done. by left.
Qed.

Lemma setdefault_keeps (idx : gmap string nat) k i k' j :
  idx !! k' = Some j → setdefault idx k i !! k' = Some j.
Proof.
  intros Hj. unfold setdefault. destruct (idx !! k) eqn:Hk; [done|].
  rewrite lookup_insert_ne; [done|]. intros ->. congruence.
Qed.

Lemma register_lookup (idx : gmap string nat) keys i k j :
  register idx keys i !! k = Some j → idx !! k = Some j ∨ j = i.
Proof.
  destruct keys as [[lk ex] se]. unfold register.
  destruct (Str.truthy lk), (Str.truthy ex), (Str.truthy se); intros H;
    repeat (apply setdefault_lookup in H as [H | ->]; [|by right]); by left.
Qed.

(** First writer wins: a key the index holds keeps its position. *)
Lemma register_keeps (idx : gmap string nat) keys i k j :
  idx !! k = Some j → register idx keys i !! k = Some j.
Proof.
  destruct keys as [[lk ex] se]. unfold register. intros H.
  destruct (Str.truthy lk), (Str.truthy ex), (Str.truthy se);
    repeat apply setdefault_keeps; done.
Qed.

Lemma build_index_from_bound i (existing : list entry) (idx : gmap string nat) :
  (∀ k j, idx !! k = Some j → (j < i)%nat) →
  ∀ k j, build_index_from i existing idx !! k = Some j → (j < i + length existing)%nat.
Proof.
  revert i idx. induction existing as [|e es IH]; intros i idx Hidx k j Hk.
  - cbn [build_index_from] in Hk. apply Hidx in Hk. lia.
  - cbn [build_index_from length] in *.
    apply IH in Hk; [lia|]. intros k' j' Hk'.
    apply register_lookup in Hk' as [Hk' | ->]; [apply Hidx in Hk'|]; lia.
Qed.

Lemma build_index_ok (existing : list entry) : index_ok (existing, build_index existing).
Proof.
  intros k i Hk. cbn [fst snd] in *. unfold build_index in Hk.
  apply build_index_from_bound in Hk; [lia|]. intros k' j. by rewrite lookup_empty.
Qed.

(** The position [find_hit] returns is one the index holds. *)
Lemma find_hit_lookup (idx : gmap string nat) keys hit :
  find_hit idx keys = Some hit → ∃ k, idx !! k = Some hit.
Proof.
  destruct keys as [[lk ex] se]. unfold find_hit.
  repeat (destruct (_ && _); [eauto|]). done.
Qed.

Lemma merge_one_hit (existing : list entry) (idx : gmap string nat) (ne : entry) a ea :
  find_hit idx (build_match_keys (normalize_entry_fields ne)) = Some a →
  existing !! a = Some ea →
  merge_one (existing, idx) ne
  = Some (<[a := merge_entries ea (normalize_entry_fields ne)]> existing, idx).
Proof. intros Hhit Ha. unfold merge_one. cbv zeta. by rewrite Hhit, Ha. Qed.

Lemma merge_one_miss (existing : list entry) (idx : gmap string nat) (ne : entry) :
  find_hit idx (build_match_keys (normalize_entry_fields ne)) = None →
  merge_one (existing, idx) ne
  = Some (existing ++ [normalize_entry_fields ne],
          register idx (build_match_keys (normalize_entry_fields ne)) (length existing)).
Proof.
  intros Hhit. unfold merge_one. cbv zeta. rewrite Hhit.
  rewrite length_app. cbn [length].
  by replace (length existing + 1 - 1)%nat with (length existing) by lia.
Qed.

(** One turn of the loop: it raises nothing, keeps the index sound and every
    slot either as it was or merged with the incoming record. *)
Lemma merge_one_spec (st : catalog) (ne : entry) :
  index_ok st →
  ∃ st', merge_one st ne = Some st' ∧ index_ok st'
         ∧ (length st.1 ≤ length st'.1)%nat
         ∧ ∀ i e, st.1 !! i = Some e →
             st'.1 !! i = Some e
             ∨ st'.1 !! i = Some (merge_entries e (normalize_entry_fields ne)).
Proof.
  destruct st as [existing idx]. intros Hok.
  destruct (find_hit idx (build_match_keys (normalize_entry_fields ne)))
    as [hit|] eqn:Hhit.
  - destruct (find_hit_lookup _ _ _ Hhit) as [k Hk]. apply Hok in Hk. cbn [fst snd] in Hk.
    destruct (lookup_lt_is_Some_2 existing hit Hk) as [e He].
    eexists. split; [by apply merge_one_hit|]. cbn [fst snd]. split; [|split].
    + intros k' i Hk'. cbn [fst snd] in *. rewrite length_insert. by apply (Hok k').
    + by rewrite length_insert.
    + intros i e' Hi. destruct (decide (i = hit)) as [-> | Hne].
      * right. rewrite list_lookup_insert_eq by done. congruence.
      * left. by rewrite list_lookup_insert_ne.
  - eexists. split; [by apply merge_one_miss|]. cbn [fst snd]. split; [|split].
    + intros k i Hk. cbn [fst snd] in *. rewrite length_app. cbn [length].
      apply register_lookup in Hk as [Hk | ->]; [apply Hok in Hk; cbn [fst snd] in Hk|]; lia.
    + rewrite length_app. lia.
    + intros i e Hi. left. by apply lookup_app_l_Some.
Qed.

Lemma merge_loop_spec (nes : list entry) (st : catalog) :
  index_ok st →
  ∃ st', merge_loop st nes = Some st' ∧ index_ok st'
         ∧ (length st.1 ≤ length st'.1)%nat
         ∧ ∀ i e, st.1 !! i = Some e →
             ∃ ms, sublist ms nes
                   ∧ st'.1 !! i = Some (foldl merge_entries e (normalize_entry_fields <$> ms)).
Proof.
  revert st. induction nes as [|ne nes IH]; intros st Hok.
  - exists st. cbn [merge_loop]. repeat split; [done..|].
    intros i e Hi. exists []. by split.
  - destruct (merge_one_spec st ne Hok) as (st1 & H1 & Hok1 & Hlen1 & Hslots1).
    destruct (IH st1 Hok1) as (st' & H' & Hok' & Hlen' & Hslots').
    exists st'. cbn [merge_loop]. rewrite H1. repeat split; [done..|lia|].
    intros i e Hi. destruct (Hslots1 i e Hi) as [Hi1 | Hi1];
      destruct (Hslots' _ _ Hi1) as (ms & Hsub & Hms).
    + exists ms. split; [by apply sublist_cons | done].
    + exists (ne :: ms). split; [by apply sublist_skip | done].
Qed.

(** [C7] Never-delete.  For every catalog and every list of incoming records,
    [merge_update] returns a catalog (it raises nothing) that is at least as
    long as the one it was given, and each position of the input holds, in
    the output, the normalized input entry merged with some of the incoming
    records, in their order of arrival. *)
Theorem merge_update_never_deletes (existing new_entries : list entry) :
  ∃ out, merge_update existing new_entries = Some out
    ∧ (length existing ≤ length out)%nat
    ∧ ∀ i e, existing !! i = Some e →
        ∃ ms, sublist ms new_entries
          ∧ out !! i = Some (foldl merge_entries (normalize_entry_fields e)
                                   (normalize_entry_fields <$> ms)).
Proof.
  unfold merge_update.
  destruct (merge_loop_spec new_entries
              (map normalize_entry_fields existing,
               build_index (map normalize_entry_fields existing))
              (build_index_ok _)) as (st' & Hloop & _ & Hlen & Hslots).
  exists st'.1. rewrite Hloop. cbn [option_map fst snd] in *.
  rewrite length_map in Hlen. repeat split; [done|].
  intros i e Hi. apply Hslots.
  change (map normalize_entry_fields existing) with (normalize_entry_fields <$> existing).
  by rewrite list_lookup_fmap, Hi.
Qed.

Definition icml_catalog : list entry :=
  [ {[ "name" := VStr "ICML" ]} ].

Definition icml_incoming : list entry :=
  [ <[ "name" := VStr "ICML" ]> {[ "link" := VStr "https://icml.cc" ]};
    <[ "name" := VStr "Intl. Conf. on Machine Learning" ]>
      {[ "link" := VStr "https://icml.cc" ]} ].

(** A run on [icml_catalog]: both the catalog and the result have a first
    entry, and the result is longer. *)
Lemma merge_update_never_deletes_witness :
  ∃ out, merge_update icml_catalog icml_incoming = Some out
    ∧ (length icml_catalog ≤ length out)%nat
    ∧ ∃ ms, sublist ms icml_incoming
        ∧ out !! 0%nat = Some (foldl merge_entries
                                 (normalize_entry_fields {[ "name" := VStr "ICML" ]})
                                 (normalize_entry_fields <$> ms)).
Proof.
  destruct (merge_update_never_deletes icml_catalog icml_incoming)
    as (out & Hout & Hlen & Hslots).
  exists out. split; [exact Hout|]. split; [exact Hlen|].
  exact (Hslots 0%nat _ eq_refl).
Defined.

(** The index entry a key of an incoming record finds: none for an empty
    key. *)
Definition probe (idx : gmap string nat) (prefix key : string) : option nat :=
  if Str.truthy key then idx !! (prefix +:+ key) else None.

Lemma find_hit_probe (idx : gmap string nat) lk ex se :
  find_hit idx (lk, ex, se) =
    match probe idx "L:" lk with
    | Some a => Some a
    | None => match probe idx "N:" ex with
              | Some b => Some b
              | None => probe idx "S:" se
              end
    end.
Proof.
  unfold find_hit, probe.
  destruct (Str.truthy lk); cbn [andb].
  - destruct (idx !! ("L:" +:+ lk)) as [a|] eqn:HL.
    + by rewrite bool_decide_eq_true_2.
    + rewrite bool_decide_eq_false_2 by (by intros [? ?]).
      destruct (Str.truthy ex); cbn [andb].
      * destruct (idx !! ("N:" +:+ ex)) as [b|] eqn:HN.
        -- by rewrite bool_decide_eq_true_2.
        -- rewrite bool_decide_eq_false_2 by (by intros [? ?]).
           destruct (Str.truthy se); cbn [andb]; [|done].
           destruct (idx !! ("S:" +:+ se)) as [c|] eqn:HS.
           ++ by rewrite bool_decide_eq_true_2.
           ++ by rewrite bool_decide_eq_false_2 by (by intros [? ?]).
      * destruct (Str.truthy se); cbn [andb]; [|done].
        destruct (idx !! ("S:" +:+ se)) as [c|] eqn:HS.
        -- by rewrite bool_decide_eq_true_2.
        -- by rewrite bool_decide_eq_false_2 by (by intros [? ?]).
  - destruct (Str.truthy ex); cbn [andb].
    + destruct (idx !! ("N:" +:+ ex)) as [b|] eqn:HN.
      * by rewrite bool_decide_eq_true_2.
      * rewrite bool_decide_eq_false_2 by (by intros [? ?]).
        destruct (Str.truthy se); cbn [andb]; [|done].
        destruct (idx !! ("S:" +:+ se)) as [c|] eqn:HS.
        -- by rewrite bool_decide_eq_true_2.
        -- by rewrite bool_decide_eq_false_2 by (by intros [? ?]).
    + destruct (Str.truthy se); cbn [andb]; [|done].
      destruct (idx !! ("S:" +:+ se)) as [c|] eqn:HS.
      * by rewrite bool_decide_eq_true_2.
      * by rewrite bool_decide_eq_false_2 by (by intros [? ?]).
Qed.

(** [C3] Matching priority.  For an incoming record with keys
    (link_key, exact, series): a non-empty link_key the index holds decides
    the slot, whatever the name keys would find; failing that a non-empty
    exact key the index holds decides, whatever the series key would find;
    failing that a non-empty series key the index holds; and the record is
    merged into the slot the first hit names, or appended when there is no
    hit. *)
Theorem first_hit_wins (existing : list entry) (idx : gmap string nat) (ne : entry)
    (lk ex se : string) :
  build_match_keys (normalize_entry_fields ne) = (lk, ex, se) →
  (∀ a ea, probe idx "L:" lk = Some a → existing !! a = Some ea →
     merge_one (existing, idx) ne
     = Some (<[a := merge_entries ea (normalize_entry_fields ne)]> existing, idx))
  ∧ (∀ b eb, probe idx "L:" lk = None → probe idx "N:" ex = Some b →
       existing !! b = Some eb →
       merge_one (existing, idx) ne
       = Some (<[b := merge_entries eb (normalize_entry_fields ne)]> existing, idx))
  ∧ (∀ c ec, probe idx "L:" lk = None → probe idx "N:" ex = None →
       probe idx "S:" se = Some c → existing !! c = Some ec →
       merge_one (existing, idx) ne
       = Some (<[c := merge_entries ec (normalize_entry_fields ne)]> existing, idx))
  ∧ (probe idx "L:" lk = None → probe idx "N:" ex = None → probe idx "S:" se = None →
       merge_one (existing, idx) ne
       = Some (existing ++ [normalize_entry_fields ne],
               register idx (lk, ex, se) (length existing))).
Proof.
  intros Hkeys. repeat split.
  - intros a ea HL Ha. apply merge_one_hit; [|done].
    by rewrite Hkeys, find_hit_probe, HL.
  - intros b eb HL HN Hb. apply merge_one_hit; [|done].
    by rewrite Hkeys, find_hit_probe, HL, HN.
  - intros c ec HL HN HS Hc. apply merge_one_hit; [|done].
    by rewrite Hkeys, find_hit_probe, HL, HN, HS.
  - intros HL HN HS. rewrite <- Hkeys. apply merge_one_miss.
    by rewrite Hkeys, find_hit_probe, HL, HN, HS.
Qed.

(** A catalog with an entry A reachable by link and an entry B reachable by
    name, and an incoming record that carries the link of A and the name of
    B. *)
Definition entry_A : entry :=
  <[ "name" := VStr "FooConf 2026" ]> {[ "link" := VStr "https://foo.example/2026" ]}.

Definition entry_B : entry :=
  <[ "name" := VStr "BarConf 2026" ]> {[ "Location" := VStr "Honolulu" ]}.

Definition incoming_AB : entry :=
  <[ "name" := VStr "BarConf 2026" ]> {[ "link" := VStr "https://foo.example/2026" ]}.

Definition catalog_AB : list entry :=
  map normalize_entry_fields [entry_A; entry_B].

(** The incoming record is merged into A (slot 0) although its name keys
    are those of B (slot 1). *)
Lemma first_hit_wins_witness :
  probe (build_index catalog_AB) "N:" "barconf 2026" = Some 1%nat
  ∧ merge_one (catalog_AB, build_index catalog_AB) incoming_AB
    = Some (<[0%nat := merge_entries (normalize_entry_fields entry_A)
                         (normalize_entry_fields incoming_AB)]> catalog_AB,
            build_index catalog_AB).
Proof.
  split; [vm_compute; reflexivity|].
  apply (proj1 (first_hit_wins catalog_AB (build_index catalog_AB) incoming_AB
                  "https://foo.example/2026" "barconf 2026" "barconf"
                  ltac:(vm_compute; reflexivity)) 0%nat).
  - vm_compute; reflexivity.
  - reflexivity.
Defined.

(** On a match the slot is replaced by the merged record and the index is
    returned as it was: the match branch of [merge_update] registers no
    key. *)
Lemma match_leaves_index (existing : list entry) (idx : gmap string nat)
    (ne : entry) (hit : nat) (st' : catalog) :
  find_hit idx (build_match_keys (normalize_entry_fields ne)) = Some hit →
  merge_one (existing, idx) ne = Some st' →
  st'.2 = idx
  ∧ ∃ e, existing !! hit = Some e
       ∧ st'.1 = <[hit := merge_entries e (normalize_entry_fields ne)]> existing.
Proof.
  intros Hhit Hone. unfold merge_one in Hone. rewrite Hhit in Hone.
  destruct (existing !! hit) as [e|] eqn:He; [|discriminate].
  injection Hone as <-. split; [reflexivity|].
  exists e. by split.
Qed.

(** The catalog and the index after the first record of [icml_incoming]. *)
Definition icml_after_first : option catalog :=
  merge_loop (map normalize_entry_fields icml_catalog,
              build_index (map normalize_entry_fields icml_catalog))
             (take 1 icml_incoming).

(** [C1] The program on [icml_catalog] and [icml_incoming].  The first
    incoming record matches the one entry by name and gives it a link: after
    that turn the catalog has one entry, its link key is "https://icml.cc",
    and the index holds no "L:https://icml.cc".  The second incoming record
    carries the same link under another name; it finds no hit and is appended,
    so the run ends with two entries.  Had the merged record's keys been
    registered, the second record would have been merged into the first
    slot. *)
Lemma merged_link_not_registered :
  (st ← icml_after_first;
   e ← st.1 !! 0%nat;
   Some (length st.1, (build_match_keys e).1.1, st.2 !! "L:https://icml.cc"))
  = Some (1%nat, "https://icml.cc", None)
  ∧ length <$> merge_update icml_catalog icml_incoming = Some 2%nat.
Proof. split; vm_compute; reflexivity. Qed.

(** [C2] As the program has it: the merged record has the nine keys of the
    schema and no other; a key of [old] outside the schema is dropped. *)
Theorem merge_entries_schema_only (old new : entry) :
  dom (merge_entries old new) = list_to_set schema
  ∧ ∀ k, k ∉ schema → merge_entries old new !! k = None.
Proof.
  split; [apply merge_entries_dom|].
  intros k Hk. apply not_elem_of_dom. rewrite merge_entries_dom.
  by rewrite elem_of_list_to_set.
Qed.

Definition ranked_entry : entry :=
  <[ "name" := VStr "ICML" ]> {[ "rank" := VStr "A*" ]}.

(** A key of [old] outside the enumeration is not kept. *)
Lemma merge_drops_other_keys :
  ranked_entry !! "rank" = Some (VStr "A*")
  ∧ merge_entries ranked_entry ∅ !! "rank" = None.
Proof. split; vm_compute; reflexivity. Qed.

Lemma merge_entries_schema_only_witness :
  merge_entries ranked_entry ∅ !! "rank" = None.
Proof.
  apply (proj2 (merge_entries_schema_only ranked_entry ∅)).
  unfold schema. set_solver.
Defined.

(** ** The ordering stage *)

Section Sorted.

Context {A K : Type} (lt : K → K → bool) (key : A → K).

(** [a] may stand before [b]: the key of [b] is not less than that of [a]. *)
Definition not_after (a b : A) : Prop := lt (key b) (key a) = false.

Hypothesis lt_asym : ∀ a b, lt a b = true → lt b a = false.
Hypothesis not_lt_trans :
  ∀ a b c, lt b a = false → lt c b = false → lt c a = false.

Lemma insert_by_perm (x : A) (l : list A) : insert_by lt key x l ≡ₚ x :: l.
Proof.
  induction l as [|y l IH]; [done|]. cbn [insert_by].
  destruct (lt (key y) (key x)); [|done].
  rewrite IH. apply perm_swap.
Qed.

Lemma sorted_perm (l : list A) : sorted lt key l ≡ₚ l.
Proof.
  induction l as [|x l IH]; [done|]. cbn [sorted foldr].
  rewrite insert_by_perm. by apply perm_skip.
Qed.

Lemma insert_by_sorted (x : A) (l : list A) :
  StronglySorted not_after l → StronglySorted not_after (insert_by lt key x l).
Proof.
  induction 1 as [|y l Hl IH Hy]; cbn [insert_by].
  - repeat constructor.
  - destruct (lt (key y) (key x)) eqn:Hyx.
    + constructor; [done|].
      rewrite insert_by_perm. constructor; [|done].
      unfold not_after. by apply lt_asym.
    + constructor; [by constructor|].
      constructor; [done|].
      eapply Forall_impl; [exact Hy|]. intros z Hz. unfold not_after in *.
      by apply (not_lt_trans _ (key y)).
Qed.

Lemma sorted_sorted (l : list A) : StronglySorted not_after (sorted lt key l).
Proof.
  induction l as [|x l IH]; [constructor|]. by apply insert_by_sorted.
Qed.

Lemma StronglySorted_lookup (R : relation A) (l : list A) i j a b :
  StronglySorted R l → (i < j)%nat → l !! i = Some a → l !! j = Some b → R a b.
Proof.
  intros Hl. revert i j. induction Hl as [|x l Hl IH Hx]; intros i j Hij Hi Hj.
  - by rewrite lookup_nil in Hi.
  - destruct j as [|j]; [lia|]. cbn in Hj. destruct i as [|i].
    + cbn in Hi. injection Hi as ->.
      rewrite Forall_forall in Hx. apply Hx. by apply list_elem_of_lookup_2 in Hj.
    + cbn in Hi. apply (IH i j); [lia|done..].
Qed.

End Sorted.

(** The order of the keys, spelled out. *)
Definition key_le (a b : sort_key) : Prop :=
  (a.1.1 < b.1.1)%nat
  ∨ (a.1.1 = b.1.1
     ∧ ((a.1.2 < b.1.2)%Q ∨ ((a.1.2 == b.1.2)%Q ∧ String.le a.2 b.2))).

Lemma ltb_false_le (s1 s2 : string) : String.ltb s1 s2 = false ↔ String.le s2 s1.
Proof.
  unfold String.le, String.ltb, String.leb. rewrite (String.compare_antisym s1 s2).
  destruct (String.compare s2 s1); cbn; split; done.
Qed.

Lemma key_lt_false (a b : sort_key) : key_lt a b = false ↔ key_le b a.
Proof.
  destruct a as [[f1 t1] n1], b as [[f2 t2] n2]. unfold key_lt, key_le. cbn [fst snd].
  destruct (Nat.eqb_spec f1 f2) as [-> | Hne]; cbn [negb].
  - destruct (Qeq_bool t1 t2) eqn:Ht; cbn [negb].
    + apply Qeq_bool_iff in Ht. rewrite ltb_false_le. split.
      * intros Hle. right. split; [done|]. right. split; [by symmetry | done].
      * intros [? | [_ [Hlt | [_ Hle]]]]; [lia | | done].
        rewrite Ht in Hlt. by apply Qlt_irrefl in Hlt.
    + apply Qeq_bool_neq in Ht. rewrite negb_false_iff, Qle_bool_iff. split.
      * intros Hle. right. split; [done|]. left.
        apply Qle_lteq in Hle as [Hlt | Heq]; [done|]. destruct Ht. by symmetry.
      * intros [? | [_ [Hlt | [Heq _]]]]; [lia | by apply Qlt_le_weak |].
        destruct Ht. by symmetry.
  - rewrite Nat.ltb_ge. split.
    + intros Hle. left. lia.
    + intros [? | [? _]]; lia.
Qed.

Lemma key_le_trans (a b c : sort_key) : key_le a b → key_le b c → key_le a c.
Proof.
  unfold key_le. intros [Hf1 | [Hf1 Ht1]] [Hf2 | [Hf2 Ht2]]; [left; lia..|].
  right. split; [congruence|].
  destruct Ht1 as [Ht1 | [Ht1 Hn1]], Ht2 as [Ht2 | [Ht2 Hn2]].
  - left. by apply (Qlt_trans _ b.1.2).
  - left. by rewrite <- Ht2.
  - left. by rewrite Ht1.
  - right. split; [by rewrite Ht1 | by etrans].
Qed.

Lemma key_lt_asym (a b : sort_key) : key_lt a b = true → key_lt b a = false.
Proof.
  intros Hab. destruct (key_lt b a) eqn:Hba; [|done].
  destruct a as [[f1 t1] n1], b as [[f2 t2] n2]. unfold key_lt in *.
  destruct (Nat.eqb_spec f1 f2) as [-> | Hne]; cbn [negb] in *.
  - rewrite Nat.eqb_refl in Hba. cbn [negb] in Hba. rewrite (Qeq_bool_comm t2 t1) in Hba.
    destruct (Qeq_bool t1 t2) eqn:Ht; cbn [negb] in *.
    + unfold String.ltb in *. rewrite (String.compare_antisym n1 n2) in Hab.
      destruct (String.compare n2 n1); cbn in *; done.
    + apply negb_true_iff in Hab, Hba.
      destruct (Qlt_le_dec t1 t2) as [H | H]; [apply Qlt_le_weak in H|];
        apply Qle_bool_iff in H; congruence.
  - destruct (Nat.eqb_spec f2 f1) as [-> | _]; [done|]. cbn [negb] in Hba.
    apply Nat.ltb_lt in Hab, Hba. lia.
Qed.

Lemma key_not_lt_trans (a b c : sort_key) :
  key_lt b a = false → key_lt c b = false → key_lt c a = false.
Proof. rewrite !key_lt_false. intros ??. by apply (key_le_trans _ b). Qed.

(** [C10] The ordering stage is a permutation: the output of [sort_output]
    holds the records of the input, each as often as the input does and each
    unchanged; whatever the two timestamp functions return. *)
Theorem sort_output_permutation
    (fromisoformat_timestamp : string → option Q)
    (naive_timestamp : Date.date → option Q) (entries : list entry) :
  sort_output fromisoformat_timestamp naive_timestamp entries ≡ₚ entries.
Proof. unfold sort_output. apply sorted_perm. Qed.

Section OrderingFacts.

Variable fromisoformat_timestamp : string → option Q.
Variable naive_timestamp : Date.date → option Q.

(** The parsed submission deadline of a record, and the name it is
    compared by. *)
Definition deadline_ts (e : entry) : option Q :=
  _ts fromisoformat_timestamp naive_timestamp
      (_safe_str (get e "Submission Deadline" VNone)).

Definition lower_name (e : entry) : string :=
  Str.lower (_safe_str (get e "name" VNone)).

(** [a] is in place before [b]: a parseable deadline before an unparseable
    one, two parseable ones by timestamp and then by name, two unparseable
    ones by name. *)
Definition in_order (a b : entry) : Prop :=
  match deadline_ts a, deadline_ts b with
  | Some ta, Some tb => (ta < tb)%Q ∨ ((ta == tb)%Q ∧ String.le (lower_name a) (lower_name b))
  | Some _, None => True
  | None, Some _ => False
  | None, None => String.le (lower_name a) (lower_name b)
  end.

Lemma key_le_in_order (a b : entry) :
  key_le (_key fromisoformat_timestamp naive_timestamp a)
         (_key fromisoformat_timestamp naive_timestamp b) ↔ in_order a b.
Proof.
  unfold in_order, _key, key_le, deadline_ts, lower_name.
  destruct (_ts _ _ (_safe_str (get a _ _))) as [ta|],
           (_ts _ _ (_safe_str (get b _ _))) as [tb|]; cbn [fst snd].
  - split; [intros [? | [_ H]]; [lia | done] | intros H; right; by split].
  - split; [done | intros _; left; lia].
  - split; [intros [? | [? _]]; lia | done].
  - split.
    + intros [? | [_ [H | [_ H]]]]; [lia | by apply Qlt_irrefl in H | done].
    + intros H. right. split; [done|]. right. by split.
Qed.

Lemma sort_output_in_order (entries : list entry) i j a b :
  (i < j)%nat →
  sort_output fromisoformat_timestamp naive_timestamp entries !! i = Some a →
  sort_output fromisoformat_timestamp naive_timestamp entries !! j = Some b →
  in_order a b.
Proof.
  intros Hij Hi Hj. apply key_le_in_order, key_lt_false.
  apply (StronglySorted_lookup _ _ i j a b
           (sorted_sorted key_lt _ key_lt_asym key_not_lt_trans entries) Hij Hi Hj).
Qed.

Lemma key_of_parsed (e : entry) (d : string) (dt : Date.date) (t : Q) :
  e !! "Submission Deadline" = Some (VStr d) →
  Str.strip d = d → Str.is_empty d = false →
  fromisoformat_timestamp (replace_Z d) = None →
  Date.strptime d "%b %d %Y" = Some dt →
  naive_timestamp dt = Some t →
  _key fromisoformat_timestamp naive_timestamp e = (0%nat, t, lower_name e).
Proof.
  intros He Hs Hne Hiso Hp Ht. unfold _key, _ts, get. rewrite He.
  cbn [default from_option id _safe_str Py.str]. rewrite !Hs, Hne, Hiso, Hp, Ht. done.
Qed.

Lemma key_of_empty (e : entry) :
  e !! "Submission Deadline" = Some (VStr "") →
  _key fromisoformat_timestamp naive_timestamp e
  = (1%nat, inject_Z (9 * 10 ^ 18), lower_name e).
Proof. intros He. unfold _key, _ts, get. rewrite He. done. Qed.

(** Scenario 5, for any three records with these deadlines. *)
Lemma sort_three (e1 e2 e3 : entry) (t1 t3 : Q) :
  e1 !! "Submission Deadline" = Some (VStr "Mar 01 2026") →
  e2 !! "Submission Deadline" = Some (VStr "") →
  e3 !! "Submission Deadline" = Some (VStr "Jan 10 2026") →
  fromisoformat_timestamp "Mar 01 2026" = None →
  fromisoformat_timestamp "Jan 10 2026" = None →
  naive_timestamp (Date.MkDate 2026 3 1) = Some t1 →
  naive_timestamp (Date.MkDate 2026 1 10) = Some t3 →
  (t3 < t1)%Q →
  sort_output fromisoformat_timestamp naive_timestamp [e1; e2; e3] = [e3; e1; e2].
Proof.
  intros H1 H2 H3 Hi1 Hi3 Hn1 Hn3 Hlt.
  assert (Qeq_bool t3 t1 = false) as Hne.
  { destruct (Qeq_bool t3 t1) eqn:E; [|done]. apply Qeq_bool_iff in E.
    rewrite E in Hlt. by apply Qlt_irrefl in Hlt. }
  assert (Qle_bool t1 t3 = false) as Hnle.
  { destruct (Qle_bool t1 t3) eqn:E; [|done]. apply Qle_bool_iff in E.
    by apply Qle_not_lt in E. }
  pose proof (key_of_parsed e1 _ _ t1 H1 eq_refl eq_refl Hi1
                ltac:(vm_compute; reflexivity) Hn1) as K1.
  pose proof (key_of_parsed e3 _ _ t3 H3 eq_refl eq_refl Hi3
                ltac:(vm_compute; reflexivity) Hn3) as K3.
  pose proof (key_of_empty e2 H2) as K2.
  assert (key_lt (_key fromisoformat_timestamp naive_timestamp e3)
                 (_key fromisoformat_timestamp naive_timestamp e2) = true) as A32.
  { by rewrite K2, K3. }
  assert (key_lt (_key fromisoformat_timestamp naive_timestamp e3)
                 (_key fromisoformat_timestamp naive_timestamp e1) = true) as A31.
  { rewrite K1, K3. unfold key_lt. cbn [Nat.eqb negb]. by rewrite Hne, Hnle. }
  assert (key_lt (_key fromisoformat_timestamp naive_timestamp e2)
                 (_key fromisoformat_timestamp naive_timestamp e1) = false) as A21.
  { by rewrite K1, K2. }
  unfold sort_output, sorted. cbn [foldr fold_right insert_by].
  rewrite A32. cbn [insert_by]. rewrite A31, A21. reflexivity.
Qed.

End OrderingFacts.

(** ** Whitespace normalization *)

Module Whitespace.

(** What [re.sub(r"\s+", " ", s)] computes: every run of whitespace becomes
    one space.  [skip] says that the previous character was whitespace. *)
Fixpoint collapse (skip : bool) (s : string) : string :=
  match s with
  | EmptyString => EmptyString
  | String c s' =>
      if Chars.isspace c
      then if skip then collapse true s' else String " " (collapse true s')
      else String c (collapse false s')
  end.

Definition starts_space (s : string) : bool :=
  match s with String c _ => Chars.isspace c | EmptyString => false end.

(** Every whitespace character is a space that no whitespace follows. *)
Fixpoint spaced (s : string) : bool :=
  match s with
  | EmptyString => true
  | String c s' =>
      (negb (Chars.isspace c) || (Ascii.eqb c " " && negb (starts_space s')))
      && spaced s'
  end.

Fixpoint ends_space (s : string) : bool :=
  match s with
  | EmptyString => false
  | String c EmptyString => Chars.isspace c
  | String _ s' => ends_space s'
  end.

(** The strings [_norm_space] returns: single spaces between words only. *)
Definition normal (s : string) : Prop :=
  spaced s = true ∧ starts_space s = false ∧ ends_space s = false.

Lemma collapse_lstrip (s : string) : collapse true s = collapse false (Str.lstrip s).
Proof.
  induction s as [|c s IH]; [done|]. cbn [collapse Str.lstrip].
  destruct (Chars.isspace c) eqn:Hc; [done|]. cbn [collapse]. by rewrite Hc.
Qed.

Lemma lstrip_length (s : string) : (String.length (Str.lstrip s) ≤ String.length s)%nat.
Proof.
  induction s as [|c s IH]; [done|]. cbn [Str.lstrip].
  destruct (Chars.isspace c); cbn [String.length]; lia.
Qed.

Lemma run_ws b s g :
  run ws (MState b s g) =
    match s with
    | String c s' => if Chars.isspace c then [MState (c :: b) s' g] else []
    | EmptyString => []
    end.
Proof. reflexivity. Qed.

(** The greedy [\s*] settles on the whole run of whitespace. *)
Lemma star_ws_head (n : nat) b s g :
  (String.length s ≤ n)%nat →
  ∃ b' tl, star_loop (run ws) n (MState b s g) = MState b' (Str.lstrip s) g :: tl.
Proof.
  revert b s. induction n as [|n IH]; intros b s Hlen.
  - destruct s; [|cbn in Hlen; lia]. by eexists _, _.
  - cbn [star_loop]. rewrite run_ws. destruct s as [|c s]; [by eexists _, _|].
    cbn [Str.lstrip].
    destruct (Chars.isspace c) eqn:Hc; [|by eexists _, _].
    cbn [flat_map]. unfold consumed. cbn [rest String.length].
    replace (S (String.length s) - String.length s)%nat with 1%nat by lia.
    cbn [Nat.ltb Nat.leb].
    destruct (IH (c :: b) s ltac:(cbn in Hlen; lia)) as (b' & tl & ->).
    by eexists _, _.
Qed.

(** [\s+] at a position: no match before a character that is not
    whitespace, the whole run otherwise. *)
Lemma match_ws_plus b s g :
  match s with
  | String c s' =>
      if Chars.isspace c
      then ∃ b', match_at (plus ws) (MState b s g) = Some (MState b' (Str.lstrip s') g)
      else match_at (plus ws) (MState b s g) = None
  | EmptyString => match_at (plus ws) (MState b s g) = None
  end.
Proof.
  destruct s as [|c s']; [done|]. unfold match_at, plus.
  change (run (Cat ws (Star ws)) ?st) with (flat_map (run (Star ws)) (run ws st)).
  rewrite run_ws.
  destruct (Chars.isspace c) eqn:Hc; [|done].
  cbn [flat_map].
  change (run (Star ws) ?st) with (star_loop (run ws) (String.length (rest st)) st).
  cbn [rest].
  destruct (star_ws_head (String.length s') (c :: b) s' g (le_n _)) as (b' & tl & ->).
  by exists b'.
Qed.

Lemma sub_ws_collapse (n : nat) b s g :
  (String.length s ≤ n)%nat →
  sub_from n (plus ws) " " (MState b s g) = collapse false s.
Proof.
  revert b s g. induction n as [|n IH]; intros b s g Hlen.
  - destruct s; [|cbn in Hlen; lia].
    cbn [sub_from]. by rewrite (match_ws_plus b "" g).
  - cbn [sub_from]. pose proof (match_ws_plus b s g) as Hm.
    destruct s as [|c s']; [by rewrite Hm|].
    cbn [collapse]. destruct (Chars.isspace c) eqn:Hc.
    + destruct Hm as [b' ->]. unfold consumed. cbn [rest String.length].
      pose proof (lstrip_length s') as Hl.
      replace (0 <? S (String.length s') - String.length (Str.lstrip s'))%nat
        with true by (symmetry; apply Nat.ltb_lt; lia).
      cbn [before rest]. rewrite IH by (cbn in Hlen; lia).
      by rewrite collapse_lstrip.
    + rewrite Hm. cbn [rest before]. by rewrite IH by (cbn in Hlen; lia).
Qed.

Lemma re_sub_ws (s : string) : re_sub (plus ws) " " s = collapse false s.
Proof. unfold re_sub, start. by apply sub_ws_collapse. Qed.

Lemma spaced_collapse (skip : bool) (s : string) :
  spaced (collapse skip s) = true
  ∧ (skip = true → starts_space (collapse skip s) = false).
Proof.
  revert skip. induction s as [|c s IH]; intros skip; [done|].
  cbn [collapse]. destruct (Chars.isspace c) eqn:Hc.
  - destruct skip; [apply IH|].
    split; [|done]. cbn [spaced]. destruct (IH true) as [-> ->]; done.
  - cbn [spaced starts_space]. rewrite Hc. split; [|done].
    by destruct (IH false) as [-> _].
Qed.

Lemma spaced_cons c s :
  spaced (String c s)
  = (negb (Chars.isspace c) || (Ascii.eqb c " " && negb (starts_space s))) && spaced s.
Proof. reflexivity. Qed.

Lemma spaced_tail c s : spaced (String c s) = true → spaced s = true.
Proof. cbn [spaced]. by intros [_ ?]%andb_true_iff. Qed.

Lemma spaced_lstrip (s : string) :
  spaced s = true →
  spaced (Str.lstrip s) = true ∧ starts_space (Str.lstrip s) = false.
Proof.
  induction s as [|c s IH]; [done|]. intros Hs. cbn [Str.lstrip].
  destruct (Chars.isspace c) eqn:Hc.
  - by apply IH, (spaced_tail c).
  - split; [done|]. by cbn [starts_space].
Qed.

Lemma rstrip_head (s : string) d u :
  Str.rstrip s = String d u → ∃ u', s = String d u'.
Proof.
  destruct s as [|c s]; [done|]. cbn [Str.rstrip].
  destruct (Str.rstrip s); [destruct (Chars.isspace c)|]; intros [= <- <-]; eauto.
Qed.

Lemma rstrip_starts (s : string) :
  starts_space s = false → starts_space (Str.rstrip s) = false.
Proof.
  intros Hs. destruct (Str.rstrip s) as [|d u] eqn:Hr; [done|].
  by apply rstrip_head in Hr as [u' ->].
Qed.

Lemma rstrip_ends (s : string) : ends_space (Str.rstrip s) = false.
Proof.
  induction s as [|c s IH]; [done|]. cbn [Str.rstrip].
  destruct (Str.rstrip s) as [|d u].
  - destruct (Chars.isspace c) eqn:Hc; [done|]. by cbn [ends_space].
  - done.
Qed.

Lemma spaced_rstrip (s : string) : spaced s = true → spaced (Str.rstrip s) = true.
Proof.
  induction s as [|c s IH]; [done|]. intros Hs. cbn [Str.rstrip].
  pose proof (IH (spaced_tail _ _ Hs)) as IH'.
  destruct (Str.rstrip s) as [|d u] eqn:Hr.
  - destruct (Chars.isspace c) eqn:Hc; [done|]. cbn [spaced]. by rewrite Hc.
  - apply rstrip_head in Hr as [u' ->].
    rewrite spaced_cons in Hs |- *. cbn [starts_space] in Hs |- *.
    apply andb_true_iff in Hs as [Hc _]. by rewrite Hc, IH'.
Qed.

Lemma normal_strip_collapse (s : string) :
  normal (Str.strip (collapse false s)).
Proof.
  unfold Str.strip.
  destruct (spaced_lstrip _ (proj1 (spaced_collapse false s))) as [H1 H2].
  split; [by apply spaced_rstrip|]. split; [by apply rstrip_starts | apply rstrip_ends].
Qed.

Lemma lstrip_id (s : string) : starts_space s = false → Str.lstrip s = s.
Proof. destruct s as [|c s]; [done|]. cbn. by intros ->. Qed.

Lemma rstrip_id (s : string) : ends_space s = false → Str.rstrip s = s.
Proof.
  induction s as [|c s IH]; [done|]. intros He. cbn [Str.rstrip].
  destruct s as [|d u].
  - cbn in He |- *. by rewrite He.
  - rewrite IH by done. done.
Qed.

Lemma collapse_id (skip : bool) (s : string) :
  spaced s = true → (skip = true → starts_space s = false) →
  collapse skip s = s.
Proof.
  revert skip. induction s as [|c s IH]; intros skip Hs Hskip; [done|].
  cbn [collapse]. cbn [spaced] in Hs. apply andb_true_iff in Hs as [Hc Hs].
  destruct (Chars.isspace c) eqn:Hsp.
  - cbn [negb orb] in Hc. apply andb_true_iff in Hc as [Heq Hn].
    apply Ascii.eqb_eq in Heq as ->. apply negb_true_iff in Hn.
    destruct skip.
    + specialize (Hskip eq_refl). cbn in Hskip. done.
    + by rewrite IH.
  - by rewrite IH.
Qed.

Lemma strip_id (s : string) : normal s → Str.strip s = s.
Proof.
  intros (_ & Hs & He). unfold Str.strip. by rewrite lstrip_id, rstrip_id.
Qed.

End Whitespace.

Arguments _norm_space : simpl never.
Arguments _clean_deadline_human : simpl never.
Arguments canonicalize_subject : simpl never.

(** [_norm_space] returns a string in normal form ... *)
Lemma norm_space_normal (v : value) : Whitespace.normal (_norm_space v).
Proof.
  unfold _norm_space. rewrite Whitespace.re_sub_ws.
  apply Whitespace.normal_strip_collapse.
Qed.

(** ... and leaves a string in normal form as it is. *)
Lemma norm_space_fixed (s : string) :
  Whitespace.normal s → _norm_space (VStr s) = s.
Proof.
  intros Hs. unfold _norm_space, _safe_str, Py.str.
  rewrite (Whitespace.strip_id s Hs), Whitespace.re_sub_ws.
  rewrite Whitespace.collapse_id; [by apply Whitespace.strip_id | apply Hs | done].
Qed.

Lemma norm_space_idem (v : value) :
  _norm_space (VStr (_norm_space v)) = _norm_space v.
Proof. apply norm_space_fixed, norm_space_normal. Qed.

(** ** The merge policy on normalized records *)

(** The string record [e] holds in field [k]. *)
Definition field_of (k : string) (e : entry) : string :=
  str_of (get e k (VStr "")).

Lemma field_of_normalized (e : entry) k :
  k ∈ text_fields →
  field_of k (normalize_entry_fields e) = norm_value k (get e k (VStr "")).
Proof. intros Hk. unfold field_of, get at 1. by rewrite normalize_lookup_text. Qed.

Lemma get_normalized (e : entry) k :
  k ∈ text_fields →
  get (normalize_entry_fields e) k (VStr "") = VStr (norm_value k (get e k (VStr ""))).
Proof. intros Hk. unfold get at 1. by rewrite normalize_lookup_text. Qed.

Definition scenario3_existing : entry :=
  <[ "name" := VStr "ICML" ]> (<[ "link" := VStr "" ]>
    {[ "Submission Deadline" := VStr "" ]}).

Definition scenario3_incoming : entry :=
  <[ "name" := VStr "ICML 2026" ]> (<[ "link" := VStr "https://icml.cc" ]>
    {[ "Submission Deadline" := VStr "Jan 30 2026" ]}).

(** [C5] The name of a merge of two records that were normalized before:
    the new name when it is not empty and has more characters than the old
    one, the old name otherwise.  And Scenario 3: "ICML" merged with
    "ICML 2026" is named "ICML 2026" (and takes the link and the deadline of
    the incoming record). *)
Theorem merge_name_prefers_longer :
  (∀ old0 new0 : entry,
     let old := normalize_entry_fields old0 in
     let new := normalize_entry_fields new0 in
     field_of "name" (merge_entries old new)
     = if Str.truthy (field_of "name" new)
          && (String.length (field_of "name" old) <? String.length (field_of "name" new))%nat
       then field_of "name" new else field_of "name" old)
  ∧ (field_of "name" (merge_entries scenario3_existing scenario3_incoming) = "ICML 2026"
     ∧ field_of "link" (merge_entries scenario3_existing scenario3_incoming)
       = "https://icml.cc"
     ∧ field_of "Submission Deadline" (merge_entries scenario3_existing scenario3_incoming)
       = "Jan 30 2026").
Proof.
  split.
  - intros old0 new0 old new. unfold field_of at 1, get. rewrite merge_entries_name.
    cbn [default from_option id str_of]. cbv zeta.
    unfold old, new. rewrite !get_normalized, !field_of_normalized by apply text_name.
    change (norm_value "name") with _norm_space. by rewrite !norm_space_idem.
  - repeat split; vm_compute; reflexivity.
Qed.

(** [C4] As the program has it.  Merging normalizes both records again, so
    for each updatable field whose old and new values are strings that
    normalization returns unchanged, the merged field is the new value when
    that is not empty and the old value otherwise; and this holds for the
    location of any two records that were normalized before. *)
Theorem merge_refreshes_stable_fields :
  (∀ (old new : entry) (k ov nv : string),
     k ∈ updatable →
     old !! k = Some (VStr ov) → new !! k = Some (VStr nv) →
     norm_value k (VStr ov) = ov → norm_value k (VStr nv) = nv →
     merge_entries old new !! k = Some (VStr (if Str.truthy nv then nv else ov)))
  ∧ (∀ old0 new0 : entry,
       let old := normalize_entry_fields old0 in
       let new := normalize_entry_fields new0 in
       field_of "Location" (merge_entries old new)
       = if Str.truthy (field_of "Location" new)
         then field_of "Location" new else field_of "Location" old).
Proof.
  split.
  - intros old new k ov nv Hk Ho Hn Hov Hnv.
    rewrite merge_entries_updatable by done. unfold get. rewrite Ho, Hn.
    cbn [default from_option id]. cbv zeta. by rewrite Hov, Hnv.
  - intros old0 new0 old new.
    assert ("Location" ∈ updatable) as Hu by (unfold updatable; set_solver).
    assert ("Location" ∈ text_fields) as Ht by (unfold text_fields; set_solver).
    unfold field_of at 1, get. rewrite merge_entries_updatable by done.
    cbn [default from_option id str_of]. cbv zeta.
    unfold old, new. rewrite !get_normalized, !field_of_normalized by done.
    change (norm_value "Location") with _norm_space. by rewrite !norm_space_idem.
Qed.

Definition dated (d : string) : entry :=
  normalize_entry_fields {[ "Submission Deadline" := VStr d ]}.

Lemma merge_refreshes_stable_fields_witness :
  merge_entries (dated "Jan 10 2026") (dated "2026-01-30") !! "Submission Deadline"
  = Some (VStr "Jan 30 2026").
Proof.
  apply (proj1 merge_refreshes_stable_fields
           (dated "Jan 10 2026") (dated "2026-01-30") "Submission Deadline"
           "Jan 10 2026" "Jan 30 2026").
  - unfold updatable. set_solver.
  - vm_compute; reflexivity.
  - vm_compute; reflexivity.
  - vm_compute; reflexivity.
  - vm_compute; reflexivity.
Defined.

(** A normalized record can hold a date text that normalization does not
    return unchanged: "in 5 in 5 days days" is normalized to "in 5 days", and
    that to "".  Merged as the new value it does not overwrite the old
    deadline; merged as the old value it is erased by an empty new value. *)
Lemma merge_renormalizes_dates :
  field_of "Submission Deadline" (dated "in 5 in 5 days days") = "in 5 days"
  ∧ field_of "Submission Deadline"
      (merge_entries (dated "Jan 10 2026") (dated "in 5 in 5 days days")) = "Jan 10 2026"
  ∧ field_of "Submission Deadline" (dated "") = ""
  ∧ field_of "Submission Deadline"
      (merge_entries (dated "in 5 in 5 days days") (dated "")) = "".
Proof. repeat split; vm_compute; reflexivity. Qed.

(** ** Date normalization *)

Lemma strptime_valid (s fmt : string) (dt : Date.date) :
  Date.strptime s fmt = Some dt → Date.valid dt = true.
Proof.
  unfold Date.strptime.
  destruct (Date.pattern false fmt) as [rs|]; [|done].
  destruct (re_match (seq rs) s) as [m|]; [|done].
  destruct (negb (Str.is_empty (rest m))); [done|].
  destruct (Date.valid _) eqn:Hv; [|done]. by intros [= <-].
Qed.

(** The loop over the formats: either no format parses and the string is
    returned as it is, or the first format that parses decides. *)
Lemma try_formats_first (s : string) (fmts : list string) :
  ((∀ fmt, fmt ∈ fmts → Date.strptime s fmt = None) ∧ try_formats s fmts = s)
  ∨ (∃ pre fmt post dt,
       fmts = pre ++ fmt :: post
       ∧ (∀ f, f ∈ pre → Date.strptime s f = None)
       ∧ Date.strptime s fmt = Some dt
       ∧ try_formats s fmts = Date.strftime_b_d_Y dt).
Proof.
  induction fmts as [|fmt fmts IH].
  - left. split; [|done]. intros fmt Hfmt. by apply elem_of_nil in Hfmt.
  - cbn [try_formats]. destruct (Date.strptime s fmt) as [dt|] eqn:Hp.
    + right. exists [], fmt, fmts, dt. repeat split; [|done].
      intros f Hf. by apply elem_of_nil in Hf.
    + destruct IH as [[Hnone Hres] | (pre & f & post & dt & -> & Hpre & Hf & Hres)].
      * left. split; [|done]. intros f [-> | Hf]%elem_of_cons; [done | by apply Hnone].
      * right. exists (fmt :: pre), f, post, dt. repeat split; [|done..].
        intros f' [-> | Hf']%elem_of_cons; [done | by apply Hpre].
Qed.

Definition is_str (v : value) : bool :=
  match v with VStr _ => true | _ => false end.

(** [_clean_deadline_human] on texts of the sources. *)
Lemma clean_deadline_examples :
  map _clean_deadline_human
    [VNone; VOther "2026"; VStr "  "; VStr "January 5, 2026 (AoE)";
     VStr "<strike>Mar 1, 2026</strike>"; VStr "jan 5 2026; 11:59 PM";
     VStr "2024-2-29 in 3 days"; VStr "2026-02-29"; VStr "Sept 3 2026";
     VStr "2026-01-30T23:59:59-12:00"; VStr " TBD "]
  = [""; ""; ""; "Jan 05 2026"; "Mar 01 2026"; "Jan 05 2026"; "Feb 29 2024";
     "2026-02-29"; "Sept 3 2026"; "2026-01-30T23:59:59-12:00"; "TBD"].
Proof. vm_compute. reflexivity. Qed.

(** ** Subject canonicalization *)

(** A label on which none of the renaming rules (2) and (3) fires. *)
Definition no_rename (s : string) : Prop :=
  mem (Str.lower s) wireless_labels = false
  ∧ mem (Str.lower s) networking_labels = false
  ∧ String.eqb (Str.lower s) "network system" = false.

(** The results of [canonicalize_subject]: one of the two canonical names, or
    a string in normal form that the renaming rules leave alone. *)
Lemma canonicalize_subject_cases (label : value) :
  canonicalize_subject label = "Wireless/Communication"
  ∨ canonicalize_subject label = "Network System"
  ∨ (Whitespace.normal (canonicalize_subject label)
     ∧ no_rename (canonicalize_subject label)).
Proof.
  unfold canonicalize_subject.
  set (s1 := match re_match ccf_label _ with Some _ => _ | None => _ end).
  set (s2 := match re_search trailing_paren s1 with Some _ => _ | None => _ end).
  assert (Whitespace.normal s2) as Hs2.
  { unfold s2, s1.
    destruct (re_search _ _); [destruct (re_match ccf_prefix _)|];
      try apply norm_space_normal; destruct (re_match ccf_label _);
      apply norm_space_normal. }
  clearbody s2. clear s1. cbv zeta.
  destruct (mem (Str.lower s2) wireless_labels) eqn:H1; cbv iota;
    [left; vm_compute; reflexivity|].
  destruct (mem (Str.lower s2) networking_labels) eqn:H2; cbv iota;
    [right; left; vm_compute; reflexivity|].
  destruct (String.eqb (Str.lower s2) "network system") eqn:H3; cbv iota;
    [right; by left|].
  right. right. split; [exact Hs2 | by split; [|split]].
Qed.

(** A pattern that starts with a pattern that does not match, does not
    match. *)
Lemma re_match_cat_none (r1 r2 : regex) (s : string) :
  re_match r1 s = None → re_match (Cat r1 r2) s = None.
Proof.
  unfold re_match, match_at. cbn [run].
  destruct (run r1 (start s)); [done | discriminate].
Qed.

(** A label in normal form that no rule applies to is its own canonical
    form. *)
Lemma canonicalize_subject_fixed (s : string) :
  Whitespace.normal s → re_match ccf_prefix s = None → no_rename s →
  canonicalize_subject (VStr s) = s.
Proof.
  intros Hn Hp (H1 & H2 & H3). unfold canonicalize_subject.
  rewrite (norm_space_fixed s Hn).
  unfold ccf_label. rewrite (re_match_cat_none _ _ _ Hp), Hp.
  destruct (re_search trailing_paren s); by rewrite H1, H2, H3.
Qed.

(** A label with nested parentheses: the first pass strips one level and
    leaves a label that rule (1) rewrites again. *)
Lemma canonicalize_subject_nested :
  canonicalize_subject (VStr "CCF A (CCF B ((C)))") = "CCF B ((C))"
  ∧ canonicalize_subject (VStr (canonicalize_subject (VStr "CCF A (CCF B ((C)))")))
    = "(C)".
Proof. split; vm_compute; reflexivity. Qed.

(** ** Further properties of the catalog *)

Lemma default_subjects_nonempty (subs : list string) :
  match subs with [] => ["Uncategorized"] | _ => subs end ≠ [].
Proof. by destruct subs. Qed.

(** Subjects are never empty: a normalized record and a merged record hold
    under ["sub"] a list of at least one string. *)
Lemma subjects_never_empty (e old new : entry) :
  (∃ subs, normalize_entry_fields e !! "sub" = Some (VList (map VStr subs)) ∧ subs ≠ [])
  ∧ (∃ subs, merge_entries old new !! "sub" = Some (VList (map VStr subs)) ∧ subs ≠ []).
Proof.
  split.
  - unfold normalize_entry_fields, normalize_entry_subjects.
    eexists. rewrite lookup_insert_eq. split; [reflexivity|].
    apply default_subjects_nonempty.
  - unfold merge_entries.
    eexists. rewrite lookup_insert_eq. split; [reflexivity|].
    apply default_subjects_nonempty.
Qed.

Lemma merge_one_keeps_index (st st' : catalog) (ne : entry) k i :
  merge_one st ne = Some st' → st.2 !! k = Some i → st'.2 !! k = Some i.
Proof.
  destruct st as [existing idx]. unfold merge_one. cbn [snd].
  destruct (find_hit idx _) as [hit|].
  - destruct (existing !! hit); [|done]. by intros [= <-].
  - intros [= <-] Hk. cbn [snd]. by apply register_keeps.
Qed.

(** [X2] First writer wins: through the whole loop of [merge_update] a key the
    index holds keeps the position it was registered with. *)
Theorem index_first_writer_wins (nes : list entry) (st st' : catalog) k i :
  merge_loop st nes = Some st' → st.2 !! k = Some i → st'.2 !! k = Some i.
Proof.
  revert st. induction nes as [|ne nes IH]; intros st Hloop Hk.
  - cbn [merge_loop] in Hloop. by injection Hloop as <-.
  - cbn [merge_loop] in Hloop.
    destruct (merge_one st ne) as [st1|] eqn:H1; [|done].
    apply (IH st1 Hloop). by apply (merge_one_keeps_index st _ ne).
Qed.

Lemma index_first_writer_wins_witness :
  ∃ st', merge_loop (catalog_AB, build_index catalog_AB) [incoming_AB; entry_B] = Some st'
         ∧ st'.2 !! "N:barconf 2026" = Some 1%nat.
Proof.
  destruct (merge_loop_spec [incoming_AB; entry_B] (catalog_AB, build_index catalog_AB)
              (build_index_ok _)) as (st' & Hloop & _).
  exists st'. split; [exact Hloop|].
  apply (index_first_writer_wins _ _ _ _ _ Hloop).
  vm_compute; reflexivity.
Defined.

Definition fooconf_incoming : list entry :=
  [ {[ "name" := VStr "FooConf 2026" ]}; {[ "name" := VStr "FooConf Cycle 2 2026" ]} ].

(** Scenario 4: two incoming records without link whose names differ only in
    the year and cycle tokens share the series key; the second is merged into
    the slot of the first. *)
Example same_series_merges :
  (_norm_key_series (VStr "FooConf 2026"), _norm_key_series (VStr "FooConf Cycle 2 2026"))
  = ("fooconf", "fooconf")
  ∧ map (field_of "name") <$> merge_update [] fooconf_incoming
    = Some ["FooConf Cycle 2 2026"].
Proof. split; vm_compute; reflexivity. Qed.

(** ** The further models against CPython 3.11

    The values on the right are what the library functions ([str.upper],
    [re], [datetime.strptime], [isoformat], [str.split], [in], [str]) return
    for the arguments on the left. *)

Fixpoint codes (s : string) : list N := match s with EmptyString => [] | String c s' => N_of_ascii c :: codes s' end.

(** [c.upper()] for every character of U+0000..U+00FF. *)
Example upper_table : map (fun n => option_map codes (Upper.char (ascii_of_N (N.of_nat n)))) (List.seq 0 256) = ([Some [0]; Some [1]; Some [2]; Some [3]; Some [4]; Some [5]; Some [6]; Some [7]; Some [8]; Some [9]; Some [10]; Some [11]; Some [12]; Some [13]; Some [14]; Some [15]; Some [16]; Some [17]; Some [18]; Some [19]; Some [20]; Some [21]; Some [22]; Some [23]; Some [24]; Some [25]; Some [26]; Some [27]; Some [28]; Some [29]; Some [30]; Some [31]; Some [32]; Some [33]; Some [34]; Some [35]; Some [36]; Some [37]; Some [38]; Some [39]; Some [40]; Some [41]; Some [42]; Some [43]; Some [44]; Some [45]; Some [46]; Some [47]; Some [48]; Some [49]; Some [50]; Some [51]; Some [52]; Some [53]; Some [54]; Some [55]; Some [56]; Some [57]; Some [58]; Some [59]; Some [60]; Some [61]; Some [62]; Some [63]; Some [64]; Some [65]; Some [66]; Some [67]; Some [68]; Some [69]; Some [70]; Some [71]; Some [72]; Some [73]; Some [74]; Some [75]; Some [76]; Some [77]; Some [78]; Some [79]; Some [80]; Some [81]; Some [82]; Some [83]; Some [84]; Some [85]; Some [86]; Some [87]; Some [88]; Some [89]; Some [90]; Some [91]; Some [92]; Some [93]; Some [94]; Some [95]; Some [96]; Some [65]; Some [66]; Some [67]; Some [68]; Some [69]; Some [70]; Some [71]; Some [72]; Some [73]; Some [74]; Some [75]; Some [76]; Some [77]; Some [78]; Some [79]; Some [80]; Some [81]; Some [82]; Some [83]; Some [84]; Some [85]; Some [86]; Some [87]; Some [88]; Some [89]; Some [90]; Some [123]; Some [124]; Some [125]; Some [126]; Some [127]; Some [128]; Some [129]; Some [130]; Some [131]; Some [132]; Some [133]; Some [134]; Some [135]; Some [136]; Some [137]; Some [138]; Some [139]; Some [140]; Some [141]; Some [142]; Some [143]; Some [144]; Some [145]; Some [146]; Some [147]; Some [148]; Some [149]; Some [150]; Some [151]; Some [152]; Some [153]; Some [154]; Some [155]; Some [156]; Some [157]; Some [158]; Some [159]; Some [160]; Some [161]; Some [162]; Some [163]; Some [164]; Some [165]; Some [166]; Some [167]; Some [168]; Some [169]; Some [170]; Some [171]; Some [172]; Some [173]; Some [174]; Some [175]; Some [176]; Some [177]; Some [178]; Some [179]; Some [180]; None; Some [182]; Some [183]; Some [184]; Some [185]; Some [186]; Some [187]; Some [188]; Some [189]; Some [190]; Some [191]; Some [192]; Some [193]; Some [194]; Some [195]; Some [196]; Some [197]; Some [198]; Some [199]; Some [200]; Some [201]; Some [202]; Some [203]; Some [204]; Some [205]; Some [206]; Some [207]; Some [208]; Some [209]; Some [210]; Some [211]; Some [212]; Some [213]; Some [214]; Some [215]; Some [216]; Some [217]; Some [218]; Some [219]; Some [220]; Some [221]; Some [222]; Some [83; 83]; Some [192]; Some [193]; Some [194]; Some [195]; Some [196]; Some [197]; Some [198]; Some [199]; Some [200]; Some [201]; Some [202]; Some [203]; Some [204]; Some [205]; Some [206]; Some [207]; Some [208]; Some [209]; Some [210]; Some [211]; Some [212]; Some [213]; Some [214]; Some [247]; Some [216]; Some [217]; Some [218]; Some [219]; Some [220]; Some [221]; Some [222]; None] : list (option (list N)))%N.
Proof. vm_compute. reflexivity. Qed.

Example utc_offset_samples : map (fun s => option_map (fun m => (group "1" m, group "2" m)) (re_match utc_offset s)) [("UTC+8"); ("UTC-12"); ("UTC+0"); ("UTC+00"); ("UTC+24"); ("UTC+99"); ("UTC+100"); ("UTC"); ("UTC+"); ("UTC 8"); ("UTC+8 "); ("XUTC+8"); ("UTC-5" +:+ String (ascii_of_N 10) "" +:+ "")] = [Some ("+", "8"); Some ("-", "12"); Some ("+", "0"); Some ("+", "00"); Some ("+", "24"); Some ("+", "99"); None; None; None; None; None; None; Some ("-", "5")].
Proof. vm_compute. reflexivity. Qed.

Example strptime_time_samples : map (fun s => option_map (fun dt => (Date.year (DateTime.date_of dt), Date.month (DateTime.date_of dt), Date.day (DateTime.date_of dt), DateTime.hour dt, DateTime.minute dt, DateTime.second dt)) (DateTime.strptime s "%Y-%m-%d %H:%M:%S")) ["2026-01-15 23:59:59"; "2026-1-5 3:4:5"; "2026-01-15  23:59:59"; "2026-01-15 24:00:00"; "2026-01-15 23:60:00"; "2026-01-15 23:59:60"; "2026-01-15 23:59:61"; "2026-02-29 00:00:00"; "2024-02-29 00:00:00"; "2026-01-15T23:59:59"; "2026-01-15 23:59"; "2026-01-15 23:59:59 "; "0001-01-01 00:00:00"; "2026-13-01 00:00:00"; "2026-00-10 00:00:00"; "2026-1-32 00:00:00"; "2026-10-3 1:02:3"; "20260115 235959"; "2026-01-15 235959"; "2026-011-5 1:1:1"; "2026-01- 5 1:1:1"; "2026-01-15 7:5:59"; "2026-01-15 07:059"] = ([Some (2026, 1, 15, 23, 59, 59); Some (2026, 1, 5, 3, 4, 5); Some (2026, 1, 15, 23, 59, 59); None; None; None; None; None; Some (2024, 2, 29, 0, 0, 0); None; None; None; Some (1, 1, 1, 0, 0, 0); None; None; None; Some (2026, 10, 3, 1, 2, 3); None; None; None; Some (2026, 1, 5, 1, 1, 1); Some (2026, 1, 15, 7, 5, 59); None] : list (option (nat*nat*nat*nat*nat*nat)))%nat.
Proof. vm_compute. reflexivity. Qed.

Example isoformat_samples : map (fun '(y,m,d,hh,mm,ss,off) => DateTime.isoformat (DateTime.MkDateTime (Date.MkDate y m d) hh mm ss) off) [(2026,1,2,3,4,5,(0)%Z); (2026,12,31,23,59,59,(-12)%Z); (1,1,1,0,0,0,(8)%Z); (999,10,9,8,7,6,(23)%Z); (2026,1,2,3,4,5,(-1)%Z); (4999,12,31,1,1,1,(-23)%Z)] = ["2026-01-02T03:04:05+00:00"; "2026-12-31T23:59:59-12:00"; "0001-01-01T00:00:00+08:00"; "0999-10-09T08:07:06+23:00"; "2026-01-02T03:04:05-01:00"; "4999-12-31T01:01:01-23:00"].
Proof. vm_compute. reflexivity. Qed.

Example year_sub_samples : map (fun '(s, y) => (re_sub (seq [chr ","; Star ws; lit (pretty y); WordB]) "" s, re_sub (seq [WordB; lit (pretty y); WordB]) "" s)) ([("June 12-17, 2026", (2026)%Z); ("April 29-May 4, 2026", (2026)%Z); ("May 19, 2026", (2026)%Z); ("May 19,2026", (2026)%Z); ("May 19 2026", (2026)%Z); ("2026 May 19", (2026)%Z); ("May 19, 20261", (2026)%Z); ("May 19, 2025", (2026)%Z); ("May 2026-2026", (2026)%Z); ("Oct 7-9, 2026, 2026", (2026)%Z); ("x,  -5 y", (-5)%Z); ("a 0 b,0", (0)%Z); ("Sept 3-5, 2026", (2026)%Z); ("Sep. 3 - Sep. 5, 2026", (2026)%Z)] : list (string * Z)) = [("June 12-17", "June 12-17, "); ("April 29-May 4", "April 29-May 4, "); ("May 19", "May 19, "); ("May 19", "May 19,"); ("May 19 2026", "May 19 "); ("2026 May 19", " May 19"); ("May 19, 20261", "May 19, 20261"); ("May 19, 2025", "May 19, 2025"); ("May 2026-2026", "May -"); ("Oct 7-9", "Oct 7-9, , "); ("x y", "x,  -5 y"); ("a 0 b", "a  b,"); ("Sept 3-5", "Sept 3-5, "); ("Sep. 3 - Sep. 5", "Sep. 3 - Sep. 5, ")].
Proof. vm_compute. reflexivity. Qed.

Example month_map_samples : map (fun s => foldl (fun s '(abbr, full) => re_sub (seq [WordB; lit abbr; WordB]) full s) s _MONTH_MAP) ["Sept 3-5"; "Sep 3-Oct 5"; "September 3"; "Jan-Feb"; "jan 5"; "Sep. 3 - Sep. 5"; "Mayo May 5"; "Dec 1-December 3"; "Sept. 3"; "Septx Sep_ Sep2 Sep-5"; "Augu Aug"] = ["September 3-5"; "September 3-October 5"; "September 3"; "January-February"; "jan 5"; "September. 3 - September. 5"; "Mayo May 5"; "December 1-December 3"; "September. 3"; "Septx Sep_ Sep2 September-5"; "Augu August"].
Proof. vm_compute. reflexivity. Qed.

Example letters_samples : map (fun s => bool_decide (is_Some (re_search (seq [WordB; plus letter; WordB]) s))) ["17"; "May 4"; "4 May"; "4th"; ""; "  "; "12a"; "a1 b"] = [false; true; true; false; false; false; false; true].
Proof. vm_compute. reflexivity. Qed.

Example left_samples : map (fun s => option_map (group "1") (re_match (seq [Bos; Grp "1" (plus letter); plus ws; digit; opt digit; Eos]) s)) [("June 12"); ("June  1"); ("June 123"); ("June12"); ("June 12 "); ("12 June"); ("Sept. 3"); ("June 1" +:+ String (ascii_of_N 10) "" +:+ ""); ("J 9")] = [Some ("June"); Some ("June"); None; None; None; None; None; Some ("June"); Some ("J")].
Proof. vm_compute. reflexivity. Qed.

Example split_samples : map split_hyphen ["a-b"; "a-b-c"; "-x"; "x-"; "a - b"; "--"] = [("a", "b"); ("a", "b-c"); ("", "x"); ("x", ""); ("a ", " b"); ("", "-")].
Proof. vm_compute. reflexivity. Qed.

Example contains_samples : map (fun '(a, b) => contains a b) [("5g", "wireless 5g networks"); ("network", "networking"); ("signal", "sig nal"); ("", "abc"); ("abc", ""); ("ab", "aab"); ("aab", "aaab"); ("privacy", "data privac"); ("security", "cybersecurity")] = [true; true; false; true; false; true; true; false; true].
Proof. vm_compute. reflexivity. Qed.

Example pretty_samples : map pretty ([(0); (5); (-5); (2026); (-2026); (10); (100000)] : list Z)%Z = ["0"; "5"; "-5"; "2026"; "-2026"; "10"; "100000"].
Proof. vm_compute. reflexivity. Qed.

Example strptime_B_samples : map (fun s => option_map (fun d => (Date.year d, Date.month d, Date.day d)) (Date.strptime s "%B %d, %Y")) ["June 12, 2026"; "June 12 , 2026"; "june 1,2026"; "Sept 3, 2026"; "September 3, 2026"; "May 4, 2026"; "June 12th, 2026"; "June 12, 26"; "June 31, 2026"; "Jun 12, 2026"; " June 12, 2026"; "June 12-17, 2026"] = ([Some (2026, 6, 12); None; None; None; Some (2026, 9, 3); Some (2026, 5, 4); None; None; None; None; None; None] : list (option (nat*nat*nat)))%nat.
Proof. vm_compute. reflexivity. Qed.

(** ** The list of subjects without repetitions *)

(** The elements of a list in the order of their first occurrence. *)
Fixpoint first_occurrences (l : list string) : list string :=
  match l with
  | [] => []
  | x :: l' => x :: filter (λ y, y ≠ x) (first_occurrences l')
  end.

Lemma is_empty_spec (s : string) : Str.is_empty s = true ↔ s = "".
Proof. by destruct s. Qed.

Lemma safe_str_str (s : string) : _safe_str (VStr s) = Str.strip s.
Proof. reflexivity. Qed.

Lemma dedupe_loop_spec (xs : list string) (seen : gset string) (out : list string) :
  (∀ x, x ∈ seen ↔ x ∈ out) →
  _dedupe_loop xs seen out
  = out ++ filter (λ y, y ∉ out)
             (first_occurrences (filter (λ x, x ≠ "") (map Str.strip xs))).
Proof.
  revert seen out. induction xs as [|x xs IH]; intros seen out Hseen.
  - cbn. by rewrite app_nil_r.
  - cbn [_dedupe_loop map]. rewrite safe_str_str.
    destruct (Str.is_empty (Str.strip x)) eqn:He.
    { apply is_empty_spec in He. rewrite filter_cons_False by (by rewrite He; intros []).
      by apply IH. }
    assert (Str.strip x ≠ "") as Hne.
    { intros E. apply is_empty_spec in E. congruence. }
    rewrite filter_cons_True by done. cbn [first_occurrences].
    destruct (decide (Str.strip x ∈ seen)) as [Hin | Hin].
    + rewrite (IH _ _ Hseen). f_equal.
      rewrite filter_cons_False by (intros H; apply H; by apply Hseen).
      rewrite list_filter_filter. apply list_filter_iff.
      intros y. split; [|by intros [? _]]. intros Hy. split; [done|].
      intros ->. apply Hy. by apply Hseen.
    + rewrite (IH ({[Str.strip x]} ∪ seen) (out ++ [Str.strip x])).
      2:{ intros y. rewrite elem_of_union, elem_of_singleton, elem_of_app, list_elem_of_singleton.
          rewrite Hseen. tauto. }
      rewrite <- app_assoc. f_equal. cbn [app].
      rewrite filter_cons_True by (by rewrite <- Hseen).
      f_equal. rewrite list_filter_filter. apply list_filter_iff.
      intros y. rewrite elem_of_app, list_elem_of_singleton. tauto.
Qed.

Lemma filter_all {A} (P : A → Prop) `{∀ x, Decision (P x)} (l : list A) :
  Forall P l → filter P l = l.
Proof.
  induction 1 as [|x l Hx _ IH]; [done|]. by rewrite filter_cons_True, IH.
Qed.

Lemma dedupe_list_first (xs : list string) :
  _dedupe_list xs = first_occurrences (filter (λ x, x ≠ "") (map Str.strip xs)).
Proof.
  unfold _dedupe_list. rewrite (dedupe_loop_spec xs ∅ []) by set_solver.
  cbn [app]. apply filter_all, Forall_forall. intros x _. apply not_elem_of_nil.
Qed.

Lemma first_occurrences_elem (l : list string) x : x ∈ first_occurrences l ↔ x ∈ l.
Proof.
  induction l as [|y l IH]; [done|]. cbn [first_occurrences].
  rewrite !elem_of_cons, list_elem_of_filter, IH.
  destruct (decide (x = y)); naive_solver.
Qed.

Lemma first_occurrences_NoDup (l : list string) : NoDup (first_occurrences l).
Proof.
  induction l as [|y l IH]; [constructor|]. cbn [first_occurrences].
  constructor; [|by apply NoDup_filter].
  rewrite list_elem_of_filter. by intros [? _].
Qed.

Lemma first_occurrences_id (l : list string) : NoDup l → first_occurrences l = l.
Proof.
  induction 1 as [|y l Hy _ IH]; [done|]. cbn [first_occurrences]. rewrite IH.
  f_equal. apply filter_all, Forall_forall. by intros x Hx ->.
Qed.

Lemma strip_strip (s : string) : Str.strip (Str.strip s) = Str.strip s.
Proof.
  unfold Str.strip.
  assert (Whitespace.starts_space (Str.lstrip s) = false) as H1.
  { induction s as [|c s IH]; [done|]. cbn [Str.lstrip].
    destruct (Chars.isspace c) eqn:Hc; [done|]. by cbn [Whitespace.starts_space]. }
  rewrite (Whitespace.lstrip_id (Str.rstrip _)) by by apply Whitespace.rstrip_starts.
  apply Whitespace.rstrip_id, Whitespace.rstrip_ends.
Qed.

Lemma dedupe_list_elem (xs : list string) x :
  x ∈ _dedupe_list xs ↔ x ≠ "" ∧ ∃ y, y ∈ xs ∧ x = Str.strip y.
Proof.
  rewrite dedupe_list_first, first_occurrences_elem, list_elem_of_filter.
  change (map Str.strip xs) with (Str.strip <$> xs). rewrite list_elem_of_fmap.
  naive_solver.
Qed.

Lemma dedupe_list_idem (xs : list string) :
  _dedupe_list (_dedupe_list xs) = _dedupe_list xs.
Proof.
  rewrite (dedupe_list_first (_dedupe_list xs)).
  assert (map Str.strip (_dedupe_list xs) = _dedupe_list xs) as ->.
  { rewrite <- (map_id (_dedupe_list xs)) at 2. apply map_ext_in.
    intros x Hx. apply list_elem_of_In, dedupe_list_elem in Hx as (_ & y & _ & ->).
    apply strip_strip. }
  rewrite filter_all.
  - apply first_occurrences_id. rewrite dedupe_list_first. apply first_occurrences_NoDup.
  - apply Forall_forall. intros x Hx. by apply dedupe_list_elem in Hx as [? _].
Qed.

(** [X4] [_dedupe_list] keeps, of the stripped non-empty strings of its
    input, the first occurrence of each, in the order of the input: the
    result has no repetition, holds exactly the stripped non-empty strings of
    the input, and is left as it is by a second pass. *)
Theorem dedupe_list_first_occurrences (xs : list string) :
  _dedupe_list xs = first_occurrences (filter (λ x, x ≠ "") (map Str.strip xs))
  ∧ NoDup (_dedupe_list xs)
  ∧ (∀ x, x ∈ _dedupe_list xs ↔ x ≠ "" ∧ ∃ y, y ∈ xs ∧ x = Str.strip y)
  ∧ _dedupe_list (_dedupe_list xs) = _dedupe_list xs.
Proof.
  split; [apply dedupe_list_first|]. split; [|split].
  - rewrite dedupe_list_first. apply first_occurrences_NoDup.
  - apply dedupe_list_elem.
  - apply dedupe_list_idem.
Qed.

(** ** The index of a catalog *)

(** The typed keys a record is registered under: its non-empty match keys
    with the prefix of their kind. *)
Definition typed_keys (keys : string * string * string) : list string :=
  let '(link_key, exact, series) := keys in
  (if Str.truthy link_key then ["L:" +:+ link_key] else [])
  ++ (if Str.truthy exact then ["N:" +:+ exact] else [])
  ++ (if Str.truthy series then ["S:" +:+ series] else []).

Lemma setdefault_lookup_eq (idx : gmap string nat) k0 i k :
  setdefault idx k0 i !! k
  = match idx !! k with
    | Some j => Some j
    | None => if decide (k = k0) then Some i else None
    end.
Proof.
  unfold setdefault. destruct (idx !! k0) eqn:H0.
  - destruct (idx !! k) eqn:Hk; [done|]. destruct (decide (k = k0)); [congruence|done].
  - destruct (decide (k = k0)) as [-> | Hne].
    + by rewrite lookup_insert_eq, H0.
    + rewrite lookup_insert_ne by done. by destruct (idx !! k).
Qed.

Lemma register_lookup_eq (idx : gmap string nat) keys i k :
  register idx keys i !! k
  = match idx !! k with
    | Some j => Some j
    | None => if decide (k ∈ typed_keys keys) then Some i else None
    end.
Proof.
  destruct keys as [[lk ex] se]. unfold register, typed_keys.
  destruct (Str.truthy lk), (Str.truthy ex), (Str.truthy se);
    rewrite ?setdefault_lookup_eq; destruct (idx !! k); try done;
    repeat (destruct (decide (k = _)) as [-> | ?]);
    repeat case_decide; set_solver.
Qed.

Lemma build_index_from_lookup i (existing : list entry) (idx : gmap string nat) k :
  build_index_from i existing idx !! k
  = match idx !! k with
    | Some j => Some j
    | None => (λ p, i + p.1)%nat
               <$> list_find (λ e, k ∈ typed_keys (build_match_keys e)) existing
    end.
Proof.
  revert i idx. induction existing as [|e es IH]; intros i idx.
  - cbn [build_index_from list_find]. by destruct (idx !! k).
  - cbn [build_index_from list_find]. rewrite IH, register_lookup_eq.
    destruct (idx !! k); [done|].
    destruct (decide (k ∈ typed_keys (build_match_keys e))).
    + cbn. f_equal. lia.
    + rewrite <- option_fmap_compose. apply option_fmap_ext. intros [j e']. cbn. lia.
Qed.

(** [X5] The index of a catalog sends a typed key to the first record that
    claims it: [build_index existing] holds for [k] the position of the first
    record one of whose typed keys is [k], and holds nothing for a key no
    record claims. *)
Theorem build_index_first_claimant (existing : list entry) (k : string) :
  build_index existing !! k
  = fst <$> list_find (λ e, k ∈ typed_keys (build_match_keys e)) existing.
Proof.
  unfold build_index. rewrite build_index_from_lookup, lookup_empty.
  apply option_fmap_ext. by intros [j e].
Qed.

(** ** The shape of the records of a catalog *)

Lemma digit_char_isdigit (n : nat) : Chars.isdigit (Date.digit_char n) = true.
Proof.
  unfold Date.digit_char.
  assert (n mod 10 < 10)%nat as H by (apply Nat.mod_upper_bound; lia).
  destruct (n mod 10)%nat as [|[|[|[|[|[|[|[|[|[|k]]]]]]]]]]; try reflexivity; lia.
Qed.

Lemma digit_char_isspace (n : nat) : Chars.isspace (Date.digit_char n) = false.
Proof.
  unfold Date.digit_char.
  assert (n mod 10 < 10)%nat as H by (apply Nat.mod_upper_bound; lia).
  destruct (n mod 10)%nat as [|[|[|[|[|[|[|[|[|[|k]]]]]]]]]]; try reflexivity; lia.
Qed.

(** A string of decimal digits. *)
Fixpoint all_digits (s : string) : bool :=
  match s with
  | EmptyString => true
  | String c s' => Chars.isdigit c && all_digits s'
  end.

Lemma isdigit_not_space c : Chars.isdigit c = true → Chars.isspace c = false.
Proof.
  destruct c as [[] [] [] [] [] [] [] []]; vm_compute; congruence.
Qed.

Lemma drop_zeros_digits (s : string) :
  all_digits s = true → s ≠ "" →
  all_digits (Date.drop_zeros s) = true ∧ Date.drop_zeros s ≠ "".
Proof.
  induction s as [|c s IH]; [done|]. intros Hd _.
  cbn [all_digits] in Hd. apply andb_true_iff in Hd as [Hc Hs].
  destruct s as [|c' s']; [cbn; by rewrite Hc|].
  cbn [Date.drop_zeros]. destruct (Ascii.eqb c "0").
  - by apply IH.
  - split; [|done]. cbn [all_digits] in *. by rewrite Hc, Hs.
Qed.

Lemma digits_normal_tail (s : string) :
  all_digits s = true →
  Whitespace.spaced s = true ∧ Whitespace.starts_space s = false
  ∧ Whitespace.ends_space s = false.
Proof.
  induction s as [|c s IH]; [done|]. cbn [all_digits]. intros [Hc Hs]%andb_true_iff.
  destruct (IH Hs) as (H1 & H2 & H3). pose proof (isdigit_not_space c Hc) as Hsp.
  split; [|split].
  - cbn [Whitespace.spaced]. by rewrite Hsp, H1.
  - done.
  - destruct s; [done|]. done.
Qed.

Lemma strftime_normal (d : Date.date) :
  Date.valid d = true → Whitespace.normal (Date.strftime_b_d_Y d).
Proof.
  intros Hv. unfold Date.valid in Hv.
  repeat (apply andb_true_iff in Hv as [Hv ?]).
  unfold Date.strftime_b_d_Y, Date.two_digits.
  assert (all_digits (Date.four_digits (Date.year d)) = true) as Hy.
  { unfold Date.four_digits. cbn [all_digits]. by rewrite !digit_char_isdigit. }
  destruct (drop_zeros_digits _ Hy ltac:(done)) as [Hy' Hne].
  destruct (digits_normal_tail _ Hy') as (Y1 & Y2 & Y3).
  destruct (Date.drop_zeros _) as [|y ys] eqn:Hdz; [done|].
  pose proof (digit_char_isspace (Date.day d / 10)) as D1.
  pose proof (digit_char_isspace (Date.day d)) as D2.
  assert (1 ≤ Date.month d ≤ 12)%nat as Hm by (split; apply Nat.leb_le; done).
  destruct (Date.month d) as [|[|[|[|[|[|[|[|[|[|[|[|[|m]]]]]]]]]]]]]; try lia;
    (split; [|split]);
    cbv beta iota delta [nth Date.month_abbr String.append];
    cbn [Whitespace.spaced Whitespace.starts_space Whitespace.ends_space] in *;
    rewrite ?D1, ?D2, ?Y1, ?Y2, ?Y3; try reflexivity.
  all: destruct ys; [reflexivity | exact Y3].
Qed.

Lemma clean_deadline_normal (v : value) : Whitespace.normal (_clean_deadline_human v).
Proof.
  unfold _clean_deadline_human. destruct v as [|s|xs|shown]; try done.
  destruct (Str.is_empty (Str.strip s)); [done|].
  destruct (try_formats_first (strip_noise s) deadline_formats)
    as [[_ ->] | (pre & fmt & post & dt & _ & _ & Hfmt & ->)].
  - apply norm_space_normal.
  - apply strftime_normal. by apply (strptime_valid (strip_noise s) fmt).
Qed.

Lemma norm_value_normal (k : string) (v : value) : Whitespace.normal (norm_value k v).
Proof.
  unfold norm_value. destruct (mem k date_fields);
    [apply clean_deadline_normal | apply norm_space_normal].
Qed.

(** The records of a catalog: the nine fields of the schema and no other;
    every text field a string without leading, trailing or repeated
    whitespace; the subjects a list of at least one string, none of them
    empty and none of them twice. *)
Definition well_formed (e : entry) : Prop :=
  dom e = list_to_set schema
  ∧ (∀ k, k ∈ text_fields → ∃ s, e !! k = Some (VStr s) ∧ Whitespace.normal s)
  ∧ ∃ subs, e !! "sub" = Some (VList (map VStr subs))
            ∧ subs ≠ [] ∧ NoDup subs ∧ ∀ s, s ∈ subs → s ≠ "".

Lemma default_subjects_ok (xs : list string) :
  let subs := match _dedupe_list xs with [] => ["Uncategorized"] | _ => _dedupe_list xs end in
  subs ≠ [] ∧ NoDup subs ∧ ∀ s, s ∈ subs → s ≠ "".
Proof.
  cbv zeta. destruct (_dedupe_list xs) as [|y ys] eqn:Hd.
  - split; [done|]. split; [apply NoDup_singleton|].
    by intros s ->%list_elem_of_singleton.
  - rewrite <- Hd. split; [by rewrite Hd|]. split.
    + rewrite dedupe_list_first. apply first_occurrences_NoDup.
    + intros s Hs. by apply dedupe_list_elem in Hs as [? _].
Qed.

Lemma normalize_well_formed (e : entry) : well_formed (normalize_entry_fields e).
Proof.
  split; [apply normalize_dom|]. split.
  - intros k Hk. eexists. split; [by apply normalize_lookup_text|].
    apply norm_value_normal.
  - unfold normalize_entry_fields, normalize_entry_subjects.
    eexists. rewrite lookup_insert_eq. split; [reflexivity|].
    apply default_subjects_ok.
Qed.

Lemma merge_entries_link (old new : entry) :
  merge_entries old new !! "link" =
    Some (VStr (let nl := _norm_space (get new "link" (VStr "")) in
                let ol := _norm_space (get old "link" (VStr "")) in
                if negb (Str.truthy ol) && Str.truthy nl then nl else ol)).
Proof.
  unfold merge_entries.
  rewrite lookup_insert_ne by done.
  rewrite foldl_refresh_lookup_notin by (unfold updatable; set_solver).
  rewrite !lookup_total_alt.
  rewrite (lookup_if_insert_ne _ "name" "link") by done.
  rewrite !(normalize_lookup_text _ "link") by apply text_link.
  cbn [default from_option id str_of].
  change (norm_value "link") with _norm_space. cbv zeta.
  destruct (negb _ && _); [by rewrite lookup_insert_eq|].
  rewrite lookup_if_insert_ne by done.
  by rewrite (normalize_lookup_text _ "link") by apply text_link.
Qed.

Lemma merge_well_formed (old new : entry) : well_formed (merge_entries old new).
Proof.
  split; [apply merge_entries_dom|]. split.
  - intros k Hk. unfold text_fields in Hk.
    apply elem_of_cons in Hk as [-> | Hk].
    { rewrite merge_entries_name. eexists. split; [reflexivity|]. cbv zeta.
      destruct (_ && _); apply norm_space_normal. }
    destruct (decide (k = "link")) as [-> | Hl].
    { rewrite merge_entries_link. eexists. split; [reflexivity|]. cbv zeta.
      destruct (_ && _); apply norm_space_normal. }
    assert (k ∈ updatable) as Hu by (unfold updatable; set_solver).
    rewrite (merge_entries_updatable _ _ _ Hu). eexists. split; [reflexivity|].
    cbv zeta. destruct (Str.truthy _); apply norm_value_normal.
  - unfold merge_entries. eexists. rewrite lookup_insert_eq. split; [reflexivity|].
    apply default_subjects_ok.
Qed.

(** [X1] The shape of a record.  Every record [normalize_entry_fields]
    returns, and every record [merge_entries] returns, has the nine fields of
    the schema and no other; each text field is a string without leading,
    trailing or repeated whitespace (a date field is empty, a rendered date
    or the cleaned text); and the subjects are a list of at least one
    string, none empty and none twice. *)
Theorem record_well_formed (e old new : entry) :
  well_formed (normalize_entry_fields e) ∧ well_formed (merge_entries old new).
Proof.
  split.
  - apply normalize_well_formed.
  - apply merge_well_formed.
Qed.

(** ** Where the records of the merged catalog come from *)

(** [b] is [a] merged with some of the records [nes], in their order. *)
Definition merged_from (nes : list entry) (a b : entry) : Prop :=
  ∃ ms, sublist ms nes ∧ b = foldl merge_entries a (normalize_entry_fields <$> ms).

Lemma merged_from_later ne nes a b : merged_from nes a b → merged_from (ne :: nes) a b.
Proof. intros (ms & Hms & ->). exists ms. split; [by apply sublist_cons | done]. Qed.

Lemma merged_from_merge ne nes a b :
  merged_from nes (merge_entries a (normalize_entry_fields ne)) b →
  merged_from (ne :: nes) a b.
Proof. intros (ms & Hms & ->). exists (ne :: ms). split; [by apply sublist_skip | done]. Qed.

Lemma merge_one_cases (st : catalog) (ne : entry) :
  index_ok st →
  ∃ st', merge_one st ne = Some st' ∧ index_ok st'
    ∧ ((∃ hit e, st.1 !! hit = Some e
          ∧ st'.1 = <[hit := merge_entries e (normalize_entry_fields ne)]> st.1)
       ∨ st'.1 = st.1 ++ [normalize_entry_fields ne]).
Proof.
  destruct st as [existing idx]. intros Hok.
  destruct (merge_one_spec (existing, idx) ne Hok) as (st' & Hone & Hok' & _).
  exists st'. split; [done|]. split; [done|].
  destruct (find_hit idx (build_match_keys (normalize_entry_fields ne)))
    as [hit|] eqn:Hhit.
  - destruct (find_hit_lookup _ _ _ Hhit) as [k Hk]. apply Hok in Hk. cbn [fst snd] in Hk.
    destruct (lookup_lt_is_Some_2 existing hit Hk) as [e He].
    rewrite (merge_one_hit _ _ _ _ _ Hhit He) in Hone. injection Hone as <-.
    left. by exists hit, e.
  - rewrite (merge_one_miss _ _ _ Hhit) in Hone. injection Hone as <-. by right.
Qed.

Lemma merge_loop_provenance (nes : list entry) (st : catalog) :
  index_ok st →
  ∃ st' added, merge_loop st nes = Some st' ∧ sublist added nes
    ∧ Forall2 (merged_from nes) (st.1 ++ (normalize_entry_fields <$> added)) st'.1.
Proof.
  revert st. induction nes as [|ne nes IH]; intros st Hok.
  - exists st, []. cbn [merge_loop]. split; [done|]. split; [done|].
    cbn [fmap list_fmap]. rewrite app_nil_r.
    apply Forall2_same_length_lookup. split; [done|].
    intros i x y Hx Hy. exists []. split; [done|]. cbn. congruence.
  - destruct (merge_one_cases st ne Hok) as (st1 & H1 & Hok1 & Hcase).
    destruct (IH st1 Hok1) as (st' & added & Hloop & Hsub & Hall).
    cbn [merge_loop]. rewrite H1.
    destruct Hcase as [(hit & e & He & Hst1) | Hst1]; rewrite Hst1 in Hall.
    + exists st', added. split; [done|]. split; [by apply sublist_cons|].
      rewrite <- insert_app_l in Hall by by eapply lookup_lt_Some.
      apply Forall2_same_length_lookup in Hall as [Hlen Hall].
      rewrite length_insert in Hlen.
      apply Forall2_same_length_lookup. split; [done|].
      intros i x y Hx Hy. destruct (decide (i = hit)) as [-> | Hne].
      * rewrite lookup_app_l in Hx by by eapply lookup_lt_Some.
        assert (x = e) as -> by congruence.
        apply merged_from_merge, (Hall hit); [|done].
        apply list_lookup_insert_eq. rewrite length_app.
        apply lookup_lt_Some in He. lia.
      * apply merged_from_later, (Hall i); [|done].
        by rewrite list_lookup_insert_ne.
    + exists st', (ne :: added). split; [done|]. split; [by apply sublist_skip|].
      rewrite <- app_assoc in Hall. cbn [fmap list_fmap app] in *.
      eapply Forall2_impl; [exact Hall|]. intros x y. apply merged_from_later.
Qed.

Lemma foldl_merge_well_formed (a : entry) (l : list entry) :
  well_formed a → well_formed (foldl merge_entries a l).
Proof.
  revert a. induction l as [|x l IH]; intros a Ha; [done|].
  cbn [foldl]. apply IH, merge_well_formed.
Qed.

Lemma merged_from_well_formed nes a b :
  well_formed a → merged_from nes a b → well_formed b.
Proof. intros Ha (ms & _ & ->). by apply foldl_merge_well_formed. Qed.

Lemma merge_update_provenance_aux (existing new_entries : list entry) :
  ∃ out added, merge_update existing new_entries = Some out
    ∧ sublist added new_entries
    ∧ Forall2 (merged_from new_entries)
              (normalize_entry_fields <$> (existing ++ added)) out.
Proof.
  unfold merge_update.
  destruct (merge_loop_provenance new_entries
              (map normalize_entry_fields existing,
               build_index (map normalize_entry_fields existing))
              (build_index_ok _)) as (st' & added & Hloop & Hsub & Hall).
  exists st'.1, added. rewrite Hloop. split; [done|]. split; [done|].
  by rewrite fmap_app.
Qed.

(** [X6] Where the records of the merged catalog come from.  [merge_update]
    returns the normalized records of the catalog, followed by some of the
    normalized incoming records in their order of arrival, each of these
    merged with some of the incoming records; so the result has at most as
    many records more than the catalog as there are incoming ones, and with
    no incoming record it is the normalized catalog. *)
Theorem merge_update_provenance (existing new_entries : list entry) :
  (∃ out added, merge_update existing new_entries = Some out
     ∧ sublist added new_entries
     ∧ Forall2 (merged_from new_entries)
               (normalize_entry_fields <$> (existing ++ added)) out
     ∧ (length existing ≤ length out ≤ length existing + length new_entries)%nat)
  ∧ merge_update existing [] = Some (normalize_entry_fields <$> existing).
Proof.
  split; [|done].
  destruct (merge_update_provenance_aux existing new_entries)
    as (out & added & Hout & Hsub & Hall).
  exists out, added. split; [done|]. split; [done|]. split; [done|].
  apply Forall2_length in Hall. rewrite length_fmap, length_app in Hall.
  apply sublist_length in Hsub. lia.
Qed.

(** [X7] The shape of the merged catalog: every record [merge_update] returns
    has the nine fields of the schema and no other, its text fields are
    strings without leading, trailing or repeated whitespace, and its
    subjects are a list of at least one string, none empty, none twice;
    whatever the records of the catalog and the incoming records hold. *)
Theorem merge_update_well_formed (existing new_entries : list entry) :
  ∃ out, merge_update existing new_entries = Some out ∧ Forall well_formed out.
Proof.
  destruct (merge_update_provenance_aux existing new_entries)
    as (out & added & Hout & _ & Hall).
  exists out. split; [done|].
  eapply Forall2_Forall_r; [exact Hall|].
  apply Forall_fmap, Forall_forall. intros e _ b. apply merged_from_well_formed.
  apply normalize_well_formed.
Qed.

(** ** The ordering stage: ties and repetition *)

Section Stable.

Context {A K : Type} (lt : K → K → bool) (key : A → K).

Hypothesis lt_asym : ∀ a b, lt a b = true → lt b a = false.
Hypothesis not_lt_trans :
  ∀ a b c, lt b a = false → lt c b = false → lt c a = false.

(** Two keys tie: neither is less than the other. *)
Definition tie (a b : K) : bool := negb (lt a b) && negb (lt b a).

Lemma insert_by_in_place (x : A) (l : list A) :
  StronglySorted (not_after lt key) (x :: l) → insert_by lt key x l = x :: l.
Proof.
  intros Hs. destruct l as [|y l]; [done|]. cbn [insert_by].
  apply StronglySorted_inv in Hs as [_ Hx].
  apply Forall_cons in Hx as [Hy _]. unfold not_after in Hy. by rewrite Hy.
Qed.

Lemma sorted_in_place (l : list A) :
  StronglySorted (not_after lt key) l → sorted lt key l = l.
Proof.
  induction l as [|x l IH]; [done|]. intros Hs. cbn [sorted foldr].
  pose proof (StronglySorted_inv Hs) as [Hl _].
  unfold sorted in IH. rewrite IH by done. by apply insert_by_in_place.
Qed.

Lemma sorted_idem (l : list A) : sorted lt key (sorted lt key l) = sorted lt key l.
Proof. by apply sorted_in_place, sorted_sorted. Qed.

Lemma tie_not_lt (k a b : K) : tie a k = true → tie b k = true → lt b a = false.
Proof.
  unfold tie. intros [Hak Hka]%andb_true_iff [Hbk Hkb]%andb_true_iff.
  apply negb_true_iff in Hak, Hka, Hbk, Hkb.
  by apply (not_lt_trans a k b).
Qed.

Lemma insert_by_filter (k : K) (x : A) (l : list A) :
  filter (λ a, tie (key a) k = true) (insert_by lt key x l)
  = filter (λ a, tie (key a) k = true) (x :: l).
Proof.
  induction l as [|y l IH]; [done|]. cbn [insert_by].
  destruct (lt (key y) (key x)) eqn:Hyx; [|done].
  rewrite (filter_cons _ y), IH, !(filter_cons _ x), (filter_cons _ y).
  destruct (decide (tie (key x) k = true)) as [Hx|Hx]; [|done].
  destruct (decide (tie (key y) k = true)) as [Hy|Hy]; [|done].
  by rewrite (tie_not_lt k _ _ Hx Hy) in Hyx.
Qed.

Lemma sorted_stable (k : K) (l : list A) :
  filter (λ a, tie (key a) k = true) (sorted lt key l)
  = filter (λ a, tie (key a) k = true) l.
Proof.
  induction l as [|x l IH]; [done|]. cbn [sorted foldr].
  rewrite insert_by_filter, !(filter_cons _ x). unfold sorted in IH. by rewrite IH.
Qed.

End Stable.

(** [X8] [sort_output] is stable and sorting twice changes nothing: the
    records whose key ties with a given key (neither key less than the other)
    stand in the output in the order they have in the input, and the output
    sorted again is the output. *)
Theorem sort_output_stable
    (fromisoformat_timestamp : string → option Q)
    (naive_timestamp : Date.date → option Q) (entries : list entry) :
  (∀ k : sort_key,
     filter (λ e, tie key_lt (_key fromisoformat_timestamp naive_timestamp e) k = true)
            (sort_output fromisoformat_timestamp naive_timestamp entries)
     = filter (λ e, tie key_lt (_key fromisoformat_timestamp naive_timestamp e) k = true)
              entries)
  ∧ sort_output fromisoformat_timestamp naive_timestamp
      (sort_output fromisoformat_timestamp naive_timestamp entries)
    = sort_output fromisoformat_timestamp naive_timestamp entries.
Proof.
  split.
  - intros k. apply sorted_stable, key_not_lt_trans.
  - apply sorted_idem; [apply key_lt_asym | apply key_not_lt_trans].
Qed.

(** ** The matcher: what a pattern cannot match *)

Module Engine.

(** [t] is what is left of [s] behind some of its characters. *)
Inductive suffix : string → string → Prop :=
| suffix_refl s : suffix s s
| suffix_skip c s t : suffix t s → suffix t (String c s).

Lemma suffix_trans s t u : suffix u t → suffix t s → suffix u s.
Proof. intros Hut Hts. induction Hts; [done|]. by constructor; apply IHHts. Qed.

Lemma suffix_length s t : suffix t s → (String.length t ≤ String.length s)%nat.
Proof. induction 1; cbn [String.length]; lia. Qed.

Lemma elem_of_flat_map {A B} (f : A → list B) (l : list A) (y : B) :
  y ∈ flat_map f l ↔ ∃ x, x ∈ l ∧ y ∈ f x.
Proof.
  rewrite list_elem_of_In, in_flat_map. by setoid_rewrite list_elem_of_In.
Qed.

Lemma flat_map_nil {A B} (f : A → list B) (l : list A) :
  (∀ x, x ∈ l → f x = []) → flat_map f l = [].
Proof.
  induction l as [|x l IH]; [done|]. intros H. cbn [flat_map].
  rewrite (H x) by (apply elem_of_cons; by left). apply IH.
  intros y Hy. apply H. apply elem_of_cons. by right.
Qed.

Lemma star_loop_suffix (step : mstate → list mstate) (n : nat) :
  (∀ st st', st' ∈ step st → suffix (rest st') (rest st)) →
  ∀ st st', st' ∈ star_loop step n st → suffix (rest st') (rest st).
Proof.
  intros Hstep. induction n as [|n IH]; intros st st' Hin; cbn [star_loop] in Hin.
  - apply list_elem_of_singleton in Hin as ->. constructor.
  - apply elem_of_app in Hin as [Hin | Hin].
    + apply elem_of_flat_map in Hin as (st1 & H1 & Hin).
      destruct (0 <? consumed st st1)%nat; [|by apply elem_of_nil in Hin].
      apply IH in Hin. eapply suffix_trans; [exact Hin|]. by apply Hstep.
    + apply list_elem_of_singleton in Hin as ->. constructor.
Qed.

Lemma lazy_loop_suffix (step : mstate → list mstate) (n : nat) :
  (∀ st st', st' ∈ step st → suffix (rest st') (rest st)) →
  ∀ st st', st' ∈ lazy_loop step n st → suffix (rest st') (rest st).
Proof.
  intros Hstep. induction n as [|n IH]; intros st st' Hin; cbn [lazy_loop] in Hin.
  - apply list_elem_of_singleton in Hin as ->. constructor.
  - apply elem_of_cons in Hin as [-> | Hin]; [constructor|].
    apply elem_of_flat_map in Hin as (st1 & H1 & Hin).
    destruct (0 <? consumed st st1)%nat; [|by apply elem_of_nil in Hin].
    apply IH in Hin. eapply suffix_trans; [exact Hin|]. by apply Hstep.
Qed.

(** A match ends behind the position it starts at. *)
Lemma run_suffix (r : regex) (st st' : mstate) :
  st' ∈ run r st → suffix (rest st') (rest st).
Proof.
  revert st st'. induction r as [|p|r1 IH1 r2 IH2|r1 IH1 r2 IH2|r IH|r IH|g r IH| | |];
    intros st st' Hin; cbn [run] in Hin.
  - apply list_elem_of_singleton in Hin as ->. constructor.
  - destruct (rest st) as [|c s] eqn:Hs; [by apply elem_of_nil in Hin|].
    destruct (p c); [|by apply elem_of_nil in Hin].
    apply list_elem_of_singleton in Hin as ->. cbn [rest]. constructor. constructor.
  - apply elem_of_flat_map in Hin as (st1 & H1 & Hin).
    eapply suffix_trans; [by apply IH2 | by apply IH1].
  - apply elem_of_app in Hin as [Hin | Hin]; [by apply IH1 | by apply IH2].
  - by apply (star_loop_suffix _ _ IH) in Hin.
  - by apply (lazy_loop_suffix _ _ IH) in Hin.
  - apply list_elem_of_fmap in Hin as (st1 & -> & Hin). cbn [rest]. by apply IH.
  - destruct (xorb _ _); [|by apply elem_of_nil in Hin].
    apply list_elem_of_singleton in Hin as ->. constructor.
  - destruct (before st); [|by apply elem_of_nil in Hin].
    apply list_elem_of_singleton in Hin as ->. constructor.
  - destruct (at_end st); [|by apply elem_of_nil in Hin].
    apply list_elem_of_singleton in Hin as ->. constructor.
Qed.

(** No character of [s] is of the class [p]. *)
Fixpoint none_of (p : ascii → bool) (s : string) : bool :=
  match s with
  | EmptyString => true
  | String c s' => negb (p c) && none_of p s'
  end.

Lemma none_of_suffix p s t : suffix t s → none_of p s = true → none_of p t = true.
Proof.
  induction 1 as [|c s t _ IH]; [done|]. cbn [none_of].
  intros [_ H]%andb_true_iff. by apply IH.
Qed.

(** The characters of U+0000..U+00FF. *)
Definition all_chars : list ascii := map (λ n, ascii_of_nat n) (List.seq 0 256).

Lemma all_chars_all (c : ascii) : c ∈ all_chars.
Proof.
  apply list_elem_of_In. unfold all_chars. apply in_map_iff.
  exists (nat_of_ascii c). split; [apply ascii_nat_embedding|].
  apply in_seq. pose proof (nat_ascii_bounded c). lia.
Qed.

(** Every character of the class [q] is of the class [p]. *)
Definition subclass (q p : ascii → bool) : bool :=
  forallb (λ c, implb (q c) (p c)) all_chars.

Lemma subclass_spec q p c : subclass q p = true → q c = true → p c = true.
Proof.
  unfold subclass. rewrite forallb_forall. intros H Hq.
  specialize (H c (proj1 (list_elem_of_In _ _) (all_chars_all c))).
  by rewrite Hq in H.
Qed.

(** Every match of [r] has a character of the class [p]: a sufficient
    condition, read off the pattern. *)
Fixpoint needs (p : ascii → bool) (r : regex) : bool :=
  match r with
  | Chr q => subclass q p
  | Cat r1 r2 => needs p r1 || needs p r2
  | Alt r1 r2 => needs p r1 && needs p r2
  | Grp _ r' => needs p r'
  | _ => false
  end.

Lemma run_needs (p : ascii → bool) (r : regex) (st : mstate) :
  needs p r = true → none_of p (rest st) = true → run r st = [].
Proof.
  revert st. induction r as [|q|r1 IH1 r2 IH2|r1 IH1 r2 IH2|r IH|r IH|g r IH| | |];
    intros st Hn Hs; cbn [needs] in Hn; try done; cbn [run].
  - destruct (rest st) as [|c s]; [done|]. cbn [none_of] in Hs.
    apply andb_true_iff in Hs as [Hc _]. destruct (q c) eqn:Hq; [|done].
    by rewrite (subclass_spec _ _ _ Hn Hq) in Hc.
  - apply orb_true_iff in Hn as [Hn | Hn]; [by rewrite IH1|].
    apply flat_map_nil. intros st1 H1. apply IH2; [done|].
    eapply none_of_suffix; [by apply run_suffix in H1 | done].
  - apply andb_true_iff in Hn as [H1 H2]. by rewrite IH1, IH2.
  - by rewrite IH.
Qed.

Lemma search_from_needs (p : ascii → bool) (r : regex) (n : nat) (st : mstate) :
  needs p r = true → none_of p (rest st) = true → search_from n r st = None.
Proof.
  intros Hn. revert st. induction n as [|n IH]; intros st Hs; cbn [search_from];
    unfold match_at; rewrite (run_needs p r st Hn Hs); cbn [head].
  - done.
  - unfold advance. destruct (rest st) as [|c s] eqn:Hr; [done|].
    apply IH. cbn [rest]. cbn [none_of] in Hs. by apply andb_true_iff in Hs as [_ ?].
Qed.

(** Where [re.search] finds nothing, [re.sub] changes nothing. *)
Lemma sub_from_none (r : regex) (repl : string) (n : nat) (st : mstate) :
  n = String.length (rest st) → groups st = [] →
  search_from n r st = None → sub_from n r repl st = rest st.
Proof.
  revert st. induction n as [|n IH]; intros [b s g] Hlen Hg Hsearch;
    cbn [rest groups] in *; subst g; cbn [search_from sub_from] in *;
    destruct (match_at r (MState b s [])) eqn:Hm; try done.
  destruct s as [|c s]; [done|]. cbn [rest before advance] in *.
  unfold advance in Hsearch. cbn [rest before groups] in Hsearch.
  f_equal. rewrite IH; [done | | done | done].
  cbn [rest String.length] in *. lia.
Qed.

Lemma re_sub_none (r : regex) (repl s : string) :
  re_search r s = None → re_sub r repl s = s.
Proof. intros H. unfold re_sub. by rewrite sub_from_none. Qed.

Lemma re_sub_needs (p : ascii → bool) (r : regex) (repl s : string) :
  needs p r = true → none_of p s = true → re_sub r repl s = s.
Proof. intros Hn Hs. apply re_sub_none. by apply (search_from_needs p). Qed.

Lemma re_match_needs (p : ascii → bool) (r : regex) (s : string) :
  needs p r = true → none_of p s = true → re_match r s = None.
Proof. intros Hn Hs. unfold re_match, match_at. by rewrite (run_needs p r). Qed.

(** The most characters a match of [r] takes; [None] when the pattern sets
    no bound. *)
Fixpoint max_len (r : regex) : option nat :=
  match r with
  | Chr _ => Some 1%nat
  | Cat r1 r2 =>
      match max_len r1, max_len r2 with
      | Some a, Some b => Some (a + b)%nat
      | _, _ => None
      end
  | Alt r1 r2 =>
      match max_len r1, max_len r2 with
      | Some a, Some b => Some (a `max` b)%nat
      | _, _ => None
      end
  | Grp _ r' => max_len r'
  | Star _ | Lazy _ => None
  | _ => Some 0%nat
  end.

Lemma run_max_len (r : regex) (n : nat) (st st' : mstate) :
  max_len r = Some n → st' ∈ run r st →
  (String.length (rest st) ≤ String.length (rest st') + n)%nat.
Proof.
  revert n st st'.
  induction r as [|p|r1 IH1 r2 IH2|r1 IH1 r2 IH2|r IH|r IH|g r IH| | |];
    intros n st st' Hn Hin; cbn [max_len] in Hn; try done; cbn [run] in Hin.
  - apply list_elem_of_singleton in Hin as ->. lia.
  - destruct (rest st) as [|c s] eqn:Hs; [by apply elem_of_nil in Hin|].
    destruct (p c); [|by apply elem_of_nil in Hin].
    apply list_elem_of_singleton in Hin as ->. injection Hn as <-.
    cbn [rest String.length]. lia.
  - destruct (max_len r1) as [a|]; [|done]. destruct (max_len r2) as [b|]; [|done].
    injection Hn as <-. apply elem_of_flat_map in Hin as (st1 & H1 & Hin).
    specialize (IH1 a st st1 eq_refl H1). specialize (IH2 b st1 st' eq_refl Hin). lia.
  - destruct (max_len r1) as [a|]; [|done]. destruct (max_len r2) as [b|]; [|done].
    injection Hn as <-. apply elem_of_app in Hin as [Hin | Hin].
    + specialize (IH1 a st st' eq_refl Hin). lia.
    + specialize (IH2 b st st' eq_refl Hin). lia.
  - apply list_elem_of_fmap in Hin as (st1 & -> & Hin). cbn [rest]. by apply IH.
  - destruct (xorb _ _); [|by apply elem_of_nil in Hin].
    apply list_elem_of_singleton in Hin as ->. injection Hn as <-. lia.
  - destruct (before st); [|by apply elem_of_nil in Hin].
    apply list_elem_of_singleton in Hin as ->. injection Hn as <-. lia.
  - destruct (at_end st); [|by apply elem_of_nil in Hin].
    apply list_elem_of_singleton in Hin as ->. injection Hn as <-. lia.
Qed.

(** [strptime] rejects a string without a character the format needs, and
    a string longer than what the format can take. *)
Lemma strptime_needs (p : ascii → bool) (s fmt : string) (rs : list regex) :
  Date.pattern false fmt = Some rs → needs p (seq rs) = true → none_of p s = true →
  Date.strptime s fmt = None.
Proof.
  intros Hp Hn Hs. unfold Date.strptime. rewrite Hp.
  by rewrite (re_match_needs p).
Qed.

Lemma strptime_too_long (s fmt : string) (rs : list regex) (n : nat) :
  Date.pattern false fmt = Some rs → max_len (seq rs) = Some n →
  (n < String.length s)%nat → Date.strptime s fmt = None.
Proof.
  intros Hp Hn Hs. unfold Date.strptime. rewrite Hp.
  destruct (re_match (seq rs) s) as [m|] eqn:Hm; [|done].
  unfold re_match, match_at in Hm. apply head_Some_elem_of in Hm.
  apply (run_max_len _ n) in Hm; [|done]. cbn [start rest] in Hm.
  destruct (rest m); [cbn [String.length] in Hm; lia | done].
Qed.

End Engine.

(** ** Deadlines in ISO 8601 *)

Lemma digit_not (p : ascii → bool) (n : nat) :
  Engine.subclass Chars.isdigit (λ c, negb (p c)) = true → p (Date.digit_char n) = false.
Proof.
  intros H. apply negb_true_iff.
  apply (Engine.subclass_spec _ _ _ H), digit_char_isdigit.
Qed.

Lemma iso_pattern_match (y1 y2 y3 y4 m1 m2 d1 d2 h1 h2 n1 n2 s1 s2 o1 o2 p1 p2 sg : ascii) :
  Forall (λ c, Chars.isdigit c = true)
         [y1; y2; y3; y4; m1; m2; d1; d2; h1; h2; n1; n2; s1; s2; o1; o2; p1; p2] →
  sg = "+"%char ∨ sg = "-"%char →
  re_match Utc.iso_pattern
    (String y1 (String y2 (String y3 (String y4 (String "-" (String m1 (String m2
      (String "-" (String d1 (String d2 (String "T" (String h1 (String h2 (String ":"
        (String n1 (String n2 (String ":" (String s1 (String s2 (String sg
          (String o1 (String o2 (String ":" (String p1 (String p2 "")))))))))))))))))))))))))
  = Some (MState [p2; p1; ":"%char; o2; o1; sg; s2; s1; ":"%char; n2; n1; ":"%char; h2; h1;
                  "T"%char; d2; d1; "-"%char; m2; m1; "-"%char; y4; y3; y2; y1] ""
            [("i"%char, String p1 (String p2 ""));
             ("h"%char, String o1 (String o2 ""));
             ("s"%char, String sg "");
             ("S"%char, String s1 (String s2 ""));
             ("M"%char, String n1 (String n2 ""));
             ("H"%char, String h1 (String h2 ""));
             ("d"%char, String d1 (String d2 ""));
             ("m"%char, String m1 (String m2 ""));
             ("Y"%char, String y1 (String y2 (String y3 (String y4 ""))))]).
Proof.
  intros Hd Hsg. repeat (apply Forall_cons in Hd as [? Hd]).
  unfold re_match, match_at, Utc.iso_pattern, start.
  destruct Hsg as [-> | ->].
  all: repeat (progress (repeat match goal with H : Chars.isdigit _ = true |- _ => rewrite H end;
                  cbn -[Chars.isdigit])).
  all: reflexivity.
Qed.

Lemma digit_char_value (n : nat) :
  N.to_nat (Chars.code (Date.digit_char n) - 48) = (n mod 10)%nat.
Proof.
  unfold Date.digit_char, Chars.code.
  assert (n mod 10 < 10)%nat as H by (apply Nat.mod_upper_bound; lia).
  rewrite N_ascii_embedding by lia. lia.
Qed.

Lemma int_acc_digit (acc n : nat) (s : string) :
  Date.int_acc acc (String (Date.digit_char n) s)
  = Date.int_acc (10 * acc + n mod 10) s.
Proof. cbn [Date.int_acc]. by rewrite digit_char_isdigit, digit_char_value. Qed.

Lemma int_two_digits (n : nat) : (n < 100)%nat → Date.int (Date.two_digits n) = n.
Proof.
  intros Hn. unfold Date.int, Date.two_digits. rewrite !int_acc_digit. cbn [Date.int_acc].
  rewrite (Nat.mod_small (n / 10)) by (apply Nat.Div0.div_lt_upper_bound; lia).
  pose proof (Nat.div_mod_eq n 10). lia.
Qed.

Lemma int_four_digits (n : nat) : (n < 10 * 1000)%nat → Date.int (Date.four_digits n) = n.
Proof.
  intros Hn. unfold Date.int, Date.four_digits. rewrite !int_acc_digit. cbn [Date.int_acc].
  assert (n / 100 = n / 10 / 10)%nat as -> by (rewrite Nat.Div0.div_div; reflexivity).
  assert (n / 1000 = n / 10 / 10 / 10)%nat as -> by (rewrite !Nat.Div0.div_div; reflexivity).
  assert (n / 10 / 10 / 10 < 10)%nat as Hs.
  { repeat (apply Nat.Div0.div_lt_upper_bound). lia. }
  rewrite (Nat.mod_small _ _ Hs).
  pose proof (Nat.div_mod_eq n 10). pose proof (Nat.div_mod_eq (n / 10) 10).
  pose proof (Nat.div_mod_eq (n / 10 / 10) 10).
  lia.
Qed.

Lemma date_valid_bounds (d : Date.date) :
  Date.valid d = true →
  (1 ≤ Date.year d < 10 * 1000 ∧ 1 ≤ Date.month d ≤ 12 ∧ 1 ≤ Date.day d ≤ 31)%nat.
Proof.
  unfold Date.valid. intros H. repeat (apply andb_true_iff in H as [H ?]).
  repeat match goal with
         | H : (_ <=? _)%nat = true |- _ => apply Nat.leb_le in H
         | H : (_ <? _)%nat = true |- _ => apply Nat.ltb_lt in H
         end.
  assert (Date.days_in_month (Date.year d) (Date.month d) ≤ 31)%nat.
  { unfold Date.days_in_month.
    destruct (Date.month d) as [|[|[|[|[|[|[|[|[|[|[|[|[|m]]]]]]]]]]]]]; try lia.
    destruct (Date.is_leap _); lia. }
  lia.
Qed.

(** The instant of a date and time of the day at the offset [off], in
    seconds since the epoch. *)
Definition instant (dt : DateTime.datetime) (off : Z) : Q :=
  inject_Z (Utc.days_from_civil (DateTime.date_of dt) * 86400
            + Z.of_nat (DateTime.hour dt * 3600 + DateTime.minute dt * 60
                        + DateTime.second dt)
            - off * 3600).

Lemma fromisoformat_isoformat (dt : DateTime.datetime) (off : Z) :
  DateTime.valid dt = true → (-24 < off < 24)%Z →
  Utc.fromisoformat_timestamp (DateTime.isoformat dt off) = Some (instant dt off).
Proof.
  intros Hv Hoff. unfold DateTime.valid in Hv.
  apply andb_true_iff in Hv as [Hv Hss]. apply andb_true_iff in Hv as [Hv Hmm].
  apply andb_true_iff in Hv as [Hv Hhh].
  destruct (date_valid_bounds _ Hv) as (Hy & Hm & Hd).
  pose proof (proj1 (Nat.ltb_lt _ _) Hss). pose proof (proj1 (Nat.ltb_lt _ _) Hmm).
  pose proof (proj1 (Nat.ltb_lt _ _) Hhh).
  unfold instant.
  destruct dt as [[y mo d] hh mm ss]. cbn [DateTime.date_of DateTime.hour DateTime.minute
    DateTime.second Date.year Date.month Date.day] in *.
  unfold Utc.fromisoformat_timestamp, DateTime.isoformat.
  cbn [DateTime.date_of DateTime.hour DateTime.minute DateTime.second
       Date.year Date.month Date.day].
  change ":00" with (":" +:+ Date.two_digits 0).
  unfold Date.four_digits, Date.two_digits.
  assert (∀ n, Chars.isdigit (Date.digit_char n) = true) as Hdig
    by apply digit_char_isdigit.
  destruct (off <? 0)%Z eqn:Hneg; cbv beta iota delta [String.append];
    (erewrite iso_pattern_match; [|repeat constructor; apply Hdig|auto]).
  all: unfold Date.field, group; cbn [groups lookup_group Ascii.eqb Bool.eqb rest
         Str.is_empty default from_option id andb].
  all: fold (Date.four_digits y); fold (Date.two_digits mo); fold (Date.two_digits d);
       fold (Date.two_digits hh); fold (Date.two_digits mm); fold (Date.two_digits ss);
       fold (Date.two_digits (Z.to_nat (Z.abs off))); fold (Date.two_digits 0).
  all: rewrite int_four_digits, !int_two_digits by lia.
  all: rewrite Hv, Hhh, Hmm, Hss; cbn [andb].
  all: assert ((Z.to_nat (Z.abs off) <? 24)%nat = true) as -> by (apply Nat.ltb_lt; lia).
  all: cbn [andb Nat.ltb Nat.leb String.eqb Ascii.eqb Bool.eqb].
  all: do 2 f_equal; apply Z.ltb_lt in Hneg || apply Z.ltb_ge in Hneg; lia.
Qed.

(** The patterns of the noise [_clean_deadline_human] removes. *)
Definition noise_patterns : list regex :=
  [strike_marker; paren_note; in_days; clock_time; chr ";"].

(** A text in normal form without a character every noise pattern needs is
    left as it is. *)
Lemma strip_noise_fixed (p : ascii → bool) (s : string) :
  forallb (Engine.needs p) noise_patterns = true →
  Engine.none_of p s = true → Whitespace.normal s → strip_noise s = s.
Proof.
  intros Hn Hs Hnormal. unfold noise_patterns in Hn. cbn [forallb] in Hn.
  repeat (apply andb_true_iff in Hn as [? Hn]).
  unfold strip_noise.
  rewrite (Engine.re_sub_needs p strike_marker "" s) by done.
  rewrite (Engine.re_sub_needs p paren_note "" s) by done.
  rewrite (Engine.re_sub_needs p in_days "" s) by done.
  rewrite (Engine.re_sub_needs p clock_time "" s) by done.
  rewrite (Engine.re_sub_needs p (chr ";") "" s) by done.
  by apply norm_space_fixed.
Qed.

Lemma none_space_normal (s : string) :
  Engine.none_of Chars.isspace s = true → Whitespace.normal s.
Proof.
  induction s as [|c s IH]; [done|]. cbn [Engine.none_of].
  intros [Hc Hs]%andb_true_iff. destruct (IH Hs) as (H1 & H2 & H3).
  apply negb_true_iff in Hc. split; [|split].
  - cbn [Whitespace.spaced]. by rewrite Hc, H1.
  - done.
  - cbn [Whitespace.ends_space]. destruct s; done.
Qed.

(** The characters of an ISO deadline: digits, the two signs, [T] and the
    colon. *)
Definition iso_char (c : ascii) : bool :=
  Chars.isdigit c || Ascii.eqb c "-" || Ascii.eqb c "+" || Ascii.eqb c "T"
  || Ascii.eqb c ":".

Definition not_iso_char (c : ascii) : bool := negb (iso_char c).

Lemma isoformat_chars (dt : DateTime.datetime) (off : Z) :
  Engine.none_of not_iso_char (DateTime.isoformat dt off) = true
  ∧ String.length (DateTime.isoformat dt off) = 25%nat.
Proof.
  unfold DateTime.isoformat, Date.four_digits, Date.two_digits.
  assert (∀ n, not_iso_char (Date.digit_char n) = false) as Hd.
  { intros n. unfold not_iso_char, iso_char. by rewrite digit_char_isdigit. }
  destruct (off <? 0)%Z; cbv beta iota delta [String.append];
    cbn [Engine.none_of String.length]; rewrite !Hd; done.
Qed.

Lemma none_of_weaken (p q : ascii → bool) (s : string) :
  Engine.subclass q p = true → Engine.none_of p s = true → Engine.none_of q s = true.
Proof.
  intros Hqp. induction s as [|c s IH]; [done|]. cbn [Engine.none_of].
  intros [Hc Hs]%andb_true_iff. rewrite IH by done.
  destruct (q c) eqn:Hq; [|done].
  by rewrite (Engine.subclass_spec _ _ _ Hqp Hq) in Hc.
Qed.

Lemma strptime_spaceless (s fmt : string) :
  fmt ∈ ["%b %d %Y"; "%B %d %Y"; "%b %d, %Y"; "%B %d, %Y"] →
  Engine.none_of Chars.isspace s = true → Date.strptime s fmt = None.
Proof.
  intros Hfmt Hs. split_elem Hfmt;
    (eapply (Engine.strptime_needs Chars.isspace); [reflexivity | by vm_compute | done]).
Qed.

Lemma strptime_date_too_long (s : string) :
  (10 < String.length s)%nat → Date.strptime s "%Y-%m-%d" = None.
Proof.
  intros Hs. eapply (Engine.strptime_too_long _ _ _ 10); [reflexivity | by vm_compute | done].
Qed.

(** A text of the characters of an ISO deadline that is longer than a date
    is left as it is by [_clean_deadline_human]. *)
Lemma clean_deadline_iso (s : string) :
  Engine.none_of not_iso_char s = true → (10 < String.length s)%nat →
  _clean_deadline_human (VStr s) = s.
Proof.
  intros Hs Hlen.
  assert (Engine.none_of Chars.isspace s = true) as Hsp.
  { apply (none_of_weaken not_iso_char); [by vm_compute | done]. }
  pose proof (none_space_normal s Hsp) as Hnormal.
  unfold _clean_deadline_human. rewrite (Whitespace.strip_id s Hnormal).
  destruct s as [|c s']; [cbn in Hlen; lia|]. cbn [Str.is_empty].
  rewrite (strip_noise_fixed not_iso_char) by (done || by vm_compute).
  unfold deadline_formats, try_formats.
  rewrite !strptime_spaceless by (done || set_solver).
  by rewrite strptime_date_too_long.
Qed.

Lemma replace_Z_id (s : string) :
  Engine.none_of (λ c, Ascii.eqb c "Z") s = true → replace_Z s = s.
Proof.
  induction s as [|c s IH]; [done|]. cbn [Engine.none_of replace_Z].
  intros [Hc Hs]%andb_true_iff. apply negb_true_iff in Hc. by rewrite Hc, IH.
Qed.

Lemma ts_isoformat (dt : DateTime.datetime) (off : Z) :
  DateTime.valid dt = true → (-24 < off < 24)%Z →
  _ts Utc.fromisoformat_timestamp Utc.naive_timestamp (DateTime.isoformat dt off)
  = Some (instant dt off).
Proof.
  intros Hv Hoff. destruct (isoformat_chars dt off) as [Hc Hlen].
  assert (Engine.none_of Chars.isspace (DateTime.isoformat dt off) = true) as Hsp.
  { apply (none_of_weaken not_iso_char); [by vm_compute | done]. }
  unfold _ts. rewrite safe_str_str, (Whitespace.strip_id _ (none_space_normal _ Hsp)).
  assert (Str.is_empty (DateTime.isoformat dt off) = false) as ->.
  { destruct (DateTime.isoformat dt off); [cbn in Hlen; lia | done]. }
  rewrite replace_Z_id.
  - by rewrite fromisoformat_isoformat.
  - apply (none_of_weaken not_iso_char); [by vm_compute | done].
Qed.

Lemma tz_offset_range (tz_str : value) (off : Z) :
  _tz_to_offset tz_str = Some off → (-24 < off < 24)%Z.
Proof.
  unfold _tz_to_offset.
  destruct (negb (Str.truthy _)); [intros [= <-]; lia|].
  destruct (String.eqb _ "aoe"); [intros [= <-]; lia|].
  destruct (Upper.upper_is _ "UTC"); [intros [= <-]; lia|].
  destruct (match Upper.upper _ with Some u => re_match utc_offset u | None => None end)
    as [m|]; [|intros [= <-]; lia].
  cbv zeta. destruct (Z.abs _ <? 24)%Z eqn:Hlt; [|done].
  intros [= <-]. apply Z.ltb_lt in Hlt. lia.
Qed.

Lemma datetime_strptime_valid (s fmt : string) (dt : DateTime.datetime) :
  DateTime.strptime s fmt = Some dt → DateTime.valid dt = true.
Proof.
  unfold DateTime.strptime.
  destruct (DateTime.pattern false fmt) as [rs|]; [|done].
  destruct (re_match (seq rs) s) as [m|]; [|done].
  destruct (negb (Str.is_empty (rest m))); [done|].
  destruct (DateTime.valid _) eqn:Hv; [|done]. by intros [= <-].
Qed.

Lemma upper_digit (c : ascii) :
  Chars.isdigit c = true → Upper.char c = Some (String c EmptyString).
Proof. destruct c as [[] [] [] [] [] [] [] []]; vm_compute; congruence. Qed.

Lemma none_of_app (p : ascii → bool) (s t : string) :
  Engine.none_of p (s +:+ t) = Engine.none_of p s && Engine.none_of p t.
Proof.
  induction s as [|c s IH]; [done|].
  change (String c s +:+ t) with (String c (s +:+ t)).
  cbn [Engine.none_of]. by rewrite IH, andb_assoc.
Qed.

Lemma upper_no_digit (s u : string) :
  Upper.upper s = Some u → Engine.none_of Chars.isdigit u = true →
  Engine.none_of Chars.isdigit s = true.
Proof.
  revert u. induction s as [|c s IH]; intros u; [done|]. cbn [Upper.upper].
  destruct (Upper.char c) as [uc|] eqn:Hc; [|done].
  destruct (Upper.upper s) as [us|]; [|done]. intros [= <-].
  rewrite none_of_app. intros [H1 H2]%andb_true_iff.
  cbn [Engine.none_of]. rewrite (IH us) by done.
  destruct (Chars.isdigit c) eqn:Hd; [|done].
  rewrite (upper_digit c Hd) in Hc. injection Hc as <-.
  cbn [Engine.none_of] in H1. by rewrite Hd in H1.
Qed.

Lemma datetime_strptime_needs (p : ascii → bool) (s fmt : string) (rs : list regex) :
  DateTime.pattern false fmt = Some rs → Engine.needs p (seq rs) = true →
  Engine.none_of p s = true → DateTime.strptime s fmt = None.
Proof.
  intros Hp Hn Hs. unfold DateTime.strptime. rewrite Hp.
  by rewrite (Engine.re_match_needs p).
Qed.

Lemma datetime_strptime_digit (s : string) :
  Engine.none_of Chars.isdigit s = true →
  DateTime.strptime s "%Y-%m-%d %H:%M:%S" = None.
Proof.
  intros Hs.
  eapply (datetime_strptime_needs Chars.isdigit); [reflexivity | by vm_compute | done].
Qed.

Lemma deadline_to_iso_parsed (deadline tz_str : value) (dt : DateTime.datetime) (off : Z) :
  DateTime.strptime (_safe_str deadline) "%Y-%m-%d %H:%M:%S" = Some dt →
  _tz_to_offset tz_str = Some off →
  _deadline_to_iso deadline tz_str = Some (DateTime.isoformat dt off).
Proof.
  intros Hp Htz. unfold _deadline_to_iso. rewrite Htz, Hp.
  destruct (Str.truthy (_safe_str deadline)) eqn:Ht.
  2:{ destruct (_safe_str deadline); [by vm_compute in Hp | done]. }
  destruct (Upper.upper_is (_safe_str deadline) "TBD") eqn:Hu; [|done].
  unfold Upper.upper_is in Hu.
  destruct (Upper.upper (_safe_str deadline)) as [u|] eqn:Hup; [|done].
  apply String.eqb_eq in Hu as ->.
  by rewrite (datetime_strptime_digit _ (upper_no_digit _ _ Hup eq_refl)) in Hp.
Qed.

(** [X9] A deadline of ccf-deadlines, from the source to the ordering stage.
    Where [_deadline_to_iso] parses the deadline and knows the time zone, it
    writes the ISO 8601 text of the date and time at that offset;
    [_clean_deadline_human] leaves that text as it is, and [_ts] (in a
    process whose time zone is UTC) reads from it the instant of that date
    and time at that offset. *)
Theorem ccf_deadline_survives (deadline tz_str : value) (dt : DateTime.datetime) (off : Z) :
  DateTime.strptime (_safe_str deadline) "%Y-%m-%d %H:%M:%S" = Some dt →
  _tz_to_offset tz_str = Some off →
  _deadline_to_iso deadline tz_str = Some (DateTime.isoformat dt off)
  ∧ _clean_deadline_human (VStr (DateTime.isoformat dt off)) = DateTime.isoformat dt off
  ∧ _ts Utc.fromisoformat_timestamp Utc.naive_timestamp (DateTime.isoformat dt off)
    = Some (instant dt off).
Proof.
  intros Hp Htz. split; [by apply deadline_to_iso_parsed|]. split.
  - destruct (isoformat_chars dt off) as [Hc Hlen]. apply clean_deadline_iso; [done|lia].
  - apply ts_isoformat; [by eapply datetime_strptime_valid | by eapply tz_offset_range].
Qed.

Lemma ccf_deadline_survives_witness :
  _deadline_to_iso (VStr "2026-01-15 23:59:59") (VStr "AoE")
    = Some "2026-01-15T23:59:59-12:00"
  ∧ _clean_deadline_human (VStr "2026-01-15T23:59:59-12:00") = "2026-01-15T23:59:59-12:00"
  ∧ _ts Utc.fromisoformat_timestamp Utc.naive_timestamp "2026-01-15T23:59:59-12:00"
    = Some (inject_Z 1768564799).
Proof.
  apply (ccf_deadline_survives (VStr "2026-01-15 23:59:59") (VStr "AoE")
           (DateTime.MkDateTime (Date.MkDate 2026 1 15) 23 59 59) (-12)%Z).
  - vm_compute; reflexivity.
  - vm_compute; reflexivity.
Defined.

(** What [_tz_to_offset] makes of "UTC+n" and "utc-n". *)
Definition utc_offset_ok (n : nat) : bool :=
  bool_decide (_tz_to_offset (VStr ("UTC+" +:+ pretty (Z.of_nat n)))
               = if (n <? 24)%nat then Some (Z.of_nat n) else None)
  && bool_decide (_tz_to_offset (VStr ("utc-" +:+ pretty (Z.of_nat n)))
                  = if (n <? 24)%nat then Some (- Z.of_nat n)%Z else None).

Lemma utc_offset_table : forallb utc_offset_ok (List.seq 0 100) = true.
Proof. vm_compute. reflexivity. Qed.

(** [X10] The offset of a time zone.  What [_tz_to_offset] returns is a whole
    number of hours strictly between -24 and 24.  For "UTC+n" and "utc-n"
    with n below 24 it is n and -n; with n from 24 to 99 the constructor
    [timezone] raises ValueError, which [_deadline_to_iso] does not catch:
    with such a time zone it raises for every deadline but an empty one and
    "TBD". *)
Theorem tz_to_offset_range (n : nat) (deadline : value) :
  (n < 100)%nat →
  (∀ tz_str off, _tz_to_offset tz_str = Some off → (-24 < off < 24)%Z)
  ∧ _tz_to_offset (VStr ("UTC+" +:+ pretty (Z.of_nat n)))
    = (if (n <? 24)%nat then Some (Z.of_nat n) else None)
  ∧ _tz_to_offset (VStr ("utc-" +:+ pretty (Z.of_nat n)))
    = (if (n <? 24)%nat then Some (- Z.of_nat n)%Z else None)
  ∧ ((24 ≤ n)%nat →
     _deadline_to_iso deadline (VStr ("UTC+" +:+ pretty (Z.of_nat n)))
     = if negb (Str.truthy (_safe_str deadline)) || Upper.upper_is (_safe_str deadline) "TBD"
       then Some "" else None).
Proof.
  intros Hn. split; [apply tz_offset_range|].
  pose proof utc_offset_table as Ht. rewrite forallb_forall in Ht.
  specialize (Ht n ltac:(apply in_seq; lia)). unfold utc_offset_ok in Ht.
  apply andb_true_iff in Ht as [H1 H2].
  apply bool_decide_eq_true in H1, H2.
  split; [done|]. split; [done|].
  intros H24. unfold _deadline_to_iso. rewrite H1.
  destruct (_ || _); [done|].
  by assert ((n <? 24)%nat = false) as -> by (apply Nat.ltb_ge; lia).
Qed.

Lemma tz_to_offset_range_witness :
  _deadline_to_iso (VStr "2026-01-15 23:59:59") (VStr "UTC+24") = None.
Proof.
  apply (proj2 (proj2 (proj2 (tz_to_offset_range 24 (VStr "2026-01-15 23:59:59")
                                ltac:(lia))))).
  lia.
Defined.

(** ** Dates in the form "Mon DD YYYY" *)

Ltac eval_classes :=
  repeat match goal with
    | H : Chars.isdigit ?c = _ |- context [Chars.isdigit ?c] => rewrite H
    | H : Chars.isspace ?c = _ |- context [Chars.isspace ?c] => rewrite H
    | |- context [if ?c then _ else _] =>
        let v := eval vm_compute in c in
        lazymatch v with true => idtac | false => idtac end;
        change c with v
    end.

Ltac run_symbolic :=
  repeat (progress (eval_classes; cbn -[Chars.isdigit Chars.isspace])).

(** The month of [%b] takes the abbreviation and nothing of the eight
    characters behind it. *)
Lemma month_run (mo : nat) (c1 c2 c3 c4 c5 c6 c7 c8 : ascii) :
  (1 ≤ mo ≤ 12)%nat →
  ∃ b l,
    run (Date.seqToRE Date.a_month "b")
        (start (nth mo Date.month_abbr "" +:+
                String c1 (String c2 (String c3 (String c4 (String c5 (String c6
                  (String c7 (String c8 "")))))))))
    = MState b (String c1 (String c2 (String c3 (String c4 (String c5 (String c6
                  (String c7 (String c8 ""))))))))
             [("b"%char, nth mo Date.month_abbr "")] :: l.
Proof.
  intros Hmo. destruct mo as [|[|[|[|[|[|[|[|[|[|[|[|[|mo]]]]]]]]]]]]]; try lia.
  all: eexists _, _; unfold start;
       match goal with |- run _ (MState _ ?s _) = _ =>
         let v := eval vm_compute in s in change s with v end;
       match goal with |- _ = MState _ _ ?g :: _ =>
         let v := eval vm_compute in g in change g with v end.
  all: run_symbolic; reflexivity.
Qed.

(** Behind the month: a space, the two digits of the day, a space and four
    digits. *)
Lemma day_year_run (dd : nat) (y1 y2 y3 y4 : ascii) (b : list ascii)
    (g : list (ascii * string)) :
  (1 ≤ dd ≤ 31)%nat →
  Forall (λ c, Chars.isdigit c = true) [y1; y2; y3; y4] →
  ∃ b',
    head (run (seq [plus ws; default Eps (Date.directive "d"); plus ws;
                    default Eps (Date.directive "Y")])
              (MState b (" " +:+ Date.two_digits dd +:+ " "
                         +:+ String y1 (String y2 (String y3 (String y4 "")))) g))
    = Some (MState b' ""
              (("Y"%char, String y1 (String y2 (String y3 (String y4 ""))))
               :: ("d"%char, Date.two_digits dd) :: g)).
Proof.
  intros Hdd Hd. repeat (apply Forall_cons in Hd as [? Hd]).
  assert (Chars.isspace y1 = false) by by apply isdigit_not_space.
  destruct dd as [|[|[|[|[|[|[|[|[|[|[|[|[|[|[|[|[|[|[|[|[|[|[|[|[|[|[|[|[|[|[|[|dd]]]]]]]]]]]]]]]]]]]]]]]]]]]]]]]]; try lia.
  all: eexists;
       match goal with |- head (run _ (MState _ ?s _)) = _ =>
         let v := eval vm_compute in s in change s with v end;
       match goal with |- _ = Some (MState _ _ (_ :: (_, ?d) :: _)) =>
         let v := eval vm_compute in d in change d with v end.
  all: run_symbolic; reflexivity.
Qed.

Lemma head_flat_map_cons {A B} (f : A → list B) (x : A) (l : list A) (y : B) :
  head (f x) = Some y → head (flat_map f (x :: l)) = Some y.
Proof. cbn [flat_map]. destruct (f x); [done|]. by intros [= ->]. Qed.

Lemma human_date_match (mo dd : nat) (y1 y2 y3 y4 : ascii) :
  (1 ≤ mo ≤ 12)%nat → (1 ≤ dd ≤ 31)%nat →
  Forall (λ c, Chars.isdigit c = true) [y1; y2; y3; y4] →
  ∃ b, re_match (seq [Date.seqToRE Date.a_month "b"; plus ws;
                      default Eps (Date.directive "d"); plus ws;
                      default Eps (Date.directive "Y")])
         (nth mo Date.month_abbr "" +:+ " " +:+ Date.two_digits dd +:+ " "
          +:+ String y1 (String y2 (String y3 (String y4 ""))))
       = Some (MState b ""
                 [("Y"%char, String y1 (String y2 (String y3 (String y4 ""))));
                  ("d"%char, Date.two_digits dd);
                  ("b"%char, nth mo Date.month_abbr "")]).
Proof.
  intros Hmo Hdd Hd.
  destruct (month_run mo " " (Date.digit_char (dd / 10)) (Date.digit_char dd) " "
              y1 y2 y3 y4 Hmo) as (b1 & l & Hrun).
  destruct (day_year_run dd y1 y2 y3 y4 b1 [("b"%char, nth mo Date.month_abbr "")]
              Hdd Hd) as (b2 & Hrest).
  exists b2. unfold re_match, match_at.
  change (seq (?r :: ?rs)) with (Cat r (seq rs)). cbn [run].
  change (" " +:+ Date.two_digits dd +:+ " " +:+ ?t)
    with (String " " (String (Date.digit_char (dd / 10))
            (String (Date.digit_char dd) (String " " t)))).
  rewrite Hrun. by apply head_flat_map_cons.
Qed.

Lemma month_abbr_index (mo : nat) :
  (1 ≤ mo ≤ 12)%nat →
  Date.index_of (Str.lower (nth mo Date.month_abbr "")) Date.a_month = Some mo.
Proof.
  intros Hmo.
  destruct mo as [|[|[|[|[|[|[|[|[|[|[|[|[|mo]]]]]]]]]]]]]; try lia; by vm_compute.
Qed.

Lemma digit_char_zero (n : nat) :
  (n mod 10 ≠ 0)%nat → Ascii.eqb (Date.digit_char n) "0" = false.
Proof.
  intros Hn. unfold Date.digit_char.
  assert (n mod 10 < 10)%nat as H by (apply Nat.mod_upper_bound; lia).
  destruct (n mod 10)%nat as [|[|[|[|[|[|[|[|[|[|k]]]]]]]]]]; try reflexivity; lia.
Qed.

Lemma drop_zeros_four_digits (y : nat) :
  (1000 ≤ y < 10 * 1000)%nat → Date.drop_zeros (Date.four_digits y) = Date.four_digits y.
Proof.
  intros Hy. unfold Date.four_digits. cbn [Date.drop_zeros].
  rewrite digit_char_zero; [done|].
  assert (1 ≤ y / 1000 < 10)%nat.
  { split; [apply Nat.div_le_lower_bound | apply Nat.Div0.div_lt_upper_bound]; lia. }
  rewrite Nat.mod_small; lia.
Qed.

(** What [strftime] writes, [strptime] reads back. *)
Lemma strptime_strftime (d : Date.date) :
  Date.valid d = true → (1000 ≤ Date.year d)%nat →
  Date.strptime (Date.strftime_b_d_Y d) "%b %d %Y" = Some d.
Proof.
  intros Hv Hy. destruct (date_valid_bounds d Hv) as (Hy' & Hmo & Hdd).
  destruct d as [y mo dd]. cbn [Date.year Date.month Date.day] in *.
  unfold Date.strftime_b_d_Y. cbn [Date.year Date.month Date.day].
  rewrite drop_zeros_four_digits by lia.
  destruct (human_date_match mo dd (Date.digit_char (y / 1000)) (Date.digit_char (y / 100))
              (Date.digit_char (y / 10)) (Date.digit_char y) Hmo Hdd) as [b Hm].
  { repeat constructor; apply digit_char_isdigit. }
  unfold Date.strptime.
  change (Date.pattern false "%b %d %Y")
    with (Some [Date.seqToRE Date.a_month "b"; plus ws; default Eps (Date.directive "d");
                plus ws; default Eps (Date.directive "Y")]).
  cbv beta iota. unfold Date.four_digits at 1.
  rewrite Hm. cbn [rest Str.is_empty negb].
  unfold Date.month_field, Date.field.
  cbn [groups lookup_group Ascii.eqb Bool.eqb].
  fold (Date.four_digits y).
  rewrite month_abbr_index, int_four_digits, int_two_digits by lia.
  cbn [default from_option id]. by rewrite Hv.
Qed.

(** The characters a rendered date has none of: each noise pattern needs
    one of them. *)
Definition noise_mark (c : ascii) : bool :=
  Ascii.eqb c "<" || Ascii.eqb c "(" || Ascii.eqb c ";" || Ascii.eqb c ":"
  || Chars.eqb_nocase "i" c || Ascii.eqb c "Z".

Lemma strftime_chars (d : Date.date) :
  (1 ≤ Date.month d ≤ 12)%nat →
  Engine.none_of noise_mark (Date.strftime_b_d_Y d) = true
  ∧ Str.is_empty (Date.strftime_b_d_Y d) = false
  ∧ Utc.fromisoformat_timestamp (Date.strftime_b_d_Y d) = None.
Proof.
  intros Hmo. unfold Date.strftime_b_d_Y, Date.two_digits.
  assert (Engine.none_of noise_mark (Date.drop_zeros (Date.four_digits (Date.year d)))
          = true) as Hy.
  { apply (none_of_weaken (λ c, negb (Chars.isdigit c))); [by vm_compute|].
    assert (all_digits (Date.four_digits (Date.year d)) = true) as Hd.
    { unfold Date.four_digits. cbn [all_digits]. by rewrite !digit_char_isdigit. }
    destruct (drop_zeros_digits _ Hd ltac:(done)) as [Hd' _].
    revert Hd'. generalize (Date.drop_zeros (Date.four_digits (Date.year d))).
    intros s. induction s as [|c s IH]; [done|]. cbn [all_digits Engine.none_of].
    intros [-> Hs]%andb_true_iff. by rewrite IH. }
  assert (∀ n, noise_mark (Date.digit_char n) = false) as Hdig.
  { intros n. apply digit_not. by vm_compute. }
  destruct (Date.month d) as [|[|[|[|[|[|[|[|[|[|[|[|[|mo]]]]]]]]]]]]]; try lia.
  all: cbv beta iota delta [nth Date.month_abbr String.append].
  all: split; [|split; [done|]].
  all: try (cbn [Engine.none_of]; rewrite !Hdig, Hy; by vm_compute).
  all: unfold Utc.fromisoformat_timestamp, re_match, match_at, Utc.iso_pattern, start.
  all: run_symbolic; reflexivity.
Qed.

Lemma clean_deadline_rendered (d : Date.date) :
  Date.valid d = true → (1000 ≤ Date.year d)%nat →
  _clean_deadline_human (VStr (Date.strftime_b_d_Y d)) = Date.strftime_b_d_Y d.
Proof.
  intros Hv Hy. destruct (date_valid_bounds d Hv) as (_ & Hmo & _).
  destruct (strftime_chars d Hmo) as (Hc & Hne & _).
  pose proof (strftime_normal d Hv) as Hnormal.
  unfold _clean_deadline_human. rewrite (Whitespace.strip_id _ Hnormal), Hne.
  rewrite (strip_noise_fixed noise_mark) by (done || by vm_compute).
  unfold deadline_formats, try_formats. by rewrite strptime_strftime.
Qed.

Lemma ts_rendered (d : Date.date) :
  Date.valid d = true → (1000 ≤ Date.year d)%nat →
  _ts Utc.fromisoformat_timestamp Utc.naive_timestamp (Date.strftime_b_d_Y d)
  = Some (inject_Z (Utc.days_from_civil d * 86400)).
Proof.
  intros Hv Hy. destruct (date_valid_bounds d Hv) as (_ & Hmo & _).
  destruct (strftime_chars d Hmo) as (Hc & Hne & Hiso).
  unfold _ts. rewrite safe_str_str, (Whitespace.strip_id _ (strftime_normal d Hv)), Hne.
  rewrite replace_Z_id by (apply (none_of_weaken noise_mark); [by vm_compute | done]).
  by rewrite Hiso, strptime_strftime.
Qed.

(** [X11] A date in the form the program writes.  For a date [d] that exists,
    of a year from 1000 on, and its rendering "Mon DD YYYY": [strptime] reads
    [d] back from it, [_clean_deadline_human] returns it unchanged (so a
    date field that was parsed once stays as it is in every later pass),
    and [_ts] (in a process whose time zone is UTC) reads from it the
    midnight of [d]. *)
Theorem rendered_date_round_trip (d : Date.date) :
  Date.valid d = true → (1000 ≤ Date.year d)%nat →
  Date.strptime (Date.strftime_b_d_Y d) "%b %d %Y" = Some d
  ∧ _clean_deadline_human (VStr (Date.strftime_b_d_Y d)) = Date.strftime_b_d_Y d
  ∧ _ts Utc.fromisoformat_timestamp Utc.naive_timestamp (Date.strftime_b_d_Y d)
    = Some (inject_Z (Utc.days_from_civil d * 86400)).
Proof.
  intros Hv Hy. split; [by apply strptime_strftime|].
  split; [by apply clean_deadline_rendered | by apply ts_rendered].
Qed.

Lemma rendered_date_round_trip_witness :
  Date.strptime "Jan 05 2026" "%b %d %Y" = Some (Date.MkDate 2026 1 5)
  ∧ _clean_deadline_human (VStr "Jan 05 2026") = "Jan 05 2026"
  ∧ _ts Utc.fromisoformat_timestamp Utc.naive_timestamp "Jan 05 2026"
    = Some (inject_Z 1767571200).
Proof.
  apply (rendered_date_round_trip (Date.MkDate 2026 1 5)).
  - vm_compute; reflexivity.
  - vm_compute. lia.
Defined.

(** ** The run: what is written *)

(** [X12] Steps 5 to 7 of [main], for every catalog and every list of
    incoming records: the steps raise nothing; the catalog that is written
    holds the records [merge_update] returns, each normalized once more, in
    the order of [sort_output]; it is never shorter than the catalog that was
    read and longer by at most the number of incoming records; and every
    record of it has the nine fields of the schema, text without stray
    whitespace and at least one subject. *)
Theorem main_merge_spec
    (fromisoformat_timestamp : string → option Q)
    (naive_timestamp : Date.date → option Q)
    (existing new_entries : list entry) :
  ∃ merged out,
    merge_update existing (map normalize_entry_fields new_entries) = Some merged
    ∧ main_merge fromisoformat_timestamp naive_timestamp existing new_entries = Some out
    ∧ out ≡ₚ normalize_entry_fields <$> merged
    ∧ (length existing ≤ length out ≤ length existing + length new_entries)%nat
    ∧ Forall well_formed out
    ∧ ∀ i j a b, (i < j)%nat → out !! i = Some a → out !! j = Some b →
        in_order fromisoformat_timestamp naive_timestamp a b.
Proof.
  destruct (merge_update_provenance_aux existing (map normalize_entry_fields new_entries))
    as (merged & added & Hm & Hsub & Hall).
  exists merged. eexists. split; [done|].
  unfold main_merge. rewrite Hm. split; [reflexivity|].
  assert (sort_output fromisoformat_timestamp naive_timestamp
            (map normalize_entry_fields merged)
          ≡ₚ normalize_entry_fields <$> merged) as Hperm by apply sorted_perm.
  split; [done|]. split; [|split].
  - rewrite Hperm, length_fmap.
    apply Forall2_length in Hall. rewrite length_fmap, length_app in Hall.
    apply sublist_length in Hsub. rewrite length_map in Hsub. lia.
  - rewrite Hperm. apply Forall_fmap, Forall_forall. intros e _.
    apply normalize_well_formed.
  - intros i j a b. apply sort_output_in_order.
Qed.

(** ** The date range of a conference *)

(** The three forms of the docstring of [_parse_ccf_date_range], and
    texts it gives up on. *)
Example parse_ccf_date_range_samples :
  map (λ s, _parse_ccf_date_range (VStr s) 2026)
    ["June 12-17, 2026"; "April 29-May 4, 2026"; "May 19, 2026"; "Sept 3-5, 2026";
     "Dec 30, 2026 - Jan 2, 2027"; "June 12-17"; "TBD"; "June 31, 2026"; ""]
  = [("Jun 12 2026", "Jun 17 2026"); ("Apr 29 2026", "May 04 2026");
     ("May 19 2026", "May 19 2026"); ("Sep 03 2026", "Sep 05 2026");
     ("", ""); ("Jun 12 2026", "Jun 17 2026"); ("", ""); ("", ""); ("", "")].
Proof. vm_compute. reflexivity. Qed.

Lemma strftime_nonempty (d : Date.date) :
  Date.valid d = true → Date.strftime_b_d_Y d ≠ "".
Proof.
  intros Hv. destruct (date_valid_bounds d Hv) as (_ & Hmo & _).
  destruct (strftime_chars d Hmo) as (_ & Hne & _). by intros E; rewrite E in Hne.
Qed.

(** The text [_parse_ccf_date_range] splits and parses: the text it is
    given, without the year and with the abbreviated months written out. *)
Definition range_text (date_str : value) (year : Z) : string :=
  foldl (λ s '(abbr, full), re_sub (seq [WordB; lit abbr; WordB]) full s)
    (Str.strip (re_sub (seq [WordB; lit (pretty year); WordB]) ""
       (re_sub (seq [chr ","; Star ws; lit (pretty year); WordB]) ""
          (_safe_str date_str))))
    _MONTH_MAP.

(** [X13] The two dates of [_parse_ccf_date_range] come together or not at
    all: either both are empty, or both are the renderings "Mon DD YYYY" of
    dates that exist (and neither is empty).  An empty text gives two empty
    dates, and a text that has no hyphen once the year is removed gives the
    same date twice. *)
Theorem parse_ccf_date_range_cases (date_str : value) (year : Z) :
  (_parse_ccf_date_range date_str year = ("", "")
   ∨ ∃ d1 d2, Date.valid d1 = true ∧ Date.valid d2 = true
       ∧ _parse_ccf_date_range date_str year
         = (Date.strftime_b_d_Y d1, Date.strftime_b_d_Y d2)
       ∧ Date.strftime_b_d_Y d1 ≠ "" ∧ Date.strftime_b_d_Y d2 ≠ "")
  ∧ (_safe_str date_str = "" → _parse_ccf_date_range date_str year = ("", ""))
  ∧ (Py.contains_char "-"%char (range_text date_str year) = false →
     (_parse_ccf_date_range date_str year).1 = (_parse_ccf_date_range date_str year).2).
Proof.
  unfold _parse_ccf_date_range, range_text. split; [|split].
  - destruct (negb (Str.truthy (_safe_str date_str))); [by left|]. cbv zeta.
    destruct (negb (Py.contains_char "-"%char _)).
    + destruct (Date.strptime _ _) as [dt|] eqn:Hp; [|by left].
      right. exists dt, dt. pose proof (strptime_valid _ _ _ Hp) as Hv.
      repeat split; try done; by apply strftime_nonempty.
    + destruct (split_hyphen _) as [l r].
      match goal with |- context [match Date.strptime ?a ?b with _ => _ end] =>
        destruct (Date.strptime a b) as [d1|] eqn:H1 end; [|by left].
      match goal with |- context [match Date.strptime ?a ?b with _ => _ end] =>
        destruct (Date.strptime a b) as [d2|] eqn:H2 end; [|by left].
      right. exists d1, d2.
      pose proof (strptime_valid _ _ _ H1). pose proof (strptime_valid _ _ _ H2).
      repeat split; try done; by apply strftime_nonempty.
  - intros ->. done.
  - intros Hc. destruct (negb (Str.truthy (_safe_str date_str))); [done|].
    cbv zeta. rewrite Hc. cbn [negb]. by destruct (Date.strptime _ _).
Qed.

(** ** The match keys *)

Module Keys.

(** What [re.sub] with the pattern [[p]+] and the replacement [""] computes:
    the characters of the class [p] are dropped. *)
Fixpoint remove (p : ascii → bool) (s : string) : string :=
  match s with
  | EmptyString => EmptyString
  | String c s' => if p c then remove p s' else String c (remove p s')
  end.

(** [s] without its leading characters of the class [p]. *)
Fixpoint skip (p : ascii → bool) (s : string) : string :=
  match s with
  | EmptyString => EmptyString
  | String c s' => if p c then skip p s' else s
  end.

Lemma skip_length p s : (String.length (skip p s) ≤ String.length s)%nat.
Proof.
  induction s as [|c s IH]; [done|]. cbn [skip].
  destruct (p c); cbn [String.length]; lia.
Qed.

Lemma remove_skip p s : remove p (skip p s) = remove p s.
Proof.
  induction s as [|c s IH]; [done|]. cbn [skip remove].
  destruct (p c) eqn:Hc; [done|]. cbn [remove]. by rewrite Hc.
Qed.

Lemma run_chr p b s g :
  run (Chr p) (MState b s g) =
    match s with
    | String c s' => if p c then [MState (c :: b) s' g] else []
    | EmptyString => []
    end.
Proof. reflexivity. Qed.

Lemma star_class_head p (n : nat) b s g :
  (String.length s ≤ n)%nat →
  ∃ b' tl, star_loop (run (Chr p)) n (MState b s g) = MState b' (skip p s) g :: tl.
Proof.
  revert b s. induction n as [|n IH]; intros b s Hlen.
  - destruct s; [|cbn in Hlen; lia]. by eexists _, _.
  - cbn [star_loop]. rewrite run_chr. destruct s as [|c s]; [by eexists _, _|].
    cbn [skip].
    destruct (p c) eqn:Hc; [|by eexists _, _].
    cbn [flat_map]. unfold consumed. cbn [rest String.length].
    replace (S (String.length s) - String.length s)%nat with 1%nat by lia.
    cbn [Nat.ltb Nat.leb].
    destruct (IH (c :: b) s ltac:(cbn in Hlen; lia)) as (b' & tl & ->).
    by eexists _, _.
Qed.

Lemma match_class_plus p b s g :
  match s with
  | String c s' =>
      if p c
      then ∃ b', match_at (plus (Chr p)) (MState b s g) = Some (MState b' (skip p s') g)
      else match_at (plus (Chr p)) (MState b s g) = None
  | EmptyString => match_at (plus (Chr p)) (MState b s g) = None
  end.
Proof.
  destruct s as [|c s']; [done|]. unfold match_at, plus.
  change (run (Cat (Chr p) (Star (Chr p))) ?st)
    with (flat_map (run (Star (Chr p))) (run (Chr p) st)).
  rewrite run_chr.
  destruct (p c) eqn:Hc; [|done].
  cbn [flat_map].
  change (run (Star (Chr p)) ?st)
    with (star_loop (run (Chr p)) (String.length (rest st)) st).
  cbn [rest].
  destruct (star_class_head p (String.length s') (c :: b) s' g (le_n _)) as (b' & tl & ->).
  by exists b'.
Qed.

Lemma sub_class_remove p (n : nat) b s g :
  (String.length s ≤ n)%nat →
  sub_from n (plus (Chr p)) "" (MState b s g) = remove p s.
Proof.
  revert b s g. induction n as [|n IH]; intros b s g Hlen.
  - destruct s; [|cbn in Hlen; lia].
    cbn [sub_from]. by rewrite (match_class_plus p b "" g).
  - cbn [sub_from]. pose proof (match_class_plus p b s g) as Hm.
    destruct s as [|c s']; [by rewrite Hm|].
    cbn [remove]. destruct (p c) eqn:Hc.
    + destruct Hm as [b' ->]. unfold consumed. cbn [rest String.length].
      pose proof (skip_length p s') as Hl.
      replace (0 <? S (String.length s') - String.length (skip p s'))%nat
        with true by (symmetry; apply Nat.ltb_lt; lia).
      cbn [before rest]. rewrite IH by (cbn in Hlen; lia).
      by rewrite remove_skip.
    + rewrite Hm. cbn [rest before]. by rewrite IH by (cbn in Hlen; lia).
Qed.

Lemma re_sub_class p (s : string) : re_sub (plus (Chr p)) "" s = remove p s.
Proof. unfold re_sub, start. by apply sub_class_remove. Qed.

Lemma re_sub_dash (s : string) : re_sub (Chr is_unicode_dash) "-" s = s.
Proof.
  apply (Engine.re_sub_needs (λ _, false)); [by vm_compute|].
  induction s as [|c s IH]; [done|]. done.
Qed.

(** The exact key, without the matcher. *)
Definition exact_of (s : string) : string :=
  Str.strip (remove not_key_char (Str.strip (Whitespace.collapse false s))).

Lemma norm_key_exact_eq (v : value) :
  _norm_key_exact v = exact_of (Str.lower (_safe_str v)).
Proof.
  unfold _norm_key_exact, exact_of.
  by rewrite Whitespace.re_sub_ws, re_sub_dash, re_sub_class.
Qed.

Lemma norm_key_series_eq (v : value) :
  _norm_key_series v
  = exact_of (Str.lower (Str.strip (re_sub _CYCLE_RE "" (re_sub _YEAR_RE "" (_safe_str v))))).
Proof.
  unfold _norm_key_series, exact_of.
  by rewrite Whitespace.re_sub_ws, re_sub_dash, re_sub_class.
Qed.

End Keys.

Lemma lower_isspace (c : ascii) : Chars.isspace (Chars.lower c) = Chars.isspace c.
Proof. destruct c as [[] [] [] [] [] [] [] []]; by vm_compute. Qed.

Lemma lower_lower_char (c : ascii) : Chars.lower (Chars.lower c) = Chars.lower c.
Proof. destruct c as [[] [] [] [] [] [] [] []]; by vm_compute. Qed.

Lemma lower_lower (s : string) : Str.lower (Str.lower s) = Str.lower s.
Proof.
  induction s as [|c s IH]; [done|]. cbn [Str.lower]. by rewrite lower_lower_char, IH.
Qed.

Lemma lower_lstrip (s : string) : Str.lower (Str.lstrip s) = Str.lstrip (Str.lower s).
Proof.
  induction s as [|c s IH]; [done|]. cbn [Str.lstrip Str.lower].
  rewrite lower_isspace. by destruct (Chars.isspace c).
Qed.

Lemma lower_rstrip (s : string) : Str.lower (Str.rstrip s) = Str.rstrip (Str.lower s).
Proof.
  induction s as [|c s IH]; [done|]. cbn [Str.rstrip Str.lower].
  rewrite <- IH, lower_isspace.
  destruct (Str.rstrip s); [by destruct (Chars.isspace c) | done].
Qed.

Lemma lower_strip (s : string) : Str.lower (Str.strip s) = Str.strip (Str.lower s).
Proof. unfold Str.strip. by rewrite lower_rstrip, lower_lstrip. Qed.

Lemma lower_collapse (skip : bool) (s : string) :
  Str.lower (Whitespace.collapse skip s) = Whitespace.collapse skip (Str.lower s).
Proof.
  revert skip. induction s as [|c s IH]; intros skip; [done|].
  cbn [Whitespace.collapse Str.lower]. rewrite lower_isspace.
  destruct (Chars.isspace c), skip; cbn [Str.lower]; by rewrite IH.
Qed.

Lemma safe_str_stripped (v : value) : Str.strip (_safe_str v) = _safe_str v.
Proof. destruct v; [done|apply strip_strip..]. Qed.

Lemma none_of_remove p s : Engine.none_of p (Keys.remove p s) = true.
Proof.
  induction s as [|c s IH]; [done|]. cbn [Keys.remove].
  destruct (p c) eqn:Hc; [done|]. cbn [Engine.none_of]. by rewrite Hc.
Qed.

Lemma none_of_lstrip p s : Engine.none_of p s = true → Engine.none_of p (Str.lstrip s) = true.
Proof.
  induction s as [|c s IH]; [done|]. cbn [Str.lstrip]. intros H.
  destruct (Chars.isspace c); [|done]. cbn [Engine.none_of] in H.
  apply andb_true_iff in H as [_ H]. by apply IH.
Qed.

Lemma none_of_rstrip p s : Engine.none_of p s = true → Engine.none_of p (Str.rstrip s) = true.
Proof.
  induction s as [|c s IH]; [done|]. cbn [Str.rstrip Engine.none_of].
  intros [Hc Hs]%andb_true_iff. specialize (IH Hs).
  destruct (Str.rstrip s).
  - destruct (Chars.isspace c); [done|]. cbn [Engine.none_of]. by rewrite Hc.
  - cbn [Engine.none_of] in *. by rewrite Hc, IH.
Qed.

Lemma none_of_strip p s : Engine.none_of p s = true → Engine.none_of p (Str.strip s) = true.
Proof. intros H. unfold Str.strip. by apply none_of_rstrip, none_of_lstrip. Qed.

Lemma strip_ends (s : string) :
  Whitespace.starts_space (Str.strip s) = false ∧ Whitespace.ends_space (Str.strip s) = false.
Proof.
  unfold Str.strip. split; [|apply Whitespace.rstrip_ends].
  apply Whitespace.rstrip_starts.
  induction s as [|c s IH]; [done|]. cbn [Str.lstrip].
  destruct (Chars.isspace c) eqn:Hc; [done|]. by cbn [Whitespace.starts_space].
Qed.

Lemma exact_key_lower (s t : string) :
  Str.lower s = Str.lower t → _norm_key_exact (VStr s) = _norm_key_exact (VStr t).
Proof.
  intros H. rewrite !Keys.norm_key_exact_eq, !safe_str_str, !lower_strip. by rewrite H.
Qed.

Lemma exact_key_norm_space (v : value) :
  _norm_key_exact (VStr (_norm_space v)) = _norm_key_exact v.
Proof.
  rewrite !Keys.norm_key_exact_eq, safe_str_str.
  rewrite (Whitespace.strip_id _ (norm_space_normal v)).
  unfold _norm_space. rewrite Whitespace.re_sub_ws.
  set (N := Str.strip (Whitespace.collapse false (_safe_str v))).
  assert (Whitespace.normal N) as HN by apply Whitespace.normal_strip_collapse.
  unfold Keys.exact_of.
  rewrite <- !lower_collapse, <- !lower_strip.
  rewrite (Whitespace.collapse_id false N); [|apply HN|done].
  by rewrite (Whitespace.strip_id N HN).
Qed.

(** [X14] The exact key.  It holds only the characters a-z, 0-9, the hyphen
    and the space, and neither starts nor ends with a space; two names that
    differ only in the case of their letters have the same key; the key of
    a name in the form [_norm_space] gives it is the key of the name, so the
    exact key of a normalized record is the exact key of the name it was
    given. *)
Theorem exact_key_normal_form (v : value) (e : entry) :
  Engine.none_of not_key_char (_norm_key_exact v) = true
  ∧ Whitespace.starts_space (_norm_key_exact v) = false
  ∧ Whitespace.ends_space (_norm_key_exact v) = false
  ∧ (∀ s t, Str.lower s = Str.lower t → _norm_key_exact (VStr s) = _norm_key_exact (VStr t))
  ∧ _norm_key_exact (VStr (_norm_space v)) = _norm_key_exact v
  ∧ (build_match_keys (normalize_entry_fields e)).1.2
    = _norm_key_exact (get e "name" (VStr "")).
Proof.
  split; [|split; [|split; [|split; [|split]]]].
  - rewrite Keys.norm_key_exact_eq. apply none_of_strip, none_of_remove.
  - rewrite Keys.norm_key_exact_eq. apply strip_ends.
  - rewrite Keys.norm_key_exact_eq. apply strip_ends.
  - apply exact_key_lower.
  - apply exact_key_norm_space.
  - unfold build_match_keys. cbn [fst snd].
    rewrite (get_normalized e "name" text_name).
    change (norm_value "name") with _norm_space. apply exact_key_norm_space.
Qed.

(** [X15] The series key.  It is the exact key of the name without its year
    and cycle tokens; so for a name in which [_YEAR_RE] and [_CYCLE_RE] find
    nothing, the series key is the exact key. *)
Theorem series_key_without_tokens (name : value) :
  re_search _YEAR_RE (_safe_str name) = None →
  re_search _CYCLE_RE (_safe_str name) = None →
  _norm_key_series name = _norm_key_exact name
  ∧ ∀ v, _norm_key_series v
         = _norm_key_exact (VStr (re_sub _CYCLE_RE "" (re_sub _YEAR_RE "" (_safe_str v)))).
Proof.
  intros Hy Hc. split.
  - rewrite Keys.norm_key_series_eq, Keys.norm_key_exact_eq.
    rewrite (Engine.re_sub_none _ _ _ Hy), (Engine.re_sub_none _ _ _ Hc).
    by rewrite safe_str_stripped.
  - intros v. by rewrite Keys.norm_key_series_eq, Keys.norm_key_exact_eq, safe_str_str.
Qed.

Lemma series_key_without_tokens_witness :
  _norm_key_series (VStr "NeurIPS Workshop") = _norm_key_exact (VStr "NeurIPS Workshop").
Proof.
  apply (series_key_without_tokens (VStr "NeurIPS Workshop")).
  - vm_compute; reflexivity.
  - vm_compute; reflexivity.
Defined.

(** ** Whitespace *)

(** [X16] The form [_norm_space] gives a text: every whitespace character of
    the result is a space, with no space before or behind it and none at
    either end of the text; the result is the stripped text with every run
    of whitespace turned into one space; a text already in this form is
    returned as it is, so a second pass changes nothing. *)
Theorem norm_space_normal_form (v : value) :
  Whitespace.normal (_norm_space v)
  ∧ _norm_space v = Str.strip (Whitespace.collapse false (_safe_str v))
  ∧ (∀ s, Whitespace.normal s → _norm_space (VStr s) = s)
  ∧ _norm_space (VStr (_norm_space v)) = _norm_space v.
Proof.
  split; [apply norm_space_normal|]. split; [|split].
  - unfold _norm_space. by rewrite Whitespace.re_sub_ws.
  - apply norm_space_fixed.
  - apply norm_space_fixed, norm_space_normal.
Qed.

(** ** The subject of an EasyChair call *)

(** The subject a matched term stands for. *)
Definition subject_of (term : string) : string :=
  if mem term ["security"; "privacy"] then "Security & Privacy"
  else if mem term ["network"] then "Network System"
  else "Wireless/Communication".

Lemma first_term_spec (terms : list string) (hay : string) :
  (first_term terms hay = "" ∧ ∀ t, t ∈ terms → t ≠ "" → contains t hay = false)
  ∨ (first_term terms hay ∈ terms ∧ contains (first_term terms hay) hay = true).
Proof.
  induction terms as [|t terms IH]; cbn [first_term].
  - left. split; [done|]. by intros t Ht%elem_of_nil.
  - destruct (contains t hay) eqn:Hc.
    + right. split; [apply elem_of_cons; by left | done].
    + destruct IH as [[H1 H2] | [H1 H2]].
      * left. split; [done|]. intros t' [-> | Ht']%elem_of_cons Hne; [done | by apply H2].
      * right. split; [apply elem_of_cons; by right | done].
Qed.

Lemma interest_terms_nonempty t : t ∈ interest_terms → t ≠ "".
Proof. unfold interest_terms. intros Ht. split_elem Ht; done. Qed.

Lemma easychair_subject_spec (terms : list string) (topics_joined name : string) :
  terms ≡ₚ interest_terms →
  let hay := Str.lower (topics_joined +:+ " " +:+ name) in
  (easychair_subject terms topics_joined name = None
   ∧ ∀ t, t ∈ interest_terms → contains t hay = false)
  ∨ (∃ t, t ∈ interest_terms ∧ contains t hay = true
          ∧ easychair_subject terms topics_joined name = Some (subject_of t)).
Proof.
  intros Hperm hay. unfold easychair_subject. fold hay.
  destruct (first_term_spec terms hay) as [[H1 H2] | [H1 H2]].
  - left. rewrite H1. split; [done|]. intros t Ht. apply H2.
    + by rewrite Hperm.
    + by apply interest_terms_nonempty.
  - right. exists (first_term terms hay).
    assert (first_term terms hay ∈ interest_terms) as H1' by by rewrite <- Hperm.
    clear H1. rename H1' into H1.
    split; [done|]. split; [done|].
    pose proof (interest_terms_nonempty _ H1) as Hne.
    destruct (first_term terms hay) as [|c s]; [done|]. cbn [Str.truthy Str.is_empty negb].
    unfold subject_of. by repeat destruct (mem _ _).
Qed.

(** [X17] The subject of an EasyChair call and the order of the set.  The
    loop of [fetch_easychair_table] runs over a set, in an order the hashes
    of the strings fix anew in every run.  Whether a call is skipped does
    not depend on the order; the subject does not depend on it when all the
    terms that occur in the call stand for one subject; and it does depend on
    it otherwise: a call named "Network Security" is filed under "Network
    System" in one order and under "Security & Privacy" in another. *)
Theorem easychair_subject_order (terms terms' : list string) (topics_joined name : string) :
  terms ≡ₚ interest_terms → terms' ≡ₚ interest_terms →
  (easychair_subject terms topics_joined name = None
   ↔ easychair_subject terms' topics_joined name = None)
  ∧ ((∀ t t', t ∈ interest_terms → t' ∈ interest_terms →
        contains t (Str.lower (topics_joined +:+ " " +:+ name)) = true →
        contains t' (Str.lower (topics_joined +:+ " " +:+ name)) = true →
        subject_of t = subject_of t') →
     easychair_subject terms topics_joined name = easychair_subject terms' topics_joined name)
  ∧ (easychair_subject interest_terms "" "Network Security" = Some "Network System"
     ∧ easychair_subject (reverse interest_terms) "" "Network Security"
       = Some "Security & Privacy"
     ∧ reverse interest_terms ≡ₚ interest_terms).
Proof.
  intros Hp Hp'.
  destruct (easychair_subject_spec terms topics_joined name Hp) as [[H1 H2] | (t & Ht & Hc & H1)];
    destruct (easychair_subject_spec terms' topics_joined name Hp')
      as [[H1' H2'] | (t' & Ht' & Hc' & H1')]; cbv zeta in *.
  - split; [by rewrite H1, H1'|]. split; [by rewrite H1, H1'|].
    split; [by vm_compute|]. split; [by vm_compute | apply reverse_Permutation].
  - by rewrite (H2 t' Ht') in Hc'.
  - by rewrite (H2' t Ht) in Hc.
  - split; [by rewrite H1, H1'|]. split.
    + intros Hsame. rewrite H1, H1'. f_equal. by apply Hsame.
    + split; [by vm_compute|]. split; [by vm_compute | apply reverse_Permutation].
Qed.

Lemma easychair_subject_order_witness :
  easychair_subject interest_terms "wireless; 5g" "IEEE Wireless Days"
  = easychair_subject (reverse interest_terms) "wireless; 5g" "IEEE Wireless Days".
Proof.
  apply (proj1 (proj2 (easychair_subject_order interest_terms (reverse interest_terms)
                         "wireless; 5g" "IEEE Wireless Days" (reflexivity _)
                         (reverse_Permutation _)))).
  intros t t' Ht Ht'. unfold interest_terms in Ht, Ht'.
  split_elem Ht; split_elem Ht'; vm_compute; congruence.
Defined.

(** ** Merged or appended *)

Lemma find_hit_none (idx : gmap string nat) (keys : string * string * string) :
  find_hit idx keys = None ↔ ∀ k, k ∈ typed_keys keys → idx !! k = None.
Proof.
  destruct keys as [[lk ex] se]. rewrite find_hit_probe. unfold probe, typed_keys.
  destruct (Str.truthy lk), (Str.truthy ex), (Str.truthy se); cbn [app];
    repeat match goal with |- context [idx !! ?k] =>
             lazymatch k with
             | String _ _ +:+ _ => destruct (idx !! k) eqn:?
             end
           end;
    split; try done; intros H; try (intros k Hk; split_elem Hk; done);
    exfalso;
    repeat match goal with
           | E : idx !! ?k = Some _ |- _ =>
               rewrite (H k) in E by set_solver; discriminate E
           end.
Qed.

(** Two key triples share a typed key. *)
Definition share_key (a b : string * string * string) : Prop :=
  ∃ k, k ∈ typed_keys a ∧ k ∈ typed_keys b.

Lemma build_index_none (existing : list entry) (k : string) :
  build_index existing !! k = None
  ↔ ∀ e, e ∈ existing → k ∉ typed_keys (build_match_keys e).
Proof.
  unfold build_index. rewrite build_index_from_lookup, lookup_empty.
  rewrite fmap_None, list_find_None, Forall_forall. done.
Qed.

Lemma find_hit_share (existing : list entry) (keys : string * string * string) :
  find_hit (build_index existing) keys = None
  ↔ ¬ ∃ e, e ∈ existing ∧ share_key (build_match_keys e) keys.
Proof.
  rewrite find_hit_none. split.
  - intros H (e & He & k & Hk1 & Hk2).
    specialize (H k Hk2). rewrite build_index_none in H. by apply (H e).
  - intros H k Hk. apply build_index_none. intros e He Hk'.
    apply H. exists e. split; [done|]. by exists k.
Qed.

(** ** Records that normalization leaves as they are *)

(** The subjects a record holds. *)
Definition subjects (e : entry) : list string :=
  match e !! "sub" with
  | Some (VList xs) => map str_of xs
  | _ => []
  end.

(** A record is stable: cleaning leaves each of its dates as it is, and
    canonicalization each of its subjects. *)
Definition stable (e : entry) : bool :=
  forallb (λ k, String.eqb (_clean_deadline_human (VStr (field_of k e))) (field_of k e))
          date_fields
  && forallb (λ s, String.eqb (canonicalize_subject (VStr s)) s) (subjects e).

(** The subjects [normalize_entry_subjects] computes from the raw value. *)
Definition subjects_of (raw : value) : list string :=
  let subs :=
    match raw with
    | VList xs => map canonicalize_subject xs
    | VStr r => if Str.truthy (Str.strip r) then [canonicalize_subject raw] else []
    | _ => []
    end in
  match _dedupe_list (filter (λ s, Str.truthy s = true) subs) with
  | [] => ["Uncategorized"]
  | subs => subs
  end.

Lemma normalize_sub_eq (e : entry) :
  normalize_entry_fields e !! "sub"
  = Some (VList (map VStr (subjects_of (get e "sub" (VStr ""))))).
Proof.
  unfold normalize_entry_fields, normalize_entry_subjects.
  rewrite lookup_insert_eq. unfold get at 1.
  rewrite !clean_at_lookup_ne by done.
  cbn [list_to_map foldr uncurry fst snd].
  rewrite lookup_insert_ne by done. rewrite lookup_insert_eq.
  cbn [default from_option id]. unfold subjects_of.
  by destruct (_dedupe_list _).
Qed.

Lemma map_str_of (l : list string) : map str_of (map VStr l) = l.
Proof. induction l as [|x l IH]; [done|]. cbn. by rewrite IH. Qed.

Lemma subjects_normalized (e : entry) :
  subjects (normalize_entry_fields e) = subjects_of (get e "sub" (VStr "")).
Proof. unfold subjects. by rewrite normalize_sub_eq, map_str_of. Qed.

Lemma subjects_of_ok (raw : value) :
  NoDup (subjects_of raw) ∧ subjects_of raw ≠ []
  ∧ ∀ s, s ∈ subjects_of raw → s ≠ "" ∧ Str.strip s = s.
Proof.
  unfold subjects_of. cbv zeta.
  destruct (_dedupe_list _) as [|y ys] eqn:Hd.
  - split; [apply NoDup_singleton|]. split; [done|].
    by intros s ->%list_elem_of_singleton.
  - rewrite <- Hd. split; [|split].
    + rewrite dedupe_list_first. apply first_occurrences_NoDup.
    + by rewrite Hd.
    + intros s Hs. apply dedupe_list_elem in Hs as (Hne & z & _ & ->).
      split; [done | apply strip_strip].
Qed.

Lemma dedupe_list_fixed (l : list string) :
  NoDup l → (∀ s, s ∈ l → s ≠ "" ∧ Str.strip s = s) → _dedupe_list l = l.
Proof.
  intros Hnd Hl. rewrite dedupe_list_first.
  assert (map Str.strip l = l) as ->.
  { rewrite <- (map_id l) at 2. apply map_ext_in. intros s Hs%list_elem_of_In.
    by apply Hl. }
  rewrite filter_all; [by apply first_occurrences_id|].
  apply Forall_forall. intros s Hs. by apply Hl.
Qed.

Lemma first_occurrences_app (l k : list string) :
  first_occurrences (l ++ k)
  = first_occurrences l ++ filter (λ y, y ∉ l) (first_occurrences k).
Proof.
  induction l as [|x l IH]; cbn [app first_occurrences].
  - symmetry. apply filter_all, Forall_forall. intros y _. apply not_elem_of_nil.
  - rewrite IH, filter_app, list_filter_filter. do 2 f_equal.
    apply list_filter_iff. intros y. rewrite not_elem_of_cons. tauto.
Qed.

Lemma filter_none {A} (P : A → Prop) `{∀ x, Decision (P x)} (l : list A) :
  Forall (λ x, ¬ P x) l → filter P l = [].
Proof.
  induction 1 as [|x l Hx _ IH]; [done|]. by rewrite filter_cons_False.
Qed.

Lemma dedupe_list_twice (l : list string) :
  NoDup l → (∀ s, s ∈ l → s ≠ "" ∧ Str.strip s = s) → _dedupe_list (l ++ l) = l.
Proof.
  intros Hnd Hl. rewrite dedupe_list_first.
  assert (map Str.strip (l ++ l) = l ++ l) as ->.
  { rewrite <- (map_id (l ++ l)) at 2. apply map_ext_in. intros s Hs%list_elem_of_In.
    apply elem_of_app in Hs as [Hs | Hs]; by apply Hl. }
  rewrite filter_all.
  2:{ apply Forall_forall. intros s Hs. apply elem_of_app in Hs as [Hs | Hs]; by apply Hl. }
  rewrite first_occurrences_app, first_occurrences_id by done.
  rewrite <- (app_nil_r l) at 3. f_equal.
  apply filter_none, Forall_forall. intros y Hy Hn. by apply Hn.
Qed.

Lemma stable_spec (e : entry) :
  stable e = true
  ↔ (∀ k, k ∈ date_fields →
       _clean_deadline_human (VStr (field_of k e)) = field_of k e)
    ∧ ∀ s, s ∈ subjects e → canonicalize_subject (VStr s) = s.
Proof.
  unfold stable. rewrite andb_true_iff, !forallb_forall.
  setoid_rewrite String.eqb_eq. by setoid_rewrite <- list_elem_of_In.
Qed.

Lemma norm_value_fixed (e : entry) (k : string) :
  k ∈ text_fields → stable (normalize_entry_fields e) = true →
  norm_value k (VStr (field_of k (normalize_entry_fields e)))
  = field_of k (normalize_entry_fields e).
Proof.
  intros Hk [Hdates _]%stable_spec.
  unfold norm_value. destruct (mem k date_fields) eqn:Hmem.
  - assert (k ∈ date_fields) as Hd.
    { unfold mem in Hmem. apply existsb_exists in Hmem as (x & Hx & ->%String.eqb_eq).
      by apply list_elem_of_In. }
    rewrite norm_space_fixed; [by apply Hdates|].
    rewrite (field_of_normalized e k Hk). apply norm_value_normal.
  - apply norm_space_fixed. rewrite (field_of_normalized e k Hk). apply norm_value_normal.
Qed.

Lemma get_field_of (e : entry) (k : string) :
  k ∈ text_fields →
  get (normalize_entry_fields e) k (VStr "") = VStr (field_of k (normalize_entry_fields e)).
Proof.
  intros Hk. rewrite (get_normalized e k Hk). unfold field_of.
  by rewrite (get_normalized e k Hk).
Qed.

Lemma subjects_fixed (e : entry) :
  stable (normalize_entry_fields e) = true →
  map canonicalize_subject (map VStr (subjects (normalize_entry_fields e)))
  = subjects (normalize_entry_fields e).
Proof.
  intros [_ Hsubs]%stable_spec. rewrite map_map.
  rewrite <- (map_id (subjects _)) at 2. apply map_ext_in.
  intros s Hs%list_elem_of_In. by apply Hsubs.
Qed.

Lemma subjects_of_fixed (e : entry) :
  stable (normalize_entry_fields e) = true →
  subjects_of (VList (map VStr (subjects (normalize_entry_fields e))))
  = subjects (normalize_entry_fields e).
Proof.
  intros Hst. unfold subjects_of. cbv zeta. rewrite (subjects_fixed e Hst).
  rewrite subjects_normalized.
  destruct (subjects_of_ok (get e "sub" (VStr ""))) as (Hnd & Hne & Hall).
  rewrite filter_all.
  2:{ apply Forall_forall. intros s Hs. destruct (Hall s Hs) as [Hs' _].
      clear -Hs'. by destruct s. }
  rewrite dedupe_list_fixed by done. clear -Hne.
  destruct (subjects_of (get e "sub" (VStr ""))) as [|y ys]; [by destruct Hne | reflexivity].
Qed.

Lemma normalize_sub_subjects (e : entry) :
  normalize_entry_fields e !! "sub"
  = Some (VList (map VStr (subjects (normalize_entry_fields e)))).
Proof. by rewrite subjects_normalized, normalize_sub_eq. Qed.

Lemma schema_cases (k : string) : k ∈ schema → k = "sub" ∨ k ∈ text_fields.
Proof. unfold schema, text_fields. intros Hk. split_elem Hk; set_solver. Qed.

(** A stable normalized record is a fixed point of normalization. *)
Lemma normalize_stable (e : entry) :
  stable (normalize_entry_fields e) = true →
  normalize_entry_fields (normalize_entry_fields e) = normalize_entry_fields e.
Proof.
  intros Hst. apply map_eq. intros k.
  destruct (decide (k ∈ schema)) as [Hk | Hk].
  - apply schema_cases in Hk as [-> | Hk].
    + rewrite normalize_sub_eq. unfold get. rewrite normalize_sub_subjects.
      cbn [default from_option id]. by rewrite (subjects_of_fixed e Hst).
    + rewrite (normalize_lookup_text _ k Hk), (get_field_of e k Hk).
      rewrite (norm_value_fixed e k Hk Hst).
      rewrite (normalize_lookup_text e k Hk). by rewrite (field_of_normalized e k Hk).
  - assert (∀ x, normalize_entry_fields x !! k = None) as Hnone.
    { intros x. apply not_elem_of_dom. rewrite normalize_dom.
      by rewrite elem_of_list_to_set. }
    by rewrite !Hnone.
Qed.

Lemma merge_entries_sub (old new : entry) :
  merge_entries old new !! "sub"
  = Some (VList (map VStr
            match _dedupe_list (map canonicalize_subject
                    (map VStr (subjects (normalize_entry_fields old))
                     ++ map VStr (subjects (normalize_entry_fields new)))) with
            | [] => ["Uncategorized"]
            | l => l
            end)).
Proof.
  unfold merge_entries. rewrite lookup_insert_eq. unfold get.
  rewrite foldl_refresh_lookup_notin by (unfold updatable; set_solver).
  rewrite !lookup_if_insert_ne by done.
  rewrite !normalize_sub_subjects. cbn [default from_option id _ensure_list].
  by destruct (_dedupe_list _).
Qed.

(** ... and of merging with itself. *)
Lemma merge_stable (e : entry) :
  stable (normalize_entry_fields e) = true →
  merge_entries (normalize_entry_fields e) (normalize_entry_fields e)
  = normalize_entry_fields e.
Proof.
  intros Hst. pose proof (normalize_stable e Hst) as Hfix.
  set (n := normalize_entry_fields e) in *.
  assert (∀ k, k ∈ text_fields →
            n !! k = Some (VStr (field_of k n))
            ∧ norm_value k (get n k (VStr "")) = field_of k n) as Htext.
  { intros k Hk. subst n. split.
    - rewrite (normalize_lookup_text e k Hk). by rewrite (field_of_normalized e k Hk).
    - rewrite (get_field_of e k Hk). by apply norm_value_fixed. }
  apply map_eq. intros k.
  destruct (decide (k ∈ schema)) as [Hk | Hk].
  - apply schema_cases in Hk as [-> | Hk].
    + rewrite merge_entries_sub, Hfix. subst n. rewrite normalize_sub_subjects.
      rewrite <- map_app, (map_map VStr).
      rewrite subjects_normalized.
      destruct (subjects_of_ok (get e "sub" (VStr ""))) as (Hnd & Hne & Hall).
      pose proof Hst as [_ Hsubs]%stable_spec. rewrite subjects_normalized in Hsubs.
      assert (map (λ x, canonicalize_subject (VStr x))
                (subjects_of (get e "sub" (VStr "")) ++ subjects_of (get e "sub" (VStr "")))
              = subjects_of (get e "sub" (VStr "")) ++ subjects_of (get e "sub" (VStr "")))
        as ->.
      { rewrite <- (map_id (_ ++ _)) at 2. apply map_ext_in.
        intros s Hs%list_elem_of_In. apply Hsubs. by apply elem_of_app in Hs as [?|?]. }
      rewrite dedupe_list_twice by done. clear -Hne.
      destruct (subjects_of (get e "sub" (VStr ""))) as [|y ys]; [by destruct Hne | reflexivity].
    + destruct (Htext k Hk) as [Hlook Hnorm]. rewrite Hlook.
      unfold text_fields in Hk. apply elem_of_cons in Hk as [-> | Hk].
      { rewrite merge_entries_name. cbv zeta.
        change _norm_space with (norm_value "name"). rewrite Hnorm.
        by rewrite Nat.ltb_irrefl, andb_false_r. }
      destruct (decide (k = "link")) as [-> | Hl].
      { rewrite merge_entries_link. cbv zeta.
        change _norm_space with (norm_value "link"). rewrite Hnorm.
        by destruct (Str.truthy _). }
      assert (k ∈ updatable) as Hu by (unfold updatable; clear -Hk Hl; set_solver).
      rewrite (merge_entries_updatable _ _ _ Hu). cbv zeta. rewrite Hnorm.
      by destruct (Str.truthy _).
  - assert (n !! k = None) as ->.
    { subst n. apply not_elem_of_dom. rewrite normalize_dom. by rewrite elem_of_list_to_set. }
    apply not_elem_of_dom. rewrite merge_entries_dom. by rewrite elem_of_list_to_set.
Qed.

Definition stable_sample : entry :=
  {[ "name" := VStr "  NSDI   2026 "; "sub" := VList [VStr "CCF A (Network System)"];
     "Start Date" := VStr "May 4, 2026 (Mon)";
     "Submission Deadline" := VStr "2025-09-18T23:59:59-12:00" ]}.

(** [X18] Records that normalization leaves as they are.  For a normalized
    record on whose dates [_clean_deadline_human] changes nothing and on
    whose subjects [canonicalize_subject] changes nothing, a second
    normalization returns the record itself, and so does merging the record
    with itself: an incoming record that is already in the catalog in this
    form leaves its slot as it is. *)
Theorem stable_record_fixed (e : entry) :
  stable (normalize_entry_fields e) = true →
  normalize_entry_fields (normalize_entry_fields e) = normalize_entry_fields e
  ∧ merge_entries (normalize_entry_fields e) (normalize_entry_fields e)
    = normalize_entry_fields e.
Proof.
  intros Hst. split; [by apply normalize_stable | by apply merge_stable].
Qed.

Lemma stable_record_fixed_witness :
  stable (normalize_entry_fields stable_sample) = true
  ∧ normalize_entry_fields (normalize_entry_fields stable_sample)
    = normalize_entry_fields stable_sample
  ∧ merge_entries (normalize_entry_fields stable_sample)
                  (normalize_entry_fields stable_sample)
    = normalize_entry_fields stable_sample.
Proof.
  split; [vm_compute; reflexivity|].
  apply (stable_record_fixed stable_sample). vm_compute; reflexivity.
Defined.

(** ** The year of a date range *)

Module Position.

Fixpoint chars (s : string) : list ascii :=
  match s with
  | EmptyString => []
  | String c s' => c :: chars s'
  end.

(** The subject a position lies in: the characters before it and those
    from it on. *)
Definition subject (st : mstate) : list ascii := rev (before st) ++ chars (rest st).

Lemma star_loop_subject (step : mstate → list mstate) (n : nat) :
  (∀ st st', st' ∈ step st → subject st' = subject st) →
  ∀ st st', st' ∈ star_loop step n st → subject st' = subject st.
Proof.
  intros Hstep. induction n as [|n IH]; intros st st' Hin; cbn [star_loop] in Hin.
  - by apply list_elem_of_singleton in Hin as ->.
  - apply elem_of_app in Hin as [Hin | Hin].
    + apply Engine.elem_of_flat_map in Hin as (st1 & H1 & Hin).
      destruct (0 <? consumed st st1)%nat; [|by apply elem_of_nil in Hin].
      rewrite (IH _ _ Hin). by apply Hstep.
    + by apply list_elem_of_singleton in Hin as ->.
Qed.

Lemma lazy_loop_subject (step : mstate → list mstate) (n : nat) :
  (∀ st st', st' ∈ step st → subject st' = subject st) →
  ∀ st st', st' ∈ lazy_loop step n st → subject st' = subject st.
Proof.
  intros Hstep. induction n as [|n IH]; intros st st' Hin; cbn [lazy_loop] in Hin.
  - by apply list_elem_of_singleton in Hin as ->.
  - apply elem_of_cons in Hin as [-> | Hin]; [done|].
    apply Engine.elem_of_flat_map in Hin as (st1 & H1 & Hin).
    destruct (0 <? consumed st st1)%nat; [|by apply elem_of_nil in Hin].
    rewrite (IH _ _ Hin). by apply Hstep.
Qed.

(** A match moves the position and leaves the subject as it is. *)
Lemma run_subject (r : regex) (st st' : mstate) :
  st' ∈ run r st → subject st' = subject st.
Proof.
  revert st st'. induction r as [|p|r1 IH1 r2 IH2|r1 IH1 r2 IH2|r IH|r IH|g r IH| | |];
    intros st st' Hin; cbn [run] in Hin.
  - by apply list_elem_of_singleton in Hin as ->.
  - destruct st as [b s g]. cbn [rest before groups] in Hin.
    destruct s as [|c s]; [by apply elem_of_nil in Hin|].
    destruct (p c); [|by apply elem_of_nil in Hin].
    apply list_elem_of_singleton in Hin as ->. unfold subject. cbn [before rest rev chars].
    by rewrite <- app_assoc.
  - apply Engine.elem_of_flat_map in Hin as (st1 & H1 & Hin).
    rewrite (IH2 _ _ Hin). by apply IH1.
  - apply elem_of_app in Hin as [Hin | Hin]; [by apply IH1 | by apply IH2].
  - by apply (star_loop_subject _ _ IH) in Hin.
  - by apply (lazy_loop_subject _ _ IH) in Hin.
  - apply list_elem_of_fmap in Hin as (st1 & -> & Hin). by apply IH in Hin.
  - destruct (xorb _ _); [|by apply elem_of_nil in Hin].
    by apply list_elem_of_singleton in Hin as ->.
  - destruct (before st); [|by apply elem_of_nil in Hin].
    by apply list_elem_of_singleton in Hin as ->.
  - destruct (at_end st); [|by apply elem_of_nil in Hin].
    by apply list_elem_of_singleton in Hin as ->.
Qed.

(** The character before the position is whitespace. *)
Definition after_space (st : mstate) : Prop :=
  ∃ c b, before st = c :: b ∧ Chars.isspace c = true.

Lemma run_ws_after (st st' : mstate) : st' ∈ run ws st → after_space st'.
Proof.
  destruct st as [b s g]. cbn [run ws rest before groups].
  destruct s as [|c s]; [by intros ?%elem_of_nil|].
  destruct (Chars.isspace c) eqn:Hc; [|by intros ?%elem_of_nil].
  intros ->%list_elem_of_singleton. by exists c, b.
Qed.

Lemma star_ws_after (n : nat) (st st' : mstate) :
  after_space st → st' ∈ star_loop (run ws) n st → after_space st'.
Proof.
  revert st. induction n as [|n IH]; intros st Hst Hin; cbn [star_loop] in Hin.
  - by apply list_elem_of_singleton in Hin as ->.
  - apply elem_of_app in Hin as [Hin | Hin].
    + apply Engine.elem_of_flat_map in Hin as (st1 & H1 & Hin).
      destruct (0 <? consumed st st1)%nat; [|by apply elem_of_nil in Hin].
      apply (IH st1); [by apply run_ws_after in H1 | done].
    + by apply list_elem_of_singleton in Hin as ->.
Qed.

Lemma plus_ws_after (st st' : mstate) : st' ∈ run (plus ws) st → after_space st'.
Proof.
  unfold plus. change (run (Cat ws (Star ws)) st)
    with (flat_map (run (Star ws)) (run ws st)).
  intros (st1 & H1 & Hin)%Engine.elem_of_flat_map.
  apply run_ws_after in H1.
  change (run (Star ws) st1) with (star_loop (run ws) (String.length (rest st1)) st1) in Hin.
  by apply star_ws_after in Hin.
Qed.

Lemma chr_step (p : ascii → bool) (st st' : mstate) :
  st' ∈ run (Chr p) st →
  ∃ c s', rest st = String c s' ∧ p c = true
          ∧ st' = MState (c :: before st) s' (groups st).
Proof.
  cbn [run]. destruct (rest st) as [|c s']; [by intros ?%elem_of_nil|].
  destruct (p c) eqn:Hc; [|by intros ?%elem_of_nil].
  intros ->%list_elem_of_singleton. by exists c, s'.
Qed.

(** The four digits of [%Y]. *)
Lemma year_group (st m : mstate) :
  m ∈ run (Grp "Y" (seq [digit; digit; digit; digit])) st →
  ∃ y1 y2 y3 y4 s',
    rest st = String y1 (String y2 (String y3 (String y4 s')))
    ∧ Forall (λ c, Chars.isdigit c = true) [y1; y2; y3; y4]
    ∧ m = MState (y4 :: y3 :: y2 :: y1 :: before st) s'
            (("Y"%char, String y1 (String y2 (String y3 (String y4 "")))) :: groups st).
Proof.
  change (run (Grp "Y" ?r) st)
    with (map (λ st', MState (before st') (rest st')
                        (("Y"%char, Str.take (consumed st st') (rest st)) :: groups st'))
              (run r st)).
  intros (m4 & -> & Hin)%list_elem_of_fmap.
  change (seq [digit; digit; digit; digit])
    with (Cat digit (Cat digit (Cat digit digit))) in Hin.
  change (run (Cat ?a ?b) ?x) with (flat_map (run b) (run a x)) in Hin.
  apply Engine.elem_of_flat_map in Hin as (m1 & H1 & Hin).
  change (run (Cat ?a ?b) ?x) with (flat_map (run b) (run a x)) in Hin.
  apply Engine.elem_of_flat_map in Hin as (m2 & H2 & Hin).
  change (run (Cat ?a ?b) ?x) with (flat_map (run b) (run a x)) in Hin.
  apply Engine.elem_of_flat_map in Hin as (m3 & H3 & H4).
  apply chr_step in H1 as (y1 & s1 & Hr1 & Hd1 & ->).
  apply chr_step in H2 as (y2 & s2 & Hr2 & Hd2 & ->).
  apply chr_step in H3 as (y3 & s3 & Hr3 & Hd3 & ->).
  apply chr_step in H4 as (y4 & s4 & Hr4 & Hd4 & ->).
  cbn [rest before groups] in *. subst s1 s2 s3.
  exists y1, y2, y3, y4, s4. split; [done|]. split; [by repeat constructor|].
  unfold consumed. rewrite Hr1. cbn [rest String.length Str.take].
  replace (S (S (S (S (String.length s4)))) - String.length s4)%nat with 4%nat by lia.
  done.
Qed.

End Position.

Lemma chars_app (s t : string) : Position.chars (s +:+ t) = Position.chars s ++ Position.chars t.
Proof.
  induction s as [|c s IH]; [done|].
  change (String c s +:+ t) with (String c (s +:+ t)). cbn [Position.chars app].
  by rewrite IH.
Qed.

Lemma chars_inj (s t : string) : Position.chars s = Position.chars t → s = t.
Proof.
  revert t. induction s as [|c s IH]; intros [|d t]; cbn [Position.chars]; try done.
  intros [= -> H]. by rewrite (IH t H).
Qed.

Lemma none_of_chars (p : ascii → bool) (s : string) (c : ascii) :
  Engine.none_of p s = true → c ∈ Position.chars s → p c = false.
Proof.
  induction s as [|d s IH]; cbn [Engine.none_of Position.chars].
  - by intros _ ?%elem_of_nil.
  - intros [Hd Hs]%andb_true_iff [-> | Hc]%elem_of_cons;
      [by apply negb_true_iff | by apply IH].
Qed.

(** A text that [strptime] reads with the format ["%B %d, %Y"] ends with a
    whitespace character and four digits: the year. *)
Lemma strptime_year_suffix (t p : string) (d : Date.date) :
  Date.strptime (t +:+ ", " +:+ p) "%B %d, %Y" = Some d →
  Engine.none_of Chars.isspace p = true →
  ∃ y1 y2 y3 y4,
    p = String y1 (String y2 (String y3 (String y4 "")))
    ∧ Forall (λ c, Chars.isdigit c = true) [y1; y2; y3; y4]
    ∧ Date.year d = Date.int p.
Proof.
  intros Hp Hsp. unfold Date.strptime in Hp.
  change (Date.pattern false "%B %d, %Y")
    with (Some [Date.seqToRE Date.f_month "B"; plus ws; default Eps (Date.directive "d");
                chr_i ","; plus ws; Grp "Y" (seq [digit; digit; digit; digit])]) in Hp.
  cbv beta iota in Hp.
  destruct (re_match _ _) as [m|] eqn:Hm; [|done].
  destruct (rest m) as [|c0 s0] eqn:Hrest; [|done]. cbn [Str.is_empty negb] in Hp.
  cbv zeta in Hp. destruct (Date.valid _); [|done]. injection Hp as <-.
  cbn [Date.year].
  unfold re_match, match_at in Hm. apply head_Some_elem_of in Hm.
  pose proof (Position.run_subject _ _ _ Hm) as Hsubj.
  change (seq (?a :: ?l)) with (Cat a (seq l)) in Hm.
  change (run (Cat ?a ?b) ?x) with (flat_map (run b) (run a x)) in Hm.
  apply Engine.elem_of_flat_map in Hm as (st1 & _ & Hm).
  change (seq (?a :: ?l)) with (Cat a (seq l)) in Hm.
  change (run (Cat ?a ?b) ?x) with (flat_map (run b) (run a x)) in Hm.
  apply Engine.elem_of_flat_map in Hm as (st2 & _ & Hm).
  change (seq (?a :: ?l)) with (Cat a (seq l)) in Hm.
  change (run (Cat ?a ?b) ?x) with (flat_map (run b) (run a x)) in Hm.
  apply Engine.elem_of_flat_map in Hm as (st3 & _ & Hm).
  change (seq (?a :: ?l)) with (Cat a (seq l)) in Hm.
  change (run (Cat ?a ?b) ?x) with (flat_map (run b) (run a x)) in Hm.
  apply Engine.elem_of_flat_map in Hm as (st4 & _ & Hm).
  change (seq [?a; ?b]) with (Cat a b) in Hm.
  change (run (Cat ?a ?b) ?x) with (flat_map (run b) (run a x)) in Hm.
  apply Engine.elem_of_flat_map in Hm as (st5 & H5 & Hm).
  apply Position.plus_ws_after in H5 as (c & b' & Hb & Hc).
  apply Position.year_group in Hm as (y1 & y2 & y3 & y4 & s' & Hr5 & Hd & ->).
  cbn [rest] in Hrest. subst s'.
  assert (y4 :: y3 :: y2 :: y1 :: c :: b'
          = rev (Position.chars p) ++ " "%char :: ","%char :: rev (Position.chars t))
    as Hsubj'.
  { unfold Position.subject in Hsubj. cbn [before rest start Position.chars] in Hsubj.
    rewrite Hb, app_nil_r in Hsubj. change (rev [] ++ ?l) with l in Hsubj.
    rewrite <- (rev_involutive (y4 :: y3 :: y2 :: y1 :: c :: b')), Hsubj.
    rewrite !chars_app. cbn [Position.chars app].
    rewrite rev_app_distr. cbn [rev app]. by rewrite <- !app_assoc. }
  clear Hsubj. rename Hsubj' into Hsubj.
  unfold Date.field. cbn [groups lookup_group Ascii.eqb Bool.eqb].
  repeat (apply Forall_cons in Hd as [? Hd]).
  assert (∀ x, Chars.isdigit x = true → x ≠ " "%char) as Hns.
  { intros x Hx ->. by vm_compute in Hx. }
  destruct (rev (Position.chars p)) as [|a1 [|a2 [|a3 [|a4 [|a5 q]]]]] eqn:Hq;
    cbn [app] in Hsubj; injection Hsubj; intros; subst;
    try (exfalso; eapply Hns; [|reflexivity]; eassumption).
  - apply (f_equal (@rev ascii)) in Hq. rewrite rev_involutive in Hq. cbn [rev app] in Hq.
    eexists _, _, _, _. split; [apply chars_inj; exact Hq|].
    split; [by repeat constructor|].
    f_equal. symmetry. apply chars_inj. exact Hq.
  - exfalso.
    match goal with H : Chars.isspace ?x = true |- _ =>
      assert (x ∈ Position.chars p) as Hin
        by (apply list_elem_of_In, in_rev; rewrite Hq; cbn; tauto);
      by rewrite (none_of_chars _ _ _ Hsp Hin) in H
    end.
Qed.

(** The decimal text of an [int]. *)

Lemma pretty_char_digit (k : N) :
  (k < 10)%N →
  Chars.isdigit (pretty_N_char k) = true
  ∧ Chars.isspace (pretty_N_char k) = false
  ∧ N.to_nat (Chars.code (pretty_N_char k) - 48) = N.to_nat k.
Proof.
  intros Hk.
  assert (k = 0 ∨ k = 1 ∨ k = 2 ∨ k = 3 ∨ k = 4 ∨ k = 5 ∨ k = 6 ∨ k = 7 ∨ k = 8 ∨ k = 9)%N
    as Hc by lia.
  repeat (destruct Hc as [-> | Hc]; [by vm_compute|]). subst. by vm_compute.
Qed.

Lemma pretty_go_length (x : N) (s : string) :
  (String.length s ≤ String.length (pretty_N_go x s))%nat.
Proof.
  revert s. induction (N.lt_wf_0 x) as [x _ IH]; intros s.
  assert (x = 0 ∨ 0 < x)%N as [-> | Hx] by lia; [by rewrite pretty_N_go_0|].
  rewrite pretty_N_go_step by done.
  etrans; [|apply IH; by apply N.div_lt]. cbn [String.length]. lia.
Qed.

Lemma pretty_go_no_space (x : N) (s : string) :
  Engine.none_of Chars.isspace s = true →
  Engine.none_of Chars.isspace (pretty_N_go x s) = true.
Proof.
  revert s. induction (N.lt_wf_0 x) as [x _ IH]; intros s Hs.
  assert (x = 0 ∨ 0 < x)%N as [-> | Hx] by lia; [by rewrite pretty_N_go_0|].
  rewrite pretty_N_go_step by done. apply IH; [by apply N.div_lt|].
  cbn [Engine.none_of]. rewrite Hs.
  destruct (pretty_char_digit (x `mod` 10)) as (_ & -> & _); [|done].
  by apply N.mod_lt.
Qed.

Lemma pretty_no_space (z : Z) : Engine.none_of Chars.isspace (pretty z) = true.
Proof.
  destruct z as [|x|x]; [done|..]; unfold pretty, pretty_Z, pretty, pretty_positive,
    pretty, pretty_N; (destruct (decide _); [done|]).
  - by apply pretty_go_no_space.
  - change ("-" +:+ ?s) with (String "-" s). cbn [Engine.none_of].
    by rewrite pretty_go_no_space.
Qed.

Lemma int_acc_pretty_char (acc : nat) (k : N) (s : string) :
  (k < 10)%N →
  Date.int_acc acc (String (pretty_N_char k) s) = Date.int_acc (10 * acc + N.to_nat k) s.
Proof.
  intros Hk. destruct (pretty_char_digit k Hk) as (H1 & _ & H2).
  cbn [Date.int_acc]. by rewrite H1, H2.
Qed.

Lemma N_zero_or_pos (k : N) : (k = 0 ∨ 0 < k)%N.
Proof. lia. Qed.

(** A decimal text of four digits is the text of a number from 1000 to
    9999, and [int] reads the number back. *)
Lemma pretty_four (z : Z) (y1 y2 y3 y4 : ascii) :
  pretty z = String y1 (String y2 (String y3 (String y4 ""))) →
  Chars.isdigit y1 = true →
  Z.of_nat (Date.int (pretty z)) = z ∧ (1000 ≤ z ≤ 9999)%Z.
Proof.
  destruct z as [|x|x].
  - done.
  - unfold pretty, pretty_Z, pretty, pretty_positive, pretty, pretty_N.
    destruct (decide _) as [|_]; [done|].
    change (Z.pos x) with (Z.of_N (N.pos x)).
    set (n := N.pos x). assert (0 < n)%N as Hn by done. clearbody n.
    assert (∀ k, (N.modulo k 10 < 10)%N) as Hmod by (intros k; by apply N.mod_lt).
    pose proof (N.div_mod n 10 ltac:(done)) as E0. pose proof (Hmod n) as M0.
    rewrite (pretty_N_go_step n) by done.
    set (a1 := N.div n 10) in *. set (r0 := N.modulo n 10) in *.
    destruct (N_zero_or_pos a1) as [-> | H1]; [by rewrite pretty_N_go_0|].
    pose proof (N.div_mod a1 10 ltac:(done)) as E1. pose proof (Hmod a1) as M1.
    rewrite (pretty_N_go_step a1) by done.
    set (a2 := N.div a1 10) in *. set (r1 := N.modulo a1 10) in *.
    destruct (N_zero_or_pos a2) as [-> | H2]; [by rewrite pretty_N_go_0|].
    pose proof (N.div_mod a2 10 ltac:(done)) as E2. pose proof (Hmod a2) as M2.
    rewrite (pretty_N_go_step a2) by done.
    set (a3 := N.div a2 10) in *. set (r2 := N.modulo a2 10) in *.
    destruct (N_zero_or_pos a3) as [-> | H3]; [by rewrite pretty_N_go_0|].
    pose proof (N.div_mod a3 10 ltac:(done)) as E3. pose proof (Hmod a3) as M3.
    rewrite (pretty_N_go_step a3) by done.
    set (a4 := N.div a3 10) in *. set (r3 := N.modulo a3 10) in *.
    destruct (N_zero_or_pos a4) as [E4 | H4].
    + rewrite E4, pretty_N_go_0. intros _ _.
      unfold Date.int. rewrite !int_acc_pretty_char by done. cbn [Date.int_acc].
      clearbody a1 a2 a3 a4 r0 r1 r2 r3. lia.
    + rewrite (pretty_N_go_step _ _ H4). intros Hp _. exfalso.
      apply (f_equal String.length) in Hp. cbn [String.length] in Hp.
      match type of Hp with String.length (pretty_N_go ?k ?t) = _ =>
        pose proof (pretty_go_length k t) as Hl end.
      cbn [String.length] in Hl. lia.
  - unfold pretty at 1, pretty_Z. change ("-" +:+ ?s) with (String "-" s).
    intros [= <- _] Hd. by vm_compute in Hd.
Qed.

Lemma strptime_in_year (t : string) (year : Z) (d : Date.date) :
  Date.strptime (t +:+ ", " +:+ pretty year) "%B %d, %Y" = Some d →
  Z.of_nat (Date.year d) = year ∧ (1000 ≤ year ≤ 9999)%Z.
Proof.
  intros Hp.
  destruct (strptime_year_suffix t (pretty year) d Hp (pretty_no_space year))
    as (y1 & y2 & y3 & y4 & Hy & Hd & ->).
  apply Forall_cons in Hd as [Hd1 _]. by apply (pretty_four year y1 y2 y3 y4).
Qed.

(** [X19] The dates of [_parse_ccf_date_range] lie in the year it is given.
    When the result is not the empty pair, the year is one of 1000 to 9999
    and both dates are renderings of dates that exist in that year; so for
    any other year, and for a text that names another year, the result is
    the empty pair. *)
Theorem parse_ccf_date_range_year (date_str : value) (year : Z) :
  _parse_ccf_date_range date_str year ≠ ("", "") →
  (1000 ≤ year ≤ 9999)%Z
  ∧ ∃ d1 d2, Date.valid d1 = true ∧ Date.valid d2 = true
      ∧ Z.of_nat (Date.year d1) = year ∧ Z.of_nat (Date.year d2) = year
      ∧ _parse_ccf_date_range date_str year
        = (Date.strftime_b_d_Y d1, Date.strftime_b_d_Y d2).
Proof.
  unfold _parse_ccf_date_range.
  destruct (negb (Str.truthy (_safe_str date_str))); [done|]. cbv zeta.
  destruct (negb (Py.contains_char "-"%char _)).
  - destruct (Date.strptime _ _) as [dt|] eqn:Hp; [|done]. intros _.
    destruct (strptime_in_year _ _ _ Hp) as [Hy Hrange].
    split; [done|]. exists dt, dt. pose proof (strptime_valid _ _ _ Hp). done.
  - destruct (split_hyphen _) as [l r].
    match goal with |- context [match Date.strptime ?a ?b with _ => _ end] =>
      destruct (Date.strptime a b) as [d1|] eqn:H1 end; [|done].
    match goal with |- context [match Date.strptime ?a ?b with _ => _ end] =>
      destruct (Date.strptime a b) as [d2|] eqn:H2 end; [|done].
    intros _.
    destruct (strptime_in_year _ _ _ H1) as [Hy1 Hrange].
    destruct (strptime_in_year _ _ _ H2) as [Hy2 _].
    split; [done|]. exists d1, d2.
    pose proof (strptime_valid _ _ _ H1). pose proof (strptime_valid _ _ _ H2). done.
Qed.

Lemma parse_ccf_date_range_year_witness :
  (1000 ≤ 2026 ≤ 9999)%Z
  ∧ ∃ d1 d2, Date.valid d1 = true ∧ Date.valid d2 = true
      ∧ Z.of_nat (Date.year d1) = 2026%Z ∧ Z.of_nat (Date.year d2) = 2026%Z
      ∧ _parse_ccf_date_range (VStr "April 29-May 4, 2026") 2026
        = (Date.strftime_b_d_Y d1, Date.strftime_b_d_Y d2).
Proof.
  apply (parse_ccf_date_range_year (VStr "April 29-May 4, 2026") 2026).
  vm_compute. discriminate.
Defined.

(** ** A second run *)

Definition rerun_catalog : list entry :=
  [ <[ "name" := VStr "ICML" ]> {[ "link" := VStr "https://a.example" ]} ].

Definition rerun_incoming : list entry :=
  [ <[ "name" := VStr "ICML" ]> {[ "link" := VStr "https://b.example" ]};
    <[ "name" := VStr "ICML Conference Long" ]> {[ "link" := VStr "https://a.example" ]} ].

Example rerun_appends :
  (length <$> merge_update rerun_catalog rerun_incoming) = Some 1%nat
  ∧ (length <$> (merge_update rerun_catalog rerun_incoming
                 ≫= λ out, merge_update out rerun_incoming)) = Some 2%nat.
Proof. split; vm_compute; reflexivity. Qed.

(** The link key of [build_match_keys]. *)
Definition link_key_of (v : value) : string :=
  if Str.truthy (_safe_str v) then Str.strip (Str.lower (_safe_str v)) else "".

Lemma build_match_keys_eq (e : entry) :
  build_match_keys e
  = (link_key_of (get e "link" (VStr "")), _norm_key_exact (get e "name" (VStr "")),
     _norm_key_series (get e "name" (VStr ""))).
Proof. reflexivity. Qed.

Lemma typed_keys_elem (k lk ex se : string) :
  k ∈ typed_keys (lk, ex, se)
  ↔ (Str.truthy lk = true ∧ k = "L:" +:+ lk)
    ∨ (Str.truthy ex = true ∧ k = "N:" +:+ ex)
    ∨ (Str.truthy se = true ∧ k = "S:" +:+ se).
Proof.
  unfold typed_keys. rewrite !elem_of_app.
  destruct (Str.truthy lk), (Str.truthy ex), (Str.truthy se);
    rewrite ?list_elem_of_singleton, ?elem_of_nil; naive_solver.
Qed.

(** Two records share a typed key: they have the same non-empty link key,
    exact key or series key. *)
Lemma share_key_cases (l1 x1 s1 l2 x2 s2 : string) :
  share_key (l1, x1, s1) (l2, x2, s2)
  ↔ (Str.truthy l1 = true ∧ l1 = l2) ∨ (Str.truthy x1 = true ∧ x1 = x2)
    ∨ (Str.truthy s1 = true ∧ s1 = s2).
Proof.
  unfold share_key. setoid_rewrite typed_keys_elem. split.
  - intros (k & H1 & H2).
    destruct H1 as [[T1 ->] | [[T1 ->] | [T1 ->]]];
      destruct H2 as [[T2 E] | [[T2 E] | [T2 E]]];
      cbv beta iota delta [String.append] in E; try discriminate E;
      injection E as E; subst; tauto.
  - intros [[T ->] | [[T ->] | [T ->]]]; eexists; split; eauto 6.
Qed.

Lemma well_formed_get (e : entry) (k : string) :
  well_formed e → k ∈ text_fields →
  ∃ s, get e k (VStr "") = VStr s ∧ Whitespace.normal s.
Proof.
  intros (_ & Htext & _) Hk. destruct (Htext k Hk) as (s & Hs & Hn).
  exists s. unfold get. by rewrite Hs.
Qed.

(** Normalization leaves the keys of a well-formed record as they are. *)
Lemma build_match_keys_normalize (e : entry) :
  well_formed e → build_match_keys (normalize_entry_fields e) = build_match_keys e.
Proof.
  intros Hwf. rewrite !build_match_keys_eq.
  rewrite (get_normalized e "link" text_link), (get_normalized e "name" text_name).
  destruct (well_formed_get e "link" Hwf text_link) as (l & -> & Hl).
  destruct (well_formed_get e "name" Hwf text_name) as (n & -> & Hn).
  change (norm_value "link") with _norm_space. change (norm_value "name") with _norm_space.
  by rewrite !norm_space_fixed.
Qed.

Lemma get_merge_name (a b : entry) :
  get (merge_entries a b) "name" (VStr "") = get (normalize_entry_fields a) "name" (VStr "")
  ∨ get (merge_entries a b) "name" (VStr "") = get (normalize_entry_fields b) "name" (VStr "").
Proof.
  unfold get at 1 3. rewrite merge_entries_name.
  rewrite !(get_normalized _ "name" text_name).
  change (norm_value "name") with _norm_space. cbv zeta.
  destruct (_ && _); [by right | by left].
Qed.

Lemma link_key_truthy (l : string) :
  Str.truthy (link_key_of (VStr l)) = true → Str.truthy l = true.
Proof.
  unfold link_key_of. rewrite safe_str_str.
  destruct (Str.truthy (Str.strip l)) eqn:Ht; [|done]. intros _.
  destruct l; [done|done].
Qed.

Lemma get_merge_link (a b : entry) :
  Str.truthy (link_key_of (get (normalize_entry_fields a) "link" (VStr ""))) = true →
  get (merge_entries a b) "link" (VStr "") = get (normalize_entry_fields a) "link" (VStr "").
Proof.
  rewrite !(get_normalized _ "link" text_link).
  change (norm_value "link") with _norm_space. intros Ht%link_key_truthy.
  unfold get at 1. rewrite merge_entries_link. cbv zeta. by rewrite Ht.
Qed.

(** The merged record keeps every typed key its slot shared with the
    incoming record. *)
Lemma merge_keeps_shared_key (a b : entry) :
  share_key (build_match_keys (normalize_entry_fields a))
            (build_match_keys (normalize_entry_fields b)) →
  share_key (build_match_keys (merge_entries a b))
            (build_match_keys (normalize_entry_fields b)).
Proof.
  rewrite !build_match_keys_eq, !share_key_cases.
  intros [[T E] | [[T E] | [T E]]].
  - left. rewrite (get_merge_link a b T). split; [exact T | exact E].
  - right. left. destruct (get_merge_name a b) as [-> | ->].
    + split; [exact T | exact E].
    + split; [rewrite <- E; exact T | reflexivity].
  - right. right. destruct (get_merge_name a b) as [-> | ->].
    + split; [exact T | exact E].
    + split; [rewrite <- E; exact T | reflexivity].
Qed.

Lemma find_hit_in_keys (idx : gmap string nat) (keys : string * string * string) (hit : nat) :
  find_hit idx keys = Some hit → ∃ k, k ∈ typed_keys keys ∧ idx !! k = Some hit.
Proof.
  destruct keys as [[lk ex] se]. rewrite find_hit_probe. unfold probe.
  setoid_rewrite typed_keys_elem.
  destruct (Str.truthy lk) eqn:Tl.
  - destruct (idx !! ("L:" +:+ lk)) eqn:Hl; [intros [= ->]; eauto 8|].
    destruct (Str.truthy ex) eqn:Tx.
    + destruct (idx !! ("N:" +:+ ex)) eqn:Hx; [intros [= ->]; eauto 8|].
      destruct (Str.truthy se) eqn:Ts; [|done]. intros Hs. eauto 8.
    + destruct (Str.truthy se) eqn:Ts; [|done]. intros Hs. eauto 8.
  - destruct (Str.truthy ex) eqn:Tx.
    + destruct (idx !! ("N:" +:+ ex)) eqn:Hx; [intros [= ->]; eauto 8|].
      destruct (Str.truthy se) eqn:Ts; [|done]. intros Hs. eauto 8.
    + destruct (Str.truthy se) eqn:Ts; [|done]. intros Hs. eauto 8.
Qed.

(** The record an incoming record is merged into shares a typed key with it. *)
Lemma find_hit_shares (existing : list entry) (keys : string * string * string) (hit : nat) :
  find_hit (build_index existing) keys = Some hit →
  ∃ e, existing !! hit = Some e ∧ share_key (build_match_keys e) keys.
Proof.
  intros (k & Hk & Hidx)%find_hit_in_keys.
  unfold build_index in Hidx. rewrite build_index_from_lookup, lookup_empty in Hidx.
  apply fmap_Some in Hidx as ([i e] & Hfind & Hi). cbn in Hi. subst hit.
  replace (0 + i)%nat with i by lia.
  apply list_find_Some in Hfind as (He & Hke & _).
  exists e. split; [done|]. by exists k.
Qed.

(** An incoming record that shares a typed key with a normalized record of
    the catalog leaves the length of the catalog as it is. *)
Lemma merge_update_shared (cat : list entry) (ne : entry) :
  (∃ e, e ∈ normalize_entry_fields <$> cat
        ∧ share_key (build_match_keys e) (build_match_keys (normalize_entry_fields ne))) →
  ∃ out, merge_update cat [ne] = Some out ∧ length out = length cat.
Proof.
  intros Hshare. unfold merge_update. cbn [merge_loop].
  change (map normalize_entry_fields cat) with (normalize_entry_fields <$> cat).
  destruct (find_hit (build_index (normalize_entry_fields <$> cat))
              (build_match_keys (normalize_entry_fields ne))) as [hit|] eqn:Hhit.
  2:{ apply find_hit_share in Hhit. contradiction. }
  destruct (find_hit_shares _ _ _ Hhit) as (e & He & _).
  rewrite (merge_one_hit _ _ _ _ _ Hhit He). cbn [option_map fst].
  eexists. split; [reflexivity|]. by rewrite length_insert, length_fmap.
Qed.

(** [X20] A second run.  An incoming record that has a typed key (a link, or
    a name with a letter or a digit) is merged or appended by one run, and a
    second run with the same record finds it and leaves the length of the
    catalog as it is; an incoming record without any typed key is appended
    by every run.  With two incoming records a second run can still append:
    a record that was merged by its name into a slot whose name a later
    record made longer is not found again. *)
Theorem second_run (existing : list entry) (ne : entry) :
  (typed_keys (build_match_keys (normalize_entry_fields ne)) ≠ [] →
   ∃ out out', merge_update existing [ne] = Some out
     ∧ merge_update out [ne] = Some out' ∧ length out' = length out)
  ∧ (typed_keys (build_match_keys (normalize_entry_fields ne)) = [] →
     merge_update existing [ne]
     = Some ((normalize_entry_fields <$> existing) ++ [normalize_entry_fields ne]))
  ∧ ((length <$> merge_update rerun_catalog rerun_incoming) = Some 1%nat
     ∧ (length <$> (merge_update rerun_catalog rerun_incoming
                    ≫= λ out, merge_update out rerun_incoming)) = Some 2%nat).
Proof.
  set (ex := normalize_entry_fields <$> existing).
  set (n := normalize_entry_fields ne).
  assert (build_match_keys (normalize_entry_fields n) = build_match_keys n) as Hn.
  { apply build_match_keys_normalize, normalize_well_formed. }
  split; [|split; [|split; by vm_compute]].
  - intros Hkeys.
    assert (share_key (build_match_keys n) (build_match_keys n)) as Hself.
    { destruct (typed_keys (build_match_keys n)) as [|k ks] eqn:Hk;
        [exfalso; exact (Hkeys eq_refl)|].
      exists k. rewrite Hk. split; apply elem_of_cons; left; reflexivity. }
    assert (∃ out, merge_update existing [ne] = Some out
              ∧ ∃ e, e ∈ normalize_entry_fields <$> out
                     ∧ share_key (build_match_keys e) (build_match_keys n)) as Hrun.
    { unfold merge_update. cbn [merge_loop].
      change (map normalize_entry_fields existing) with ex. fold n.
      destruct (find_hit (build_index ex) (build_match_keys n)) as [hit|] eqn:Hhit.
      - destruct (find_hit_shares _ _ _ Hhit) as (e & He & Hshare).
        rewrite (merge_one_hit _ _ _ _ _ Hhit He). cbn [option_map fst].
        eexists. split; [reflexivity|].
        exists (normalize_entry_fields (merge_entries e n)). split.
        + apply list_elem_of_fmap. eexists. split; [reflexivity|].
          apply (list_elem_of_lookup_2 _ hit). apply list_lookup_insert_eq.
          by apply lookup_lt_Some in He.
        + rewrite build_match_keys_normalize by apply merge_well_formed.
          rewrite <- Hn. apply merge_keeps_shared_key. rewrite Hn.
          assert (e ∈ ex) as Hin by by apply list_elem_of_lookup_2 in He.
          apply list_elem_of_fmap in Hin as (e0 & -> & _).
          by rewrite build_match_keys_normalize by apply normalize_well_formed.
      - rewrite (merge_one_miss _ _ _ Hhit). cbn [option_map fst].
        eexists. split; [reflexivity|].
        exists (normalize_entry_fields n). split.
        + apply list_elem_of_fmap. exists n. split; [done|].
          apply elem_of_app. right. by apply list_elem_of_singleton.
        + by rewrite Hn. }
    destruct Hrun as (out & Hout & Hshare).
    destruct (merge_update_shared out ne Hshare) as (out' & Hout' & Hlen).
    exists out, out'. split; [exact Hout|]. split; [exact Hout' | exact Hlen].
  - intros Hkeys. unfold merge_update. cbn [merge_loop].
    change (map normalize_entry_fields existing) with ex. fold n.
    rewrite merge_one_miss; [done|].
    apply find_hit_none. intros k Hk. subst n. rewrite Hkeys in Hk.
    apply elem_of_nil in Hk. destruct Hk.
Qed.

(** ** Captured groups *)

Module Captures.

(** A pattern without capturing groups. *)
Fixpoint group_free (r : regex) : bool :=
  match r with
  | Grp _ _ => false
  | Cat r1 r2 | Alt r1 r2 => group_free r1 && group_free r2
  | Star r' | Lazy r' => group_free r'
  | _ => true
  end.

Lemma star_loop_groups (step : mstate → list mstate) (n : nat) :
  (∀ st st', st' ∈ step st → groups st' = groups st) →
  ∀ st st', st' ∈ star_loop step n st → groups st' = groups st.
Proof.
  intros Hstep. induction n as [|n IH]; intros st st' Hin; cbn [star_loop] in Hin.
  - by apply list_elem_of_singleton in Hin as ->.
  - apply elem_of_app in Hin as [Hin | Hin].
    + apply Engine.elem_of_flat_map in Hin as (st1 & H1 & Hin).
      destruct (0 <? consumed st st1)%nat; [|by apply elem_of_nil in Hin].
      apply IH in Hin. rewrite Hin. by apply Hstep.
    + by apply list_elem_of_singleton in Hin as ->.
Qed.

Lemma lazy_loop_groups (step : mstate → list mstate) (n : nat) :
  (∀ st st', st' ∈ step st → groups st' = groups st) →
  ∀ st st', st' ∈ lazy_loop step n st → groups st' = groups st.
Proof.
  intros Hstep. induction n as [|n IH]; intros st st' Hin; cbn [lazy_loop] in Hin.
  - by apply list_elem_of_singleton in Hin as ->.
  - apply elem_of_cons in Hin as [-> | Hin]; [done|].
    apply Engine.elem_of_flat_map in Hin as (st1 & H1 & Hin).
    destruct (0 <? consumed st st1)%nat; [|by apply elem_of_nil in Hin].
    apply IH in Hin. rewrite Hin. by apply Hstep.
Qed.

(** A pattern without groups captures nothing. *)
Lemma run_group_free (r : regex) (st st' : mstate) :
  group_free r = true → st' ∈ run r st → groups st' = groups st.
Proof.
  revert st st'. induction r as [|p|r1 IH1 r2 IH2|r1 IH1 r2 IH2|r IH|r IH|g r IH| | |];
    intros st st' Hf Hin; cbn [run] in Hin; cbn [group_free] in Hf.
  - by apply list_elem_of_singleton in Hin as ->.
  - destruct (rest st) as [|c s] eqn:Hs; [by apply elem_of_nil in Hin|].
    destruct (p c); [|by apply elem_of_nil in Hin].
    by apply list_elem_of_singleton in Hin as ->.
  - apply andb_true_iff in Hf as [Hf1 Hf2].
    apply Engine.elem_of_flat_map in Hin as (st1 & H1 & Hin).
    rewrite (IH2 _ _ Hf2 Hin). by apply IH1.
  - apply andb_true_iff in Hf as [Hf1 Hf2].
    apply elem_of_app in Hin as [Hin | Hin]; [by apply IH1 | by apply IH2].
  - apply (star_loop_groups _ _ (λ a b, IH a b Hf)) in Hin. exact Hin.
  - apply (lazy_loop_groups _ _ (λ a b, IH a b Hf)) in Hin. exact Hin.
  - discriminate Hf.
  - destruct (xorb _ _); [|by apply elem_of_nil in Hin].
    by apply list_elem_of_singleton in Hin as ->.
  - destruct (before st); [|by apply elem_of_nil in Hin].
    by apply list_elem_of_singleton in Hin as ->.
  - destruct (at_end st); [|by apply elem_of_nil in Hin].
    by apply list_elem_of_singleton in Hin as ->.
Qed.

(** At most [N] characters are left, and no captured text is longer. *)
Definition bounded (N : nat) (st : mstate) : Prop :=
  (String.length (rest st) ≤ N)%nat
  ∧ Forall (λ g, (String.length g.2 ≤ N)%nat) (groups st).

Lemma take_length (n : nat) (s : string) :
  (String.length (Str.take n s) ≤ String.length s)%nat.
Proof.
  revert s. induction n as [|n IH]; intros [|c s]; cbn [Str.take String.length]; try lia.
  specialize (IH s). lia.
Qed.

Lemma star_loop_bounded (N : nat) (step : mstate → list mstate) (n : nat) :
  (∀ st st', bounded N st → st' ∈ step st → bounded N st') →
  ∀ st st', bounded N st → st' ∈ star_loop step n st → bounded N st'.
Proof.
  intros Hstep. induction n as [|n IH]; intros st st' Hb Hin; cbn [star_loop] in Hin.
  - by apply list_elem_of_singleton in Hin as ->.
  - apply elem_of_app in Hin as [Hin | Hin].
    + apply Engine.elem_of_flat_map in Hin as (st1 & H1 & Hin).
      destruct (0 <? consumed st st1)%nat; [|by apply elem_of_nil in Hin].
      apply (IH st1); [|exact Hin]. by apply (Hstep st).
    + by apply list_elem_of_singleton in Hin as ->.
Qed.

Lemma lazy_loop_bounded (N : nat) (step : mstate → list mstate) (n : nat) :
  (∀ st st', bounded N st → st' ∈ step st → bounded N st') →
  ∀ st st', bounded N st → st' ∈ lazy_loop step n st → bounded N st'.
Proof.
  intros Hstep. induction n as [|n IH]; intros st st' Hb Hin; cbn [lazy_loop] in Hin.
  - by apply list_elem_of_singleton in Hin as ->.
  - apply elem_of_cons in Hin as [-> | Hin]; [done|].
    apply Engine.elem_of_flat_map in Hin as (st1 & H1 & Hin).
    destruct (0 <? consumed st st1)%nat; [|by apply elem_of_nil in Hin].
    apply (IH st1); [|exact Hin]. by apply (Hstep st).
Qed.

(** A group captures a piece of what was left of the subject. *)
Lemma run_bounded (N : nat) (r : regex) (st st' : mstate) :
  bounded N st → st' ∈ run r st → bounded N st'.
Proof.
  revert st st'. induction r as [|p|r1 IH1 r2 IH2|r1 IH1 r2 IH2|r IH|r IH|g r IH| | |];
    intros st st' Hb Hin; cbn [run] in Hin.
  - by apply list_elem_of_singleton in Hin as ->.
  - destruct (rest st) as [|c s] eqn:Hs; [by apply elem_of_nil in Hin|].
    destruct (p c); [|by apply elem_of_nil in Hin].
    apply list_elem_of_singleton in Hin as ->.
    destruct Hb as [Hl Hg]. rewrite Hs in Hl. cbn [String.length] in Hl.
    split; cbn [rest groups]; [lia | exact Hg].
  - apply Engine.elem_of_flat_map in Hin as (st1 & H1 & Hin).
    apply (IH2 st1); [|exact Hin]. by apply (IH1 st).
  - apply elem_of_app in Hin as [Hin | Hin]; [by apply (IH1 st) | by apply (IH2 st)].
  - exact (star_loop_bounded N _ _ IH st st' Hb Hin).
  - exact (lazy_loop_bounded N _ _ IH st st' Hb Hin).
  - apply list_elem_of_fmap in Hin as (st1 & -> & Hin).
    destruct (IH _ _ Hb Hin) as [Hl Hg]. split; cbn [rest groups]; [exact Hl|].
    constructor; [|exact Hg]. cbn [snd].
    pose proof (take_length (consumed st st1) (rest st)). destruct Hb as [Hb _]. lia.
  - destruct (xorb _ _); [|by apply elem_of_nil in Hin].
    by apply list_elem_of_singleton in Hin as ->.
  - destruct (before st); [|by apply elem_of_nil in Hin].
    by apply list_elem_of_singleton in Hin as ->.
  - destruct (at_end st); [|by apply elem_of_nil in Hin].
    by apply list_elem_of_singleton in Hin as ->.
Qed.

Lemma group_bounded (N : nat) (g : ascii) (m : mstate) :
  bounded N m → (String.length (group g m) ≤ N)%nat.
Proof.
  intros [_ Hg]. unfold group.
  induction Hg as [|[g' s] l Hs Hl IH]; cbn [lookup_group default from_option id String.length];
    [lia|].
  destruct (Ascii.eqb g g'); [exact Hs | exact IH].
Qed.

(** The scan of [re.search] starts a match where some of the subject is
    left, with nothing captured. *)
Lemma search_from_start (r : regex) (n : nat) (st m : mstate) :
  search_from n r st = Some m →
  ∃ st0, match_at r st0 = Some m ∧ groups st0 = groups st
         ∧ Engine.suffix (rest st0) (rest st).
Proof.
  revert st. induction n as [|n IH]; intros st; cbn [search_from].
  - destruct (match_at r st) as [m'|] eqn:Hm; [|done].
    intros [= ->]. exists st. split; [done|]. split; [done | constructor].
  - destruct (match_at r st) as [m'|] eqn:Hm.
    + intros [= ->]. exists st. split; [done|]. split; [done | constructor].
    + unfold advance. destruct (rest st) as [|c s'] eqn:Hs; [done|].
      intros H. apply IH in H as (st0 & H0 & Hg & Hsuf). cbn [groups rest] in Hg, Hsuf.
      exists st0. split; [done|]. split; [done|]. by constructor.
Qed.

Lemma match_at_elem (r : regex) (st m : mstate) :
  match_at r st = Some m → m ∈ run r st.
Proof.
  unfold match_at. destruct (run r st) as [|m' l]; [done|].
  intros [= ->]. by left.
Qed.

(** Behind one character of the subject [c], with nothing captured. *)
Lemma bounded_behind (c : string) (st st' : mstate) (p : ascii → bool) :
  Engine.suffix (rest st) c → groups st = [] → st' ∈ run (Chr p) st →
  bounded (String.length c - 1) st'.
Proof.
  intros Hsuf Hg Hin. cbn [run] in Hin.
  destruct (rest st) as [|a s] eqn:Hs; [by apply elem_of_nil in Hin|].
  destruct (p a); [|by apply elem_of_nil in Hin].
  apply list_elem_of_singleton in Hin as ->.
  apply Engine.suffix_length in Hsuf. cbn [String.length] in Hsuf.
  split; cbn [rest groups]; [lia | by rewrite Hg].
Qed.

End Captures.

(** ** Subject canonicalization, once more *)

Lemma rstrip_length (s : string) : (String.length (Str.rstrip s) ≤ String.length s)%nat.
Proof.
  induction s as [|c s IH]; [done|]. cbn [Str.rstrip].
  destruct (Str.rstrip s); [destruct (Chars.isspace c)|]; cbn [String.length] in *; lia.
Qed.

Lemma strip_length (s : string) : (String.length (Str.strip s) ≤ String.length s)%nat.
Proof.
  unfold Str.strip. pose proof (rstrip_length (Str.lstrip s)).
  pose proof (Whitespace.lstrip_length s). lia.
Qed.

Lemma collapse_length (skip : bool) (s : string) :
  (String.length (Whitespace.collapse skip s) ≤ String.length s)%nat.
Proof.
  revert skip. induction s as [|c s IH]; intros skip; [done|]. cbn [Whitespace.collapse].
  pose proof (IH true). pose proof (IH false).
  destruct (Chars.isspace c); [destruct skip|]; cbn [String.length]; lia.
Qed.

Lemma norm_space_length (s : string) :
  (String.length (_norm_space (VStr s)) ≤ String.length s)%nat.
Proof.
  unfold _norm_space, _safe_str, Py.str. rewrite Whitespace.re_sub_ws.
  pose proof (strip_length (Whitespace.collapse false (Str.strip s))).
  pose proof (collapse_length false (Str.strip s)).
  pose proof (strip_length s). lia.
Qed.

(** The text [ccf_label] captures is shorter than the label. *)
Lemma ccf_label_group (c : string) (m : mstate) :
  re_match ccf_label c = Some m →
  (String.length (group "1" m) < String.length c)%nat.
Proof.
  intros Hm. apply Captures.match_at_elem in Hm.
  unfold ccf_label in Hm.
  change (seq [Star ws; chr "("; Grp "1" (plus any); chr ")"; Eos])
    with (Cat (Star ws) (Cat (chr "(") (seq [Grp "1" (plus any); chr ")"; Eos]))) in Hm.
  cbn [run] in Hm.
  apply Engine.elem_of_flat_map in Hm as (st1 & H1 & Hm).
  apply Engine.elem_of_flat_map in Hm as (st2 & H2 & Hm).
  apply Engine.elem_of_flat_map in Hm as (st3 & H3 & Hm).
  assert (groups st2 = [] ∧ Engine.suffix (rest st2) c) as [Hg2 Hs2].
  { split.
    - rewrite (Captures.run_group_free (Star ws) st1 st2 eq_refl H2).
      by rewrite (Captures.run_group_free ccf_prefix (start c) st1 eq_refl H1).
    - eapply Engine.suffix_trans; [by apply (Engine.run_suffix (Star ws) st1)|].
      by apply (Engine.run_suffix ccf_prefix (start c)). }
  pose proof (Captures.bounded_behind c st2 st3 _ Hs2 Hg2 H3) as Hb.
  apply (Captures.run_bounded _ _ _ _ Hb) in Hm.
  pose proof (Captures.group_bounded _ "1" m Hm) as Hl.
  assert (0 < String.length c)%nat; [|lia].
  apply Engine.suffix_length in Hs2.
  cbn [run chr] in H3. destruct (rest st2); [by apply elem_of_nil in H3|].
  cbn [String.length] in Hs2. lia.
Qed.

(** And so is the text [trailing_paren] captures. *)
Lemma trailing_paren_group (c : string) (m : mstate) :
  re_search trailing_paren c = Some m →
  (String.length (group "1" m) < String.length c)%nat.
Proof.
  intros Hm. apply Captures.search_from_start in Hm as (st0 & Hm & Hg & Hsuf).
  apply Captures.match_at_elem in Hm. cbn [start groups rest] in Hg, Hsuf.
  unfold trailing_paren in Hm.
  match type of Hm with
  | _ ∈ run (seq (?a :: ?l)) _ => change (seq (a :: l)) with (Cat a (seq l)) in Hm
  end.
  cbn [run] in Hm.
  apply Engine.elem_of_flat_map in Hm as (st1 & H1 & Hm).
  pose proof (Captures.bounded_behind c st0 st1 _ Hsuf Hg H1) as Hb.
  apply (Captures.run_bounded _ _ _ _ Hb) in Hm.
  pose proof (Captures.group_bounded _ "1" m Hm) as Hl.
  assert (0 < String.length c)%nat; [|lia].
  apply Engine.suffix_length in Hsuf.
  cbn [run chr] in H1. destruct (rest st0); [by apply elem_of_nil in H1|].
  cbn [String.length] in Hsuf. lia.
Qed.

(** Rule (1) does not rewrite the label [c]: [c] is not of the form
    "CCF code (text)", and it does not both start with "CCF code" and end in
    a parenthesis without parentheses inside. *)
Definition rule1_rests (c : string) : Prop :=
  re_match ccf_label c = None
  ∧ (re_match ccf_prefix c = None ∨ re_search trailing_paren c = None).

(** A label in normal form that rule (1) rewrites becomes one of the two
    canonical names or a shorter label. *)
Lemma canonicalize_subject_shrinks (c : string) :
  Whitespace.normal c → ¬ rule1_rests c →
  canonicalize_subject (VStr c) = "Wireless/Communication"
  ∨ canonicalize_subject (VStr c) = "Network System"
  ∨ (String.length (canonicalize_subject (VStr c)) < String.length c)%nat.
Proof.
  intros Hn Hrule. unfold canonicalize_subject.
  rewrite (norm_space_fixed c Hn).
  set (s1 := match re_match ccf_label c with Some _ => _ | None => _ end).
  assert ((String.length s1 ≤ String.length c)%nat
          ∧ (re_match ccf_label c ≠ None → (String.length s1 < String.length c)%nat)
          ∧ (re_match ccf_label c = None → s1 = c)) as (Hle1 & Hlt1 & Heq1).
  { unfold s1. destruct (re_match ccf_label c) as [m|] eqn:Hm.
    - pose proof (ccf_label_group c m Hm).
      pose proof (norm_space_length (group "1" m)).
      split; [lia|]. split; [intros _; lia | done].
    - split; [lia|]. split; done. }
  clearbody s1.
  set (s2 := match re_search trailing_paren s1 with Some _ => _ | None => _ end).
  assert ((String.length s2 ≤ String.length s1)%nat
          ∧ (re_match ccf_prefix s1 ≠ None → re_search trailing_paren s1 ≠ None →
             (String.length s2 < String.length s1)%nat)) as (Hle2 & Hlt2).
  { unfold s2. destruct (re_search trailing_paren s1) as [m2|] eqn:Hm2.
    - destruct (re_match ccf_prefix s1) as [m|] eqn:Hm.
      + pose proof (trailing_paren_group s1 m2 Hm2).
        pose proof (norm_space_length (group "1" m2)).
        split; [lia|]. intros _ _. lia.
      + split; [lia | done].
    - split; [lia | done]. }
  assert (String.length s2 < String.length c)%nat as Hlt.
  { destruct (re_match ccf_label c) as [m|] eqn:Hm.
    - assert (String.length s1 < String.length c)%nat by (by apply Hlt1). lia.
    - rewrite (Heq1 eq_refl) in *.
      destruct (re_match ccf_prefix c) as [m|] eqn:Hp.
      + destruct (re_search trailing_paren c) as [m2|] eqn:Hs.
        * apply Hlt2; done.
        * destruct Hrule. split; [done | by right].
      + destruct Hrule. split; [done | by left]. }
  clearbody s2. cbv zeta.
  destruct (mem (Str.lower s2) wireless_labels); cbv iota;
    [left; vm_compute; reflexivity|].
  destruct (mem (Str.lower s2) networking_labels); cbv iota;
    [right; left; vm_compute; reflexivity|].
  destruct (String.eqb (Str.lower s2) "network system"); cbv iota;
    [right; by left|].
  right. right. exact Hlt.
Qed.

(** A label in normal form that rule (1) leaves alone and that is not
    renamed is its own canonical form. *)
Lemma canonicalize_subject_rests (s : string) :
  Whitespace.normal s → rule1_rests s → no_rename s →
  canonicalize_subject (VStr s) = s.
Proof.
  intros Hn [Hl Hp] (H1 & H2 & H3). unfold canonicalize_subject.
  rewrite (norm_space_fixed s Hn). rewrite Hl.
  destruct Hp as [Hp | Hp]; rewrite Hp.
  - destruct (re_search trailing_paren s); by rewrite H1, H2, H3.
  - by rewrite H1, H2, H3.
Qed.

(** [C6] As the program has it: canonicalizing twice is canonicalizing once
    exactly for the labels whose canonical form [c] rule (1) does not rewrite
    again, that is, [c] does not match "^CCF\s+\w+\s*\((.+)\)$", and [c] does
    not both start with "CCF", white space and a word and end in a
    parenthesis without parentheses inside ("CCF" in any case).  For every
    other label the second pass changes the result of the first. *)
Theorem canonicalize_subject_idempotent (x : string) :
  canonicalize_subject (VStr (canonicalize_subject (VStr x)))
  = canonicalize_subject (VStr x)
  ↔ re_match ccf_label (canonicalize_subject (VStr x)) = None
    ∧ (re_match ccf_prefix (canonicalize_subject (VStr x)) = None
       ∨ re_search trailing_paren (canonicalize_subject (VStr x)) = None).
Proof.
  change (canonicalize_subject (VStr (canonicalize_subject (VStr x)))
          = canonicalize_subject (VStr x)
          ↔ rule1_rests (canonicalize_subject (VStr x))).
  destruct (canonicalize_subject_cases (VStr x)) as [-> | [-> | [Hn Hr]]].
  - split; intros _; [|vm_compute; reflexivity].
    split; [vm_compute; reflexivity | left; vm_compute; reflexivity].
  - split; intros _; [|vm_compute; reflexivity].
    split; [vm_compute; reflexivity | left; vm_compute; reflexivity].
  - set (c := canonicalize_subject (VStr x)) in *. clearbody c. split.
    + intros Hfix.
      destruct (re_match ccf_label c) as [m|] eqn:Hl.
      * exfalso.
        destruct (canonicalize_subject_shrinks c Hn) as [H | [H | H]].
        -- intros [Hl' _]. by rewrite Hl in Hl'.
        -- rewrite Hfix in H. subst c. vm_compute in Hl. discriminate Hl.
        -- rewrite Hfix in H. subst c. vm_compute in Hl. discriminate Hl.
        -- rewrite Hfix in H. lia.
      * split; [done|].
        destruct (re_match ccf_prefix c) as [mp|] eqn:Hp; [|by left].
        destruct (re_search trailing_paren c) as [m2|] eqn:Hs; [|by right].
        exfalso.
        destruct (canonicalize_subject_shrinks c Hn) as [H | [H | H]].
        -- intros [_ [Hp' | Hs']]; [by rewrite Hp in Hp' | by rewrite Hs in Hs'].
        -- rewrite Hfix in H. subst c. vm_compute in Hp. discriminate Hp.
        -- rewrite Hfix in H. subst c. vm_compute in Hp. discriminate Hp.
        -- rewrite Hfix in H. lia.
    + intros Hrule. by apply canonicalize_subject_rests.
Qed.

(** Labels that start with "CCF" and a word and are their own canonical
    form: "CCF A (x)y" here, and "CCF A", "CCF NW", "ccf rank a". *)
Lemma canonicalize_subject_idempotent_witness :
  canonicalize_subject (VStr (canonicalize_subject (VStr "CCF A (x)y")))
  = canonicalize_subject (VStr "CCF A (x)y").
Proof.
  apply (canonicalize_subject_idempotent "CCF A (x)y").
  split; [vm_compute; reflexivity | right; vm_compute; reflexivity].
Defined.

(** Rule (1) on labels it leaves as they are and on labels it rewrites. *)
Example canonicalize_subject_samples :
  map (λ x, canonicalize_subject (VStr x))
    ["CCF A"; "CCF NW"; "ccf rank a"; "CCF A (x)y"; "CCF NW (Network System)";
     "ccf  a(Wireless & Communication) "; "CCF B ((C))"; "CCF A (x) (y)"]
  = ["CCF A"; "CCF NW"; "ccf rank a"; "CCF A (x)y"; "Network System";
     "Wireless/Communication"; "(C)"; "x) (y"].
Proof. vm_compute. reflexivity. Qed.

(** ** Merged or appended *)

(** Some record of [reg] shares a typed key with [e]. *)
Definition known (reg : list entry) (e : entry) : bool :=
  existsb (λ r, existsb (λ k, bool_decide (k ∈ typed_keys (build_match_keys e)))
                        (typed_keys (build_match_keys r)))
          reg.

(** The records whose keys the index of a run holds once the incoming
    records [nes] are through: the records [reg] it started from and, of
    [nes], the normalized records that were appended, each as it was when it
    was appended.  A record that is merged into a slot registers nothing. *)
Fixpoint registered (reg : list entry) (nes : list entry) : list entry :=
  match nes with
  | [] => reg
  | ne :: nes' =>
      let ne2 := normalize_entry_fields ne in
      if known reg ne2 then registered reg nes' else registered (reg ++ [ne2]) nes'
  end.

Lemma known_spec (reg : list entry) (e : entry) :
  known reg e = true
  ↔ ∃ r, r ∈ reg ∧ share_key (build_match_keys r) (build_match_keys e).
Proof.
  unfold known, share_key. rewrite existsb_exists. split.
  - intros (r & Hr & Hk). apply existsb_exists in Hk as (k & Hk1 & Hk2).
    apply bool_decide_eq_true in Hk2.
    exists r. split; [by apply list_elem_of_In|]. exists k. split; [by apply list_elem_of_In | done].
  - intros (r & Hr & k & Hk1 & Hk2). exists r. split; [by apply list_elem_of_In|].
    apply existsb_exists. exists k. split; [by apply list_elem_of_In|].
    by apply bool_decide_eq_true.
Qed.

(** The index of a catalog with one more record is the index of the catalog
    with the keys of that record registered at the new position. *)
Lemma build_index_from_snoc i (l : list entry) (e : entry) (idx : gmap string nat) :
  build_index_from i (l ++ [e]) idx
  = register (build_index_from i l idx) (build_match_keys e) (i + length l).
Proof.
  revert i idx. induction l as [|x l IH]; intros i idx; cbn [app build_index_from length].
  - by replace (i + 0)%nat with i by lia.
  - rewrite IH. by replace (S i + length l)%nat with (i + S (length l))%nat by lia.
Qed.

Lemma build_index_snoc (l : list entry) (e : entry) :
  build_index (l ++ [e]) = register (build_index l) (build_match_keys e) (length l).
Proof. unfold build_index. by rewrite build_index_from_snoc. Qed.

Lemma merge_loop_app (st : catalog) (l1 l2 : list entry) :
  merge_loop st (l1 ++ l2)
  = match merge_loop st l1 with
    | Some st' => merge_loop st' l2
    | None => None
    end.
Proof.
  revert st. induction l1 as [|x l1 IH]; intros st; cbn [app merge_loop]; [done|].
  destruct (merge_one st x); [apply IH | done].
Qed.

(** One turn of the loop on a catalog with one slot for each registered
    record and the index of the registered records. *)
Lemma merge_one_registered (reg cat : list entry) (ne : entry) :
  length cat = length reg →
  (known reg (normalize_entry_fields ne) = true
   ∧ ∃ i e old, reg !! i = Some e
       ∧ share_key (build_match_keys e) (build_match_keys (normalize_entry_fields ne))
       ∧ cat !! i = Some old
       ∧ merge_one (cat, build_index reg) ne
         = Some (<[i := merge_entries old (normalize_entry_fields ne)]> cat,
                 build_index reg))
  ∨ (known reg (normalize_entry_fields ne) = false
     ∧ merge_one (cat, build_index reg) ne
       = Some (cat ++ [normalize_entry_fields ne],
               build_index (reg ++ [normalize_entry_fields ne]))).
Proof.
  intros Hlen.
  destruct (find_hit (build_index reg) (build_match_keys (normalize_entry_fields ne)))
    as [hit|] eqn:Hhit.
  - left. destruct (find_hit_shares _ _ _ Hhit) as (e & He & Hshare).
    assert (hit < length cat)%nat as Hlt.
    { rewrite Hlen. by apply lookup_lt_is_Some_1. }
    destruct (lookup_lt_is_Some_2 cat hit Hlt) as [old Hold].
    split.
    + apply known_spec. exists e. split; [by apply list_elem_of_lookup_2 in He | exact Hshare].
    + exists hit, e, old. split; [exact He|]. split; [exact Hshare|]. split; [exact Hold|].
      exact (merge_one_hit _ _ _ _ _ Hhit Hold).
  - right. split.
    + destruct (known reg (normalize_entry_fields ne)) eqn:Hk; [|reflexivity].
      apply known_spec in Hk. apply find_hit_share in Hhit. contradiction.
    + rewrite (merge_one_miss _ _ _ Hhit), build_index_snoc, Hlen. reflexivity.
Qed.

(** The loop keeps one slot for each registered record, and its index is the
    index of the registered records. *)
Lemma merge_loop_registered (nes : list entry) (reg cat : list entry) :
  length cat = length reg →
  ∃ cat', merge_loop (cat, build_index reg) nes
          = Some (cat', build_index (registered reg nes))
          ∧ length cat' = length (registered reg nes).
Proof.
  revert reg cat. induction nes as [|ne nes IH]; intros reg cat Hlen;
    cbn [merge_loop registered].
  - exists cat. by split.
  - cbv zeta.
    destruct (merge_one_registered reg cat ne Hlen)
      as [(Hk & i & e & old & _ & _ & Hold & ->) | (Hk & ->)]; rewrite Hk.
    + apply IH. by rewrite length_insert.
    + apply IH. rewrite !length_app. cbn [length]. lia.
Qed.

Lemma merge_update_app (existing pre : list entry) (ne : entry) (cat : list entry)
    (idx : gmap string nat) :
  merge_loop (normalize_entry_fields <$> existing,
              build_index (normalize_entry_fields <$> existing)) pre = Some (cat, idx) →
  merge_update existing (pre ++ [ne]) = fst <$> merge_one (cat, idx) ne.
Proof.
  intros Hloop. unfold merge_update.
  change (map normalize_entry_fields existing) with (normalize_entry_fields <$> existing).
  rewrite merge_loop_app, Hloop. cbn [merge_loop].
  by destruct (merge_one (cat, idx) ne) as [[??]|].
Qed.

(** [X3] Merged or appended, for every record of a run.  When the records
    [pre] are through, the catalog has one slot for each registered record:
    the normalized records of the catalog the run started with and the
    records of [pre] that were appended.  The next record is appended exactly
    when its normalized form shares no typed key (link, exact name or series,
    each non-empty and compared within its kind) with any registered record;
    when it shares one, it is merged into the slot of a registered record that
    shares a key with it, and the catalog keeps its length. *)
Theorem merged_or_appended (existing pre : list entry) (ne : entry) :
  ∃ cat,
    merge_update existing pre = Some cat
    ∧ length cat = length (registered (normalize_entry_fields <$> existing) pre)
    ∧ ((∃ e, e ∈ registered (normalize_entry_fields <$> existing) pre
             ∧ share_key (build_match_keys e)
                         (build_match_keys (normalize_entry_fields ne)))
       → ∃ i e old,
           registered (normalize_entry_fields <$> existing) pre !! i = Some e
           ∧ share_key (build_match_keys e) (build_match_keys (normalize_entry_fields ne))
           ∧ cat !! i = Some old
           ∧ merge_update existing (pre ++ [ne])
             = Some (<[i := merge_entries old (normalize_entry_fields ne)]> cat))
    ∧ ((¬ ∃ e, e ∈ registered (normalize_entry_fields <$> existing) pre
               ∧ share_key (build_match_keys e)
                           (build_match_keys (normalize_entry_fields ne)))
       → merge_update existing (pre ++ [ne])
         = Some (cat ++ [normalize_entry_fields ne])).
Proof.
  set (ex := normalize_entry_fields <$> existing).
  destruct (merge_loop_registered pre ex ex eq_refl) as (cat & Hloop & Hlen).
  exists cat. split.
  { unfold merge_update.
    change (map normalize_entry_fields existing) with ex. by rewrite Hloop. }
  split; [exact Hlen|].
  rewrite (merge_update_app existing pre ne cat _ Hloop).
  destruct (merge_one_registered (registered ex pre) cat ne Hlen)
    as [(Hk & i & e & old & He & Hshare & Hold & ->) | (Hk & ->)].
  - split.
    + intros _. exists i, e, old. split; [exact He|]. split; [exact Hshare|].
      split; [exact Hold | reflexivity].
    + intros Hnone. destruct Hnone. exists e.
      split; [by apply list_elem_of_lookup_2 in He | exact Hshare].
  - split.
    + intros Hsome. apply known_spec in Hsome. rewrite Hk in Hsome. discriminate Hsome.
    + intros _. reflexivity.
Qed.

(** The two records of [icml_incoming]: the first is merged into the slot of
    "ICML" by its name and registers nothing, so the second, which has the
    link of the first and another name, shares no key with a registered
    record and is appended.  And the second of two new records that share a
    link is merged into the slot of the first, a record the catalog did not
    hold before the run. *)
Example registered_samples :
  (length <$> merge_update icml_catalog (take 1 icml_incoming),
   length (registered (normalize_entry_fields <$> icml_catalog) (take 1 icml_incoming)),
   known (registered (normalize_entry_fields <$> icml_catalog) (take 1 icml_incoming))
         (normalize_entry_fields (<[ "name" := VStr "Intl. Conf. on Machine Learning" ]>
                                    {[ "link" := VStr "https://icml.cc" ]})),
   length <$> merge_update icml_catalog icml_incoming)
  = (Some 1%nat, 1%nat, false, Some 2%nat)
  ∧ (length (registered [] (rev icml_incoming)),
     length <$> merge_update [] (rev icml_incoming))
    = (1%nat, Some 1%nat).
Proof. split; vm_compute; reflexivity. Qed.

(** ** The order of the ordering stage *)

(** What becomes of one character when "Z" is written "+00:00". *)
Definition z_char (c : ascii) : list ascii :=
  if Ascii.eqb c "Z" then list_ascii_of_string "+00:00" else [c].

(** The text with every "Z" replaced by "+00:00" and every other character
    left as it is. *)
Definition z_as_utc (s : string) : string :=
  string_of_list_ascii (flat_map z_char (list_ascii_of_string s)).

Lemma string_of_list_ascii_app (l1 l2 : list ascii) :
  string_of_list_ascii (l1 ++ l2) = string_of_list_ascii l1 +:+ string_of_list_ascii l2.
Proof. induction l1 as [|c l1 IH]; [done|]. cbn. by rewrite IH. Qed.

Lemma replace_Z_spec (s : string) : replace_Z s = z_as_utc s.
Proof.
  unfold z_as_utc. induction s as [|c s IH]; [done|].
  cbn [replace_Z list_ascii_of_string flat_map]. rewrite string_of_list_ascii_app, <- IH.
  unfold z_char. by destruct (Ascii.eqb c "Z").
Qed.

(** The submission deadline of a record, as stripped text. *)
Definition deadline_text (e : entry) : string :=
  _safe_str (get e "Submission Deadline" VNone).

Section OrderingSpec.

Variable fromisoformat_timestamp : string → option Q.
Variable naive_timestamp : Date.date → option Q.

(** The deadline text [d] is parseable, with the timestamp [t]: it is not
    empty, and either it is an ISO-8601 text once "Z" is written "+00:00",
    which is tried first, or it is not and it is a date "Mon DD YYYY" whose
    midnight has a timestamp. *)
Definition parses (d : string) (t : Q) : Prop :=
  d ≠ ""
  ∧ (fromisoformat_timestamp (z_as_utc d) = Some t
     ∨ (fromisoformat_timestamp (z_as_utc d) = None
        ∧ ∃ dt, Date.strptime d "%b %d %Y" = Some dt ∧ naive_timestamp dt = Some t)).

Lemma ts_parses (d : string) (t : Q) :
  Str.strip d = d →
  _ts fromisoformat_timestamp naive_timestamp d = Some t ↔ parses d t.
Proof.
  intros Hd. unfold _ts, parses, _safe_str, Py.str. rewrite Hd, replace_Z_spec.
  destruct d as [|c d']; cbn [Str.is_empty].
  { split; [done | by intros [? _]]. }
  destruct (fromisoformat_timestamp _) as [t'|].
  - split.
    + intros [= ->]. split; [done | by left].
    + intros [_ [[= ->] | [? _]]]; done.
  - destruct (Date.strptime _ _) as [dt|].
    + split.
      * intros Ht. split; [done|]. right. split; [done|]. by exists dt.
      * intros [_ [? | [_ (dt' & [= <-] & Ht)]]]; done.
    + split; [done|]. intros [_ [? | [_ (dt' & ? & _)]]]; done.
Qed.

Lemma deadline_ts_parses (e : entry) (t : Q) :
  deadline_ts fromisoformat_timestamp naive_timestamp e = Some t
  ↔ parses (deadline_text e) t.
Proof. apply ts_parses, safe_str_stripped. Qed.

Lemma in_order_parses (a b : entry) :
  in_order fromisoformat_timestamp naive_timestamp a b →
  (∀ tb, parses (deadline_text b) tb →
     ∃ ta, parses (deadline_text a) ta
           ∧ ((ta < tb)%Q ∨ ((ta == tb)%Q ∧ String.le (lower_name a) (lower_name b))))
  ∧ ((∀ ta, ¬ parses (deadline_text a) ta) →
     (∀ tb, ¬ parses (deadline_text b) tb) ∧ String.le (lower_name a) (lower_name b)).
Proof.
  unfold in_order. intros Hord. split.
  - intros tb Hb. apply deadline_ts_parses in Hb. rewrite Hb in Hord.
    destruct (deadline_ts _ _ a) as [ta|] eqn:Ha; [|done].
    exists ta. split; [by apply deadline_ts_parses | exact Hord].
  - intros Hna.
    destruct (deadline_ts _ _ a) as [ta|] eqn:Ha.
    { apply deadline_ts_parses in Ha. by destruct (Hna ta). }
    destruct (deadline_ts _ _ b) as [tb|] eqn:Hb; [done|].
    split; [|exact Hord]. intros tb Hb'. apply deadline_ts_parses in Hb'.
    rewrite Hb in Hb'. discriminate Hb'.
Qed.

End OrderingSpec.

(** [C8] The order [sort_output] puts the records in.  A deadline is
    parseable when its stripped text is not empty and is read as ISO-8601
    with each "Z" written "+00:00", which is tried first, or else as
    "Mon DD YYYY".  For any two positions [i < j] of the output: if the
    record at [j] has a parseable deadline, so has the record at [i], with a
    smaller timestamp or with an equal one and a lower-cased name that is not
    greater; and if the record at [i] has no parseable deadline, the record
    at [j] has none either and its lower-cased name is not smaller.  So the
    parseable deadlines come first by ascending timestamp, ties by name, and
    the others follow as a block ordered by name.  And three records with the
    deadlines "Mar 01 2026", "", "Jan 10 2026" come out in the order
    "Jan 10 2026", "Mar 01 2026", "" (the two dates are not ISO texts, and
    10 January is the earlier instant). *)
Theorem sort_output_order
    (fromisoformat_timestamp : string → option Q)
    (naive_timestamp : Date.date → option Q) :
  (∀ (entries : list entry) i j a b,
     (i < j)%nat →
     sort_output fromisoformat_timestamp naive_timestamp entries !! i = Some a →
     sort_output fromisoformat_timestamp naive_timestamp entries !! j = Some b →
     (∀ tb, parses fromisoformat_timestamp naive_timestamp (deadline_text b) tb →
        ∃ ta, parses fromisoformat_timestamp naive_timestamp (deadline_text a) ta
              ∧ ((ta < tb)%Q
                 ∨ ((ta == tb)%Q ∧ String.le (lower_name a) (lower_name b))))
     ∧ ((∀ ta, ¬ parses fromisoformat_timestamp naive_timestamp (deadline_text a) ta) →
        (∀ tb, ¬ parses fromisoformat_timestamp naive_timestamp (deadline_text b) tb)
        ∧ String.le (lower_name a) (lower_name b)))
  ∧ (∀ (e1 e2 e3 : entry) (t1 t3 : Q),
       e1 !! "Submission Deadline" = Some (VStr "Mar 01 2026") →
       e2 !! "Submission Deadline" = Some (VStr "") →
       e3 !! "Submission Deadline" = Some (VStr "Jan 10 2026") →
       fromisoformat_timestamp "Mar 01 2026" = None →
       fromisoformat_timestamp "Jan 10 2026" = None →
       naive_timestamp (Date.MkDate 2026 3 1) = Some t1 →
       naive_timestamp (Date.MkDate 2026 1 10) = Some t3 →
       (t3 < t1)%Q →
       sort_output fromisoformat_timestamp naive_timestamp [e1; e2; e3] = [e3; e1; e2]).
Proof.
  split.
  - intros entries i j a b Hij Hi Hj. apply in_order_parses.
    exact (sort_output_in_order _ _ entries i j a b Hij Hi Hj).
  - intros e1 e2 e3 t1 t3. apply sort_three.
Qed.

Definition deadline_entry (d : string) : entry :=
  {[ "Submission Deadline" := VStr d ]}.

(** Scenario 5 in a process whose time zone is UTC. *)
Lemma sort_output_order_witness :
  sort_output Utc.fromisoformat_timestamp Utc.naive_timestamp
    [deadline_entry "Mar 01 2026"; deadline_entry ""; deadline_entry "Jan 10 2026"]
  = [deadline_entry "Jan 10 2026"; deadline_entry "Mar 01 2026"; deadline_entry ""].
Proof.
  apply (proj2 (sort_output_order Utc.fromisoformat_timestamp Utc.naive_timestamp)
           (deadline_entry "Mar 01 2026") (deadline_entry "") (deadline_entry "Jan 10 2026")
           (inject_Z 1772323200) (inject_Z 1768003200)).
  - vm_compute; reflexivity.
  - vm_compute; reflexivity.
  - vm_compute; reflexivity.
  - vm_compute; reflexivity.
  - vm_compute; reflexivity.
  - vm_compute; reflexivity.
  - vm_compute; reflexivity.
  - vm_compute; reflexivity.
Defined.

Definition named_deadline (name d : string) : entry :=
  <[ "name" := VStr name ]> (deadline_entry d).

(** In a process whose time zone is UTC: an ISO text that ends in "Z" is
    parseable and stands by its instant among the others; midnight of
    1 March 2026 is the same instant written as a date, as an ISO text with
    "Z" and as an ISO text at the offset +02:00, and the three stand by
    name; "TBD" and the empty text come last, by name. *)
Example sort_output_samples :
  map (λ e, (field_of "name" e, deadline_text e))
    (sort_output Utc.fromisoformat_timestamp Utc.naive_timestamp
       [named_deadline "b" "TBD"; named_deadline "E" "Mar 01 2026";
        named_deadline "a" ""; named_deadline "d" "2026-03-01T00:00:00Z";
        named_deadline "C" "2026-03-01T02:00:00+02:00";
        named_deadline "z" " 2026-02-28T23:59:59Z ";
        named_deadline "y" "Mar 02 2026"])
  = [("z", "2026-02-28T23:59:59Z"); ("C", "2026-03-01T02:00:00+02:00");
     ("d", "2026-03-01T00:00:00Z"); ("E", "Mar 01 2026"); ("y", "Mar 02 2026");
     ("a", ""); ("b", "TBD")]
  ∧ Utc.fromisoformat_timestamp "2026-03-01T00:00:00Z" = None
  ∧ Utc.fromisoformat_timestamp (z_as_utc "2026-03-01T00:00:00Z")
    = Some (inject_Z 1772323200).
Proof. repeat split; vm_compute; reflexivity. Qed.

(** ** The noise of a deadline text *)

(** What the date cleaner removes from a text, said without patterns: the
    pieces of five kinds, each kind deleted from left to right before the
    next one is looked for. *)
Module Noise.

(** [s] begins with the word [w], letters in either case: what follows the
    word. *)
Fixpoint after_word (w s : string) : option string :=
  match w with
  | EmptyString => Some s
  | String a w' =>
      match s with
      | String c s' => if Chars.eqb_nocase a c then after_word w' s' else None
      | EmptyString => None
      end
  end.

(** [s] begins with a character of the class [p]: what follows it. *)
Definition one_of (p : ascii → bool) (s : string) : option string :=
  match s with
  | String c s' => if p c then Some s' else None
  | EmptyString => None
  end.

(** [s] begins with one or more characters of the class [p]: what follows
    them. *)
Definition some_of (p : ascii → bool) (s : string) : option string :=
  match s with
  | String c s' => if p c then Some (Keys.skip p s') else None
  | EmptyString => None
  end.

(** The piece [f] finds is left out if there is one. *)
Definition optional (f : string → option string) (s : string) : string :=
  match f s with Some t => t | None => s end.

(** What follows the first ")" of [s], if no line feed stands before it. *)
Fixpoint until_close (s : string) : option string :=
  match s with
  | EmptyString => None
  | String c s' =>
      if Ascii.eqb ")" c then Some s'
      else if Chars.is_code 10 c then None
      else until_close s'
  end.

(** A strike marker, "<strike>" or "</strike>". *)
Definition strike (s : string) : option string :=
  match after_word "</strike>" s with
  | Some t => Some t
  | None => after_word "<strike>" s
  end.

(** A note in parentheses, up to the first ")" on the line. *)
Definition note (s : string) : option string :=
  s1 ← after_word "(" s; until_close s1.

(** A phrase "in N days": "in", white space, digits, white space, "days". *)
Definition in_n_days (s : string) : option string :=
  s1 ← after_word "in" s;
  s2 ← some_of Chars.isspace s1;
  s3 ← some_of Chars.isdigit s2;
  s4 ← some_of Chars.isspace s3;
  after_word "days" s4.

(** A clock time "H:MM AM" or "HH:MM PM", with the white space and the
    semicolon before it: one semicolon if there is one, white space if there
    is some, one or two digits, ":", two digits, white space if there is
    some, and "AM" or "PM". *)
Definition clock (s : string) : option string :=
  s1 ← one_of Chars.isdigit (Keys.skip Chars.isspace (optional (after_word ";") s));
  s2 ← after_word ":" (optional (one_of Chars.isdigit) s1);
  s3 ← one_of Chars.isdigit s2;
  s4 ← one_of Chars.isdigit s3;
  match after_word "AM" (Keys.skip Chars.isspace s4) with
  | Some t => Some t
  | None => after_word "PM" (Keys.skip Chars.isspace s4)
  end.

(** A semicolon. *)
Definition semicolon (s : string) : option string := after_word ";" s.

(** [s] with the pieces deleted that [piece] finds, from left to right: a
    piece at the head of the text is left out and the reading goes on behind
    it; where there is none, one character is kept.  [n] bounds the steps by
    the characters of the text. *)
Fixpoint delete_pieces (piece : string → option string) (n : nat) (s : string) : string :=
  match n with
  | O => s
  | S n' =>
      match piece s with
      | Some t => delete_pieces piece n' t
      | None =>
          match s with
          | String c s' => String c (delete_pieces piece n' s')
          | EmptyString => EmptyString
          end
      end
  end.

Definition delete_all (piece : string → option string) (s : string) : string :=
  delete_pieces piece (String.length s) s.

(** The text of a deadline with the noise stripped: the strike markers, the
    notes in parentheses, the phrases "in N days", the clock times and the
    semicolons deleted in this order, then the white space at both ends
    dropped and every run of white space inside turned into one space. *)
Definition cleaned (s : string) : string :=
  Str.strip (Whitespace.collapse false (Str.strip
    (delete_all semicolon (delete_all clock (delete_all in_n_days
       (delete_all note (delete_all strike s))))))).

(** *** Matching without looking back *)

(** A pattern without "^" and "\b": what it matches at a position depends
    only on the text from the position on. *)
Fixpoint lookbehind_free (r : regex) : bool :=
  match r with
  | WordB | Bos => false
  | Cat r1 r2 | Alt r1 r2 => lookbehind_free r1 && lookbehind_free r2
  | Star r' | Lazy r' | Grp _ r' => lookbehind_free r'
  | _ => true
  end.

Fixpoint star_tails (step : string → list string) (n : nat) (s : string) : list string :=
  match n with
  | O => [s]
  | S n' =>
      flat_map (λ t, if (0 <? String.length s - String.length t)%nat
                     then star_tails step n' t else [])
               (step s) ++ [s]
  end.

Fixpoint lazy_tails (step : string → list string) (n : nat) (s : string) : list string :=
  match n with
  | O => [s]
  | S n' =>
      s :: flat_map (λ t, if (0 <? String.length s - String.length t)%nat
                          then lazy_tails step n' t else [])
                    (step s)
  end.

(** What is left of [s] behind each match of [r] at its head, in the order
    of the matcher. *)
Fixpoint tails (r : regex) (s : string) : list string :=
  match r with
  | Eps => [s]
  | Chr p =>
      match s with
      | String c s' => if p c then [s'] else []
      | EmptyString => []
      end
  | Cat r1 r2 => flat_map (tails r2) (tails r1 s)
  | Alt r1 r2 => tails r1 s ++ tails r2 s
  | Star r' => star_tails (tails r') (String.length s) s
  | Lazy r' => lazy_tails (tails r') (String.length s) s
  | Grp _ r' => tails r' s
  | Eos =>
      match s with
      | EmptyString => [s]
      | String c EmptyString => if Chars.is_code 10 c then [s] else []
      | _ => []
      end
  | WordB | Bos => []
  end.

Lemma map_flat_map_rest (F : mstate → list mstate) (G : string → list string)
    (l : list mstate) :
  (∀ x, map rest (F x) = G (rest x)) →
  map rest (flat_map F l) = flat_map G (map rest l).
Proof.
  intros H. induction l as [|x l IH]; [done|].
  cbn [flat_map map]. by rewrite map_app, H, IH.
Qed.

Lemma star_loop_tails (step_m : mstate → list mstate) (step_s : string → list string)
    (n : nat) :
  (∀ st, map rest (step_m st) = step_s (rest st)) →
  ∀ st, map rest (star_loop step_m n st) = star_tails step_s n (rest st).
Proof.
  intros Hstep. induction n as [|n IH]; intros st; cbn [star_loop star_tails]; [done|].
  rewrite map_app. cbn [map]. f_equal.
  rewrite (map_flat_map_rest _
             (λ t, if (0 <? String.length (rest st) - String.length t)%nat
                   then star_tails step_s n t else [])).
  - by rewrite Hstep.
  - intros x. unfold consumed. destruct (0 <? _)%nat; [apply IH | done].
Qed.

Lemma lazy_loop_tails (step_m : mstate → list mstate) (step_s : string → list string)
    (n : nat) :
  (∀ st, map rest (step_m st) = step_s (rest st)) →
  ∀ st, map rest (lazy_loop step_m n st) = lazy_tails step_s n (rest st).
Proof.
  intros Hstep. induction n as [|n IH]; intros st; cbn [lazy_loop lazy_tails]; [done|].
  cbn [map]. f_equal.
  rewrite (map_flat_map_rest _
             (λ t, if (0 <? String.length (rest st) - String.length t)%nat
                   then lazy_tails step_s n t else [])).
  - by rewrite Hstep.
  - intros x. unfold consumed. destruct (0 <? _)%nat; [apply IH | done].
Qed.

Lemma run_tails (r : regex) :
  lookbehind_free r = true → ∀ st, map rest (run r st) = tails r (rest st).
Proof.
  induction r as [|p|r1 IH1 r2 IH2|r1 IH1 r2 IH2|r IH|r IH|g r IH| | |];
    intros Hf st; cbn [run tails]; cbn [lookbehind_free] in Hf; try done.
  - destruct (rest st) as [|c s]; [done|]. by destruct (p c).
  - apply andb_true_iff in Hf as [Hf1 Hf2].
    rewrite (map_flat_map_rest _ (tails r2)) by (by apply IH2). by rewrite IH1.
  - apply andb_true_iff in Hf as [Hf1 Hf2]. by rewrite map_app, IH1, IH2.
  - by apply star_loop_tails, IH.
  - by apply lazy_loop_tails, IH.
  - rewrite map_map. cbn [rest]. by apply IH.
  - unfold at_end. destruct (rest st) as [|c [|d s]] eqn:Hs; [by cbn; rewrite Hs| |done].
    destruct (Chars.is_code 10 c); [by cbn; rewrite Hs | done].
Qed.

Lemma match_at_tails (r : regex) (st : mstate) :
  lookbehind_free r = true → rest <$> match_at r st = head (tails r (rest st)).
Proof.
  intros Hf. rewrite <- (run_tails r Hf). unfold match_at. by destruct (run r st).
Qed.

(** *** Matches that take a character *)

(** Every match of the pattern takes at least one character: a sufficient
    condition, read off the pattern. *)
Fixpoint nonempty (r : regex) : bool :=
  match r with
  | Chr _ => true
  | Cat r1 r2 => nonempty r1 || nonempty r2
  | Alt r1 r2 => nonempty r1 && nonempty r2
  | Grp _ r' => nonempty r'
  | _ => false
  end.

Lemma star_tails_le (step : string → list string) (n : nat) :
  (∀ s t, t ∈ step s → (String.length t ≤ String.length s)%nat) →
  ∀ s t, t ∈ star_tails step n s → (String.length t ≤ String.length s)%nat.
Proof.
  intros Hstep. induction n as [|n IH]; intros s t Hin; cbn [star_tails] in Hin.
  - by apply list_elem_of_singleton in Hin as ->.
  - apply elem_of_app in Hin as [Hin | Hin].
    + apply Engine.elem_of_flat_map in Hin as (u & Hu & Hin).
      destruct (0 <? _)%nat; [|by apply elem_of_nil in Hin].
      apply IH in Hin. apply Hstep in Hu. lia.
    + by apply list_elem_of_singleton in Hin as ->.
Qed.

Lemma lazy_tails_le (step : string → list string) (n : nat) :
  (∀ s t, t ∈ step s → (String.length t ≤ String.length s)%nat) →
  ∀ s t, t ∈ lazy_tails step n s → (String.length t ≤ String.length s)%nat.
Proof.
  intros Hstep. induction n as [|n IH]; intros s t Hin; cbn [lazy_tails] in Hin.
  - by apply list_elem_of_singleton in Hin as ->.
  - apply elem_of_cons in Hin as [-> | Hin]; [done|].
    apply Engine.elem_of_flat_map in Hin as (u & Hu & Hin).
    destruct (0 <? _)%nat; [|by apply elem_of_nil in Hin].
    apply IH in Hin. apply Hstep in Hu. lia.
Qed.

Lemma tails_le (r : regex) (s t : string) :
  t ∈ tails r s → (String.length t ≤ String.length s)%nat.
Proof.
  revert s t. induction r as [|p|r1 IH1 r2 IH2|r1 IH1 r2 IH2|r IH|r IH|g r IH| | |];
    intros s t Hin; cbn [tails] in Hin.
  - by apply list_elem_of_singleton in Hin as ->.
  - destruct s as [|c s]; [by apply elem_of_nil in Hin|].
    destruct (p c); [|by apply elem_of_nil in Hin].
    apply list_elem_of_singleton in Hin as ->. cbn [String.length]. lia.
  - apply Engine.elem_of_flat_map in Hin as (u & Hu & Hin).
    apply IH1 in Hu. apply IH2 in Hin. lia.
  - apply elem_of_app in Hin as [Hin | Hin]; [by apply IH1 | by apply IH2].
  - by apply (star_tails_le _ _ IH) in Hin.
  - by apply (lazy_tails_le _ _ IH) in Hin.
  - by apply IH.
  - by apply elem_of_nil in Hin.
  - by apply elem_of_nil in Hin.
  - destruct s as [|c [|d s]]; [|destruct (Chars.is_code 10 c)|];
      first [by apply elem_of_nil in Hin | by apply list_elem_of_singleton in Hin as ->].
Qed.

Lemma tails_lt (r : regex) (s t : string) :
  nonempty r = true → t ∈ tails r s → (String.length t < String.length s)%nat.
Proof.
  revert s t. induction r as [|p|r1 IH1 r2 IH2|r1 IH1 r2 IH2|r IH|r IH|g r IH| | |];
    intros s t Hne Hin; cbn [nonempty] in Hne; try discriminate Hne; cbn [tails] in Hin.
  - destruct s as [|c s]; [by apply elem_of_nil in Hin|].
    destruct (p c); [|by apply elem_of_nil in Hin].
    apply list_elem_of_singleton in Hin as ->. cbn [String.length]. lia.
  - apply Engine.elem_of_flat_map in Hin as (u & Hu & Hin).
    apply orb_true_iff in Hne as [Hne | Hne].
    + apply (IH1 _ _ Hne) in Hu. apply tails_le in Hin. lia.
    + apply tails_le in Hu. apply (IH2 _ _ Hne) in Hin. lia.
  - apply andb_true_iff in Hne as [Hne1 Hne2].
    apply elem_of_app in Hin as [Hin | Hin]; [by apply IH1 | by apply IH2].
  - by apply IH.
Qed.

(** [re.sub] with the replacement "": the pieces the pattern finds are
    deleted. *)
Lemma sub_from_pieces (r : regex) (piece : string → option string) :
  lookbehind_free r = true → nonempty r = true →
  (∀ s, head (tails r s) = piece s) →
  ∀ n st, sub_from n r "" st = delete_pieces piece n (rest st).
Proof.
  intros Hf Hne Hpiece. induction n as [|n IH]; intros st; cbn [sub_from delete_pieces].
  - by destruct (match_at r st).
  - pose proof (match_at_tails r st Hf) as Hm. rewrite Hpiece in Hm.
    destruct (match_at r st) as [m|].
    + cbn in Hm. rewrite <- Hm.
      assert (String.length (rest m) < String.length (rest st))%nat as Hlt.
      { apply (tails_lt r); [done|]. symmetry in Hm. rewrite <- Hpiece in Hm.
        destruct (tails r (rest st)) as [|t l]; [done|]. injection Hm as ->. by left. }
      unfold consumed.
      replace (0 <? String.length (rest st) - String.length (rest m))%nat with true
        by (symmetry; apply Nat.ltb_lt; lia).
      rewrite IH. reflexivity.
    + cbn in Hm. rewrite <- Hm. destruct (rest st) as [|c s']; [done|].
      by rewrite IH.
Qed.

Lemma re_sub_pieces (r : regex) (piece : string → option string) (s : string) :
  lookbehind_free r = true → nonempty r = true →
  (∀ s, head (tails r s) = piece s) →
  re_sub r "" s = delete_all piece s.
Proof. intros Hf Hne Hpiece. unfold re_sub, delete_all. by rewrite (sub_from_pieces r piece). Qed.

(** *** The five kinds of noise *)

Definition found (o : option string) : list string :=
  match o with Some t => [t] | None => [] end.

Lemma head_found (o : option string) : head (found o) = o.
Proof. by destruct o. Qed.

Lemma tails_cat (r1 r2 : regex) (s : string) :
  tails (Cat r1 r2) s = flat_map (tails r2) (tails r1 s).
Proof. reflexivity. Qed.

Lemma flat_map_found (f : string → list string) (o : option string) :
  flat_map f (found o) = match o with Some t => f t | None => [] end.
Proof. destruct o; [apply app_nil_r | done]. Qed.

Lemma tails_chr (p : ascii → bool) (s : string) : tails (Chr p) s = found (one_of p s).
Proof. destruct s as [|c s]; [done|]. cbn [tails one_of]. by destruct (p c). Qed.

Lemma tails_lit_i (w s : string) : tails (lit_i w) s = found (after_word w s).
Proof.
  revert s. induction w as [|a w IH]; intros s; [done|].
  destruct w as [|b w].
  - destruct s as [|c s]; [done|]. cbn [lit_i chr_i tails after_word].
    by destruct (Chars.eqb_nocase a c).
  - change (lit_i (String a (String b w))) with (Cat (chr_i a) (lit_i (String b w))).
    rewrite tails_cat. unfold chr_i. rewrite tails_chr, flat_map_found.
    destruct s as [|c s]; [done|]. cbn [one_of after_word].
    destruct (Chars.eqb_nocase a c); [apply IH | done].
Qed.

Lemma tails_chr_then (p : ascii → bool) (K : regex) (s : string) :
  tails (Cat (Chr p) K) s = match one_of p s with Some t => tails K t | None => [] end.
Proof. by rewrite tails_cat, tails_chr, flat_map_found. Qed.

Lemma tails_lit_then (w : string) (K : regex) (s : string) :
  tails (Cat (lit_i w) K) s = match after_word w s with Some t => tails K t | None => [] end.
Proof. by rewrite tails_cat, tails_lit_i, flat_map_found. Qed.

(** Every match of the pattern begins with a character of the class [q]: a
    sufficient condition, read off the pattern. *)
Fixpoint starts_in (q : ascii → bool) (r : regex) : bool :=
  match r with
  | Chr p => Engine.subclass p q
  | Cat r1 _ => starts_in q r1
  | Alt r1 r2 => starts_in q r1 && starts_in q r2
  | Grp _ r' => starts_in q r'
  | _ => false
  end.

Lemma tails_starts (q : ascii → bool) (r : regex) (c : ascii) (t : string) :
  starts_in q r = true → q c = false → tails r (String c t) = [].
Proof.
  revert t. induction r as [|p|r1 IH1 r2 IH2|r1 IH1 r2 IH2|r IH|r IH|g r IH| | |];
    intros t Hs Hq; cbn [starts_in] in Hs; try discriminate Hs; cbn [tails].
  - destruct (p c) eqn:Hp; [|done].
    rewrite (Engine.subclass_spec _ _ _ Hs Hp) in Hq. discriminate Hq.
  - by rewrite IH1.
  - apply andb_true_iff in Hs as [Hs1 Hs2]. by rewrite IH1, IH2.
  - by apply IH.
Qed.

(** The pattern [K] does not match where a character of the class [p]
    stands. *)
Definition stops (p : ascii → bool) (K : regex) : Prop :=
  ∀ c t, p c = true → tails K (String c t) = [].

Lemma stops_starts (p : ascii → bool) (K : regex) :
  starts_in (λ c, negb (p c)) K = true → stops p K.
Proof.
  intros Hs c t Hp. apply (tails_starts _ _ _ _ Hs). by rewrite Hp.
Qed.

Lemma star_then (p : ascii → bool) (k : string → list string) (n : nat) (s : string) :
  (∀ c t, p c = true → k (String c t) = []) →
  (String.length s ≤ n)%nat →
  flat_map k (star_tails (tails (Chr p)) n s) = k (Keys.skip p s).
Proof.
  intros Hk. revert s. induction n as [|n IH]; intros s Hlen.
  - destruct s; [|cbn in Hlen; lia]. cbn [star_tails flat_map Keys.skip]. apply app_nil_r.
  - cbn [star_tails]. destruct s as [|c s].
    + cbn [tails flat_map app Keys.skip]. apply app_nil_r.
    + cbn [tails Keys.skip]. destruct (p c) eqn:Hp.
      * cbn [flat_map String.length].
        replace (0 <? S (String.length s) - String.length s)%nat with true
          by (symmetry; apply Nat.ltb_lt; lia).
        rewrite app_nil_r, flat_map_app. cbn [flat_map].
        rewrite (Hk c s Hp), IH by (cbn in Hlen; lia). by rewrite !app_nil_r.
      * cbn [flat_map app]. apply app_nil_r.
Qed.

Lemma tails_star_then (p : ascii → bool) (K : regex) (s : string) :
  stops p K → tails (Cat (Star (Chr p)) K) s = tails K (Keys.skip p s).
Proof. intros HK. rewrite tails_cat. cbn [tails]. by apply star_then. Qed.

Lemma tails_plus_then (p : ascii → bool) (K : regex) (s : string) :
  stops p K →
  tails (Cat (plus (Chr p)) K) s
  = match some_of p s with Some t => tails K t | None => [] end.
Proof.
  intros HK. unfold plus. rewrite tails_cat, tails_chr_then.
  destruct s as [|c s]; [done|]. cbn [one_of some_of].
  destruct (p c); [|done]. cbn [tails]. by apply star_then.
Qed.

Lemma tails_opt_then (p : ascii → bool) (K : regex) (s : string) :
  stops p K → tails (Cat (opt (Chr p)) K) s = tails K (optional (one_of p) s).
Proof.
  intros HK. unfold opt, optional. rewrite tails_cat. cbn [tails].
  destruct s as [|c s]; [cbn [one_of flat_map app]; apply app_nil_r|].
  cbn [one_of]. destruct (p c) eqn:Hp; cbn [app flat_map].
  - by rewrite (HK c s Hp), !app_nil_r.
  - apply app_nil_r.
Qed.

Lemma same_class (p q : ascii → bool) (c : ascii) :
  Engine.subclass p q = true → Engine.subclass q p = true → p c = q c.
Proof.
  intros H1 H2. destruct (p c) eqn:Hp.
  - symmetry. by apply (Engine.subclass_spec _ _ _ H1).
  - destruct (q c) eqn:Hq; [|done].
    rewrite (Engine.subclass_spec _ _ _ H2 Hq) in Hp. discriminate Hp.
Qed.

(** A character that is the same in either case. *)
Definition caseless (a : ascii) : bool :=
  Engine.subclass (Ascii.eqb a) (Chars.eqb_nocase a)
  && Engine.subclass (Chars.eqb_nocase a) (Ascii.eqb a).

Lemma caseless_spec (a c : ascii) :
  caseless a = true → Chars.eqb_nocase a c = Ascii.eqb a c.
Proof.
  intros [H1 H2]%andb_true_iff. symmetry. by apply same_class.
Qed.

Lemma one_of_word (a : ascii) (s : string) :
  caseless a = true → one_of (Ascii.eqb a) s = after_word (String a "") s.
Proof.
  intros Ha. destruct s as [|c s]; [done|]. cbn [one_of after_word].
  by rewrite (caseless_spec a c Ha).
Qed.

Lemma after_word_cons (a : ascii) (w : string) (c : ascii) (s : string) :
  after_word (String a w) (String c s)
  = if Chars.eqb_nocase a c then after_word w s else None.
Proof. reflexivity. Qed.

(** [</?strike>] *)
Lemma strike_marker_piece (s : string) : head (tails strike_marker s) = strike s.
Proof.
  unfold strike_marker, chr. cbn [seq].
  rewrite tails_chr_then.
  destruct s as [|c s]; [done|].
  unfold strike. cbn [one_of]. rewrite !after_word_cons.
  rewrite (caseless_spec "<" c) by (by vm_compute).
  destruct (Ascii.eqb "<" c); [|done].
  rewrite tails_opt_then by (apply stops_starts; by vm_compute).
  rewrite tails_lit_i, head_found. unfold optional.
  destruct s as [|d s]; [done|]. cbn [one_of]. rewrite (after_word_cons "/").
  rewrite (caseless_spec "/" d) by (by vm_compute).
  destruct (Ascii.eqb_spec "/" d) as [<- | Hd].
  - rewrite (after_word_cons "s" _ "/").
    change (Chars.eqb_nocase "s" "/") with false. cbv iota.
    by destruct (after_word "strike>" s).
  - reflexivity.
Qed.

Lemma lazy_until (n : nat) (s : string) :
  (String.length s ≤ n)%nat →
  head (flat_map (tails (Chr (Ascii.eqb ")")))
          (lazy_tails (tails (Chr (λ c, negb (Chars.is_code 10 c)))) n s))
  = until_close s.
Proof.
  revert s. induction n as [|n IH]; intros s Hlen.
  - destruct s; [done | cbn in Hlen; lia].
  - cbn [lazy_tails flat_map]. destruct s as [|c s]; [done|].
    cbn [until_close tails].
    destruct (Ascii.eqb ")" c); [done|]. cbn [app].
    destruct (Chars.is_code 10 c); cbn [negb flat_map]; [done|].
    cbn [String.length].
    replace (0 <? S (String.length s) - String.length s)%nat with true
      by (symmetry; apply Nat.ltb_lt; lia).
    rewrite app_nil_r. apply IH. cbn in Hlen. lia.
Qed.

(** [\(.*?\)] *)
Lemma paren_note_piece (s : string) : head (tails paren_note s) = note s.
Proof.
  unfold paren_note, chr, any. cbn [seq]. rewrite tails_chr_then.
  unfold note. rewrite <- (one_of_word "(") by (by vm_compute).
  destruct (one_of (Ascii.eqb "(") s) as [t|]; [|done].
  cbn [mbind option_bind]. rewrite tails_cat. by apply lazy_until.
Qed.

(** [in\s+\d+\s+days] *)
Lemma in_days_piece (s : string) : head (tails in_days s) = in_n_days s.
Proof.
  unfold in_days, ws, digit. cbn [seq]. unfold in_n_days.
  rewrite tails_lit_then.
  destruct (after_word "in" s) as [s1|]; [|done]. cbn [mbind option_bind].
  rewrite tails_plus_then by (apply stops_starts; by vm_compute).
  destruct (some_of Chars.isspace s1) as [s2|]; [|done]. cbn [mbind option_bind].
  rewrite tails_plus_then by (apply stops_starts; by vm_compute).
  destruct (some_of Chars.isdigit s2) as [s3|]; [|done]. cbn [mbind option_bind].
  rewrite tails_plus_then by (apply stops_starts; by vm_compute).
  destruct (some_of Chars.isspace s3) as [s4|]; [|done]. cbn [mbind option_bind].
  by rewrite tails_lit_i, head_found.
Qed.

Lemma stops_semicolon (K : regex) :
  starts_in Chars.isdigit K = true →
  stops (Ascii.eqb ";") (Cat (Star (Chr Chars.isspace)) K).
Proof.
  intros HK c t Hc. apply Ascii.eqb_eq in Hc as <-.
  rewrite tails_star_then.
  - cbn [Keys.skip]. change (Chars.isspace ";") with false. cbv iota.
    by apply (tails_starts _ _ _ _ HK).
  - intros c t' Hc. apply (tails_starts _ _ _ _ HK).
    destruct (Chars.isdigit c) eqn:Hd; [|done].
    assert (Engine.subclass Chars.isdigit (λ c, negb (Chars.isspace c)) = true) as Hsub
      by (by vm_compute).
    pose proof (Engine.subclass_spec _ _ _ Hsub Hd) as H. cbv beta in H.
    rewrite Hc in H. discriminate H.
Qed.

(** [;?\s*\d{1,2}:\d{2}\s*(AM|PM)] *)
Lemma clock_time_piece (s : string) : head (tails clock_time s) = clock s.
Proof.
  unfold clock_time, ws, digit, chr. cbn [seq]. unfold clock.
  rewrite tails_opt_then by (apply stops_semicolon; by vm_compute).
  replace (optional (after_word ";") s) with (optional (one_of (Ascii.eqb ";")) s)
    by (unfold optional; by rewrite one_of_word by (by vm_compute)).
  set (s0 := optional (one_of (Ascii.eqb ";")) s). clearbody s0.
  rewrite tails_star_then by (apply stops_starts; by vm_compute).
  rewrite tails_chr_then.
  destruct (one_of Chars.isdigit (Keys.skip Chars.isspace s0)) as [s1|]; [|done].
  cbn [mbind option_bind].
  rewrite tails_opt_then by (apply stops_starts; by vm_compute).
  rewrite tails_chr_then.
  rewrite <- (one_of_word ":") by (by vm_compute).
  destruct (one_of (Ascii.eqb ":") (optional (one_of Chars.isdigit) s1)) as [s2|]; [|done].
  cbn [mbind option_bind].
  rewrite tails_chr_then.
  destruct (one_of Chars.isdigit s2) as [s3|]; [|done]. cbn [mbind option_bind].
  rewrite tails_chr_then.
  destruct (one_of Chars.isdigit s3) as [s4|]; [|done]. cbn [mbind option_bind].
  rewrite tails_star_then by (apply stops_starts; by vm_compute).
  cbn [tails]. rewrite !tails_lit_i.
  destruct (after_word "AM" _); [done|]. apply head_found.
Qed.

(** [;] *)
Lemma semicolon_piece (s : string) : head (tails (chr ";") s) = semicolon s.
Proof.
  unfold chr, semicolon. rewrite tails_chr, head_found.
  apply one_of_word. by vm_compute.
Qed.

(** The noise [_clean_deadline_human] strips with its patterns is the noise
    of the five kinds. *)
Lemma strip_noise_cleaned (s : string) : strip_noise s = cleaned s.
Proof.
  unfold strip_noise, cleaned. cbv zeta.
  rewrite (re_sub_pieces strike_marker strike) by (done || apply strike_marker_piece).
  rewrite (re_sub_pieces paren_note note) by (done || apply paren_note_piece).
  rewrite (re_sub_pieces in_days in_n_days) by (done || apply in_days_piece).
  rewrite (re_sub_pieces clock_time clock) by (done || apply clock_time_piece).
  rewrite (re_sub_pieces (chr ";") semicolon) by (done || apply semicolon_piece).
  unfold _norm_space, _safe_str, Py.str. by rewrite Whitespace.re_sub_ws.
Qed.

End Noise.

(** The noise of each kind, deleted from a text. *)
Example noise_samples :
  (map (Noise.delete_all Noise.strike)
     ["<strike>Mar 1</strike>"; "</STRIKE><Strike >< strike><//strike>"; "<str<strike>ike>"],
   map (Noise.delete_all Noise.note)
     ["Jan 5 (AoE) 2026 (UTC)"; "a ((b) c)"; "(open"; ")(" ; "()"],
   map (Noise.delete_all Noise.in_n_days)
     ["Jan 5 in 12 days"; "IN  3  DAYS!"; "in 5days"; "in days"; "within 2 days"],
   map (Noise.delete_all Noise.clock)
     ["Jan 5; 11:59 PM"; "9:00am 10:30 pm"; "23:59"; "123:45 AM"; "1:234 PM"; ";;  1:00PM"],
   map (Noise.delete_all Noise.semicolon) ["a;b;;c"; ";"])
  = (["Mar 1"; "<Strike >< strike><//strike>"; "<strike>"],
     ["Jan 5  2026 "; "a  c)"; "(open"; ")("; ""],
     ["Jan 5 "; "!"; "in 5days"; "in days"; "with"],
     ["Jan 5"; ""; "23:59"; "1"; "1:234 PM"; ";"],
     ["abc"; ""]).
Proof. vm_compute. reflexivity. Qed.

(** [C9] Date normalization is total, with these results and no other.  The
    result is "" for a value that is not a string and for a blank string.
    Otherwise the noise is stripped from the text: the strike markers, the
    notes in parentheses, the phrases "in N days", the clock times with "AM"
    or "PM" and the semicolons, and the white space is collapsed.  The five
    formats "%b %d %Y", "%B %d %Y", "%b %d, %Y", "%B %d, %Y", "%Y-%m-%d" are
    tried on the stripped text in this order, and the first that parses it to
    a date that exists decides: the result is that date re-rendered as
    "Mon DD YYYY", a text that the format "%b %d %Y" reads back as the same
    date (for a year of four digits without a leading zero).  When none of
    the five parses it, the result is the stripped text as it is.  A
    ValueError of [strptime] is the only exception that arises, and the loop
    catches it. *)
Theorem clean_deadline_total (val : value) :
  (is_str val = false ∧ _clean_deadline_human val = "")
  ∨ (∃ s, val = VStr s ∧ Str.strip s = "" ∧ _clean_deadline_human val = "")
  ∨ (∃ s, val = VStr s ∧ Str.strip s ≠ ""
       ∧ (∀ fmt, fmt ∈ ["%b %d %Y"; "%B %d %Y"; "%b %d, %Y"; "%B %d, %Y"; "%Y-%m-%d"] →
            Date.strptime (Noise.cleaned s) fmt = None)
       ∧ _clean_deadline_human val = Noise.cleaned s)
  ∨ (∃ s pre fmt post dt,
       val = VStr s ∧ Str.strip s ≠ ""
       ∧ ["%b %d %Y"; "%B %d %Y"; "%b %d, %Y"; "%B %d, %Y"; "%Y-%m-%d"]
         = pre ++ fmt :: post
       ∧ (∀ f, f ∈ pre → Date.strptime (Noise.cleaned s) f = None)
       ∧ Date.strptime (Noise.cleaned s) fmt = Some dt
       ∧ Date.valid dt = true
       ∧ _clean_deadline_human val = Date.strftime_b_d_Y dt
       ∧ ((1000 ≤ Date.year dt)%nat →
          Date.strptime (_clean_deadline_human val) "%b %d %Y" = Some dt)).
Proof.
  destruct val as [|s|xs|shown]; try (left; by split).
  right. unfold _clean_deadline_human.
  destruct (Str.strip s) as [|c t] eqn:Hs; cbn [Str.is_empty].
  - left. by exists s.
  - right. rewrite Noise.strip_noise_cleaned.
    destruct (try_formats_first (Noise.cleaned s) deadline_formats)
      as [[Hnone Hres] | (pre & fmt & post & dt & Hsplit & Hpre & Hfmt & Hres)].
    + left. exists s. split; [done|]. split; [by rewrite Hs|].
      split; [exact Hnone | exact Hres].
    + right. exists s, pre, fmt, post, dt.
      pose proof (strptime_valid (Noise.cleaned s) fmt dt Hfmt) as Hv.
      split; [done|]. split; [by rewrite Hs|]. split; [exact Hsplit|].
      split; [exact Hpre|]. split; [exact Hfmt|]. split; [exact Hv|].
      split; [exact Hres|]. intros Hy. rewrite Hres. by apply strptime_strftime.
Qed.
